(** * Decision Sherlock: the model-response normalization pipeline

    A shallow embedding of [src/decisionSherlock.ts.tsx] (the defensive
    service wrapper: [safeParseJSON], [clampScore], [analyzeDecision] with its
    inline normaliser and winner inference, and the helpers that save cases
    and build share links), of [src/services/geminiService.ts]
    ([extractRawText] and the simpler [analyzeDecision]) and of the
    application of [src/unnamed/part_001] with its handlers, together with
    the properties the specification states about them and further
    properties of the code.

    Modelling conventions.
    - A JavaScript string is its sequence of UTF-16 code units ([list N]);
      [str] turns an ASCII literal into one.
    - A JavaScript number is [NaN], an infinity, or a finite value carried as an
      exact rational (every double is one).  The sign of zero is not
      represented; sums of scores and the mean are computed exactly, where the
      engine rounds the quotient to the nearest double.
    - A JavaScript value is a finite tree of data ([JSValue]): what
      [JSON.parse] returns, and [undefined].  The only function value the
      program ever calls is the [text] accessor of the model response; a
      [Response] is data, or an object whose [text] is such an accessor,
      recorded as the outcome of calling and awaiting it.
    - [throw] is the left summand of [Result].
    - The built-ins the program calls and that depend on the decimal syntax of
      numbers ([JSON.parse], string-to-number and number-to-string conversion)
      are the fields of the class [Host]; every theorem holds for every host,
      and [RefHost.host] is an executable one for the examples.
    - [btoa], [atob], [encodeURIComponent] and [decodeURIComponent] are
      written out.  What the environment decides is an input: the items of
      [localStorage] and whether it has room, the readings of the clock, the
      address of the page, whether the clipboard takes a text, the
      identifiers that [genId] draws, the files and what reading them gives.
    - The application is a transition system: an event is a call of a
      handler by a control that is rendered and not disabled, or the end of
      an upload or of an analysis that is pending. *)

From Stdlib Require Import ZArith QArith Qround Qabs Lia List Ascii String.
From stdpp Require Import base list strings gmap.

Set Default Proof Using "Type".
Set Warnings "-register-all".

(** ** Strings *)

Definition jsstring := list N.

Definition str (s : string) : jsstring :=
  map N_of_ascii (list_ascii_of_string s).

Definition ch (a : ascii) : N := N_of_ascii a.

Fixpoint dropWhile {A} (p : A → bool) (l : list A) : list A :=
  match l with
  | [] => []
  | x :: t => if p x then dropWhile p t else l
  end.

Definition inRange (lo hi c : N) : bool := (N.leb lo c && N.leb c hi)%bool.

(** [\s] of a regular expression and the characters [trim] removes:
    WhiteSpace and LineTerminator of ECMA-262. *)
Definition isWhiteSpace (c : N) : bool :=
  (inRange 9 13 c || N.eqb c 32 || N.eqb c 160 || N.eqb c 5760
   || inRange 8192 8202 c || N.eqb c 8232 || N.eqb c 8233 || N.eqb c 8239
   || N.eqb c 8287 || N.eqb c 12288 || N.eqb c 65279)%bool.

Definition trimStart (s : jsstring) : jsstring := dropWhile isWhiteSpace s.
Definition trimEnd (s : jsstring) : jsstring :=
  rev (dropWhile isWhiteSpace (rev s)).
Definition trim (s : jsstring) : jsstring := trimStart (trimEnd s).

Fixpoint startsWith (p s : jsstring) : bool :=
  match p, s with
  | [], _ => true
  | a :: p', b :: s' => (N.eqb a b && startsWith p' s')%bool
  | _ :: _, [] => false
  end.

(** [s.indexOf(needle)]: [None] stands for [-1]. *)
Fixpoint indexOf (needle s : jsstring) : option nat :=
  if startsWith needle s then Some 0%nat
  else match s with
       | [] => None
       | _ :: t => option_map S (indexOf needle t)
       end.

(** [s.substring(i)] for [0 <= i]. *)
Definition substring (i : nat) (s : jsstring) : jsstring := drop i s.

(** Case-insensitive comparison of an ASCII letter, as the [i] flag does it:
    a code unit above 127 never folds to an ASCII one. *)
Definition eqFold (a c : N) : bool :=
  (N.eqb a c || (inRange 97 122 a && N.eqb (a - 32) c)
   || (inRange 65 90 a && N.eqb (a + 32) c))%bool.

Fixpoint startsWithFold (p s : jsstring) : bool :=
  match p, s with
  | [], _ => true
  | a :: p', b :: s' => (eqFold a b && startsWithFold p' s')%bool
  | _ :: _, [] => false
  end.

Definition fence : jsstring := str "```".

(** [s.replace(/^```json\s*/i, "")] *)
Definition stripJsonFence (s : jsstring) : jsstring :=
  if startsWithFold (str "```json") s then dropWhile isWhiteSpace (drop 7 s)
  else s.

(** [s.replace(/^```\s*/i, "")] *)
Definition stripLeadingFence (s : jsstring) : jsstring :=
  if startsWith fence s then dropWhile isWhiteSpace (drop 3 s) else s.

(** [s.replace(/```\s*$/i, "")]: the leftmost position from which the rest of
    the string is a fence followed by white space only. *)
Fixpoint stripTrailingFence (s : jsstring) : jsstring :=
  if (startsWith fence s && forallb isWhiteSpace (drop 3 s))%bool then []
  else match s with
       | [] => []
       | c :: t => c :: stripTrailingFence t
       end.

Definition isNot (c : N) (x : N) : bool := negb (N.eqb x c).

(** The prefix of [s] that ends with the last occurrence of [c], if any. *)
Definition upToLast (c : N) (s : jsstring) : option jsstring :=
  match dropWhile (isNot c) (rev s) with
  | [] => None
  | r => Some (rev r)
  end.

(** [s.match(/(\{[\s\S]*\})/m)], group 1: from the first opening brace to the
    last closing brace after it. *)
Definition matchBraceBlock (s : jsstring) : option jsstring :=
  upToLast (ch "}") (dropWhile (isNot (ch "{")) s).

(** [s.replace(/,\s*X/g, "X")] for a closing character [X], as a scan with the
    pending comma and white space in [pending]. *)
Fixpoint replaceCommaBefore (close : N) (pending : option jsstring)
    (s : jsstring) : jsstring :=
  match s with
  | [] => default [] pending
  | c :: t =>
      match pending with
      | None =>
          if N.eqb c (ch ",") then replaceCommaBefore close (Some [c]) t
          else c :: replaceCommaBefore close None t
      | Some buf =>
          if N.eqb c close then c :: replaceCommaBefore close None t
          else if isWhiteSpace c
               then replaceCommaBefore close (Some (buf ++ [c])) t
          else if N.eqb c (ch ",")
               then buf ++ replaceCommaBefore close (Some [c]) t
          else buf ++ c :: replaceCommaBefore close None t
      end
  end.

(** [text.replace(/,\s*}/g, "}").replace(/,\s*]/g, "]")] *)
Definition cleanTrailingCommas (text : jsstring) : jsstring :=
  replaceCommaBefore (ch "]") None (replaceCommaBefore (ch "}") None text).

(** ** Numbers *)

Inductive JSNum : Type :=
| NaN
| PosInf
| NegInf
| Fin (q : Q).

Definition isNaN (n : JSNum) : bool :=
  match n with NaN => true | _ => false end.

Definition Qltb (a b : Q) : bool := negb (Qle_bool b a).

(** [a < b] *)
Definition num_lt (a b : JSNum) : bool :=
  match a, b with
  | NaN, _ | _, NaN => false
  | PosInf, _ => false
  | _, NegInf => false
  | NegInf, _ => true
  | _, PosInf => true
  | Fin x, Fin y => Qltb x y
  end.

(** [Math.round]: the nearest integer, a tie going up. *)
Definition Math_round (n : JSNum) : JSNum :=
  match n with
  | Fin q => Fin (inject_Z (Qfloor (q + (1 # 2))))
  | other => other
  end.

Definition num_opp (a : JSNum) : JSNum :=
  match a with
  | NaN => NaN
  | PosInf => NegInf
  | NegInf => PosInf
  | Fin q => Fin (- q)
  end.

(** [a + b] *)
Definition num_add (a b : JSNum) : JSNum :=
  match a, b with
  | NaN, _ | _, NaN => NaN
  | PosInf, NegInf | NegInf, PosInf => NaN
  | PosInf, _ | _, PosInf => PosInf
  | NegInf, _ | _, NegInf => NegInf
  | Fin x, Fin y => Fin (x + y)
  end.

(** [a - b] *)
Definition num_sub (a b : JSNum) : JSNum := num_add a (num_opp b).

Definition signedInf (negative : bool) : JSNum :=
  if negative then NegInf else PosInf.

(** [a / b] (a zero divisor is taken as [+0]). *)
Definition num_div (a b : JSNum) : JSNum :=
  match a, b with
  | NaN, _ | _, NaN => NaN
  | (PosInf | NegInf), (PosInf | NegInf) => NaN
  | PosInf, Fin y => signedInf (Qltb y 0)
  | NegInf, Fin y => signedInf (negb (Qltb y 0))
  | Fin _, (PosInf | NegInf) => Fin 0
  | Fin x, Fin y =>
      if Qeq_bool y 0
      then (if Qeq_bool x 0 then NaN else signedInf (Qltb x 0))
      else Fin (x / y)
  end.

Definition num_of_nat (n : nat) : JSNum := Fin (inject_Z (Z.of_nat n)).

(** ** Values and exceptions *)

Inductive Exn : Type :=
| TypeError
| Error (msg : string)
| Thrown (tag : N).

Definition Result (A : Type) : Type := (Exn + A)%type.

Definition throw {A} (e : Exn) : Result A := inl e.

#[global] Instance Result_ret : MRet Result := fun A a => inr a.
#[global] Instance Result_bind : MBind Result := fun A B k m =>
  match m with
  | inl e => inl e
  | inr a => k a
  end.

(** [try { m } catch (e) { h e }] *)
Definition try_catch {A} (m : Result A) (h : Exn → Result A) : Result A :=
  match m with
  | inl e => h e
  | inr a => inr a
  end.

(** Data: the values [JSON.parse] produces, and [undefined] for what is
    missing.  An object keeps its properties in insertion order. *)
Inductive JSValue : Type :=
| JUndefined
| JNull
| JBool (b : bool)
| JNum (n : JSNum)
| JStr (s : jsstring)
| JArr (items : list JSValue)
| JObj (props : list (jsstring * JSValue)).

(** The raw model response: plain data, or an object whose [text] property is
    a function; [call] is the outcome of [await response.text()] and [props]
    are the other properties. *)
Inductive Response : Type :=
| RData (v : JSValue)
| RWithText (call : Exn + JSValue) (props : list (jsstring * JSValue)).

Class Host : Type := {
  (** [JSON.parse]; [None] is its [SyntaxError] *)
  JSON_parse : jsstring → option JSValue;
  (** the numeric value of a string, ECMA-262 StringToNumber *)
  StringToNumber : jsstring → JSNum;
  (** the decimal text of a finite number, ECMA-262 Number::toString *)
  NumberToString : Q → jsstring;
  (** what [Object.prototype.toString] prints is not a numeric literal *)
  StringToNumber_object : StringToNumber (str "[object Object]") = NaN;
}.

(** ** Coercions and operators *)

Definition jsstring_eqb (a b : jsstring) : bool := bool_decide (a = b).

Fixpoint lookupProp (k : jsstring) (props : list (jsstring * JSValue))
    : option JSValue :=
  match props with
  | [] => None
  | (k', v) :: rest => if jsstring_eqb k' k then Some v else lookupProp k rest
  end.

(** ToBoolean *)
Definition truthy (v : JSValue) : bool :=
  match v with
  | JUndefined | JNull => false
  | JBool b => b
  | JNum NaN => false
  | JNum (Fin q) => negb (Qeq_bool q 0)
  | JNum _ => true
  | JStr s => match s with [] => false | _ => true end
  | JArr _ | JObj _ => true
  end.

(** [a || b] *)
Definition or_else (a b : JSValue) : JSValue := if truthy a then a else b.

Definition nullish (v : JSValue) : bool :=
  match v with JUndefined | JNull => true | _ => false end.

(** [a ?? b] *)
Definition coalesce (a b : JSValue) : JSValue := if nullish a then b else a.

Infix "??" := coalesce (at level 52, left associativity).

(** [v === "literal"] *)
Definition strictEqString (v : JSValue) (literal : string) : bool :=
  match v with
  | JStr s => jsstring_eqb s (str literal)
  | _ => false
  end.

Definition isString (v : JSValue) : bool :=
  match v with JStr _ => true | _ => false end.

(** [v.k] for the property names this program reads: none of them is
    [length], an index or a member of a built-in prototype, so only an own
    property of an object can be found.  Reading a property of [undefined] or
    [null] throws. *)
Definition getProp (v : JSValue) (k : string) : Result JSValue :=
  match v with
  | JUndefined | JNull => throw TypeError
  | JObj props => mret (default JUndefined (lookupProp (str k) props))
  | _ => mret JUndefined
  end.

Definition primToString `{Host} (v : JSValue) : jsstring :=
  match v with
  | JUndefined => str "undefined"
  | JNull => str "null"
  | JBool true => str "true"
  | JBool false => str "false"
  | JNum NaN => str "NaN"
  | JNum PosInf => str "Infinity"
  | JNum NegInf => str "-Infinity"
  | JNum (Fin q) => NumberToString q
  | JStr s => s
  | JArr _ | JObj _ => []
  end.

Fixpoint joinWith (sep : jsstring) (parts : list jsstring) : jsstring :=
  match parts with
  | [] => []
  | [p] => p
  | p :: rest => p ++ sep ++ joinWith sep rest
  end.

(** Converting an object to a primitive: an own [toString] (or [valueOf])
    property of data is never callable, and then no method yields a
    primitive; otherwise [Object.prototype.toString] answers. *)
Definition objectToPrimitive (props : list (jsstring * JSValue))
    : Result jsstring :=
  match lookupProp (str "toString") props with
  | Some _ => throw TypeError
  | None => mret (str "[object Object]")
  end.

(** [String(v)], ToString of ECMA-262.  An array is joined with commas, its
    [undefined] and [null] elements giving the empty string. *)
Fixpoint ToString `{Host} (v : JSValue) : Result jsstring :=
  match v with
  | JArr items =>
      parts ← (fix each (l : list JSValue) : Result (list jsstring) :=
                 match l with
                 | [] => mret []
                 | e :: t =>
                     s ← (if nullish e then mret [] else ToString e);
                     rest ← each t;
                     mret (s :: rest)
                 end) items;
      mret (joinWith (str ",") parts)
  | JObj props => objectToPrimitive props
  | prim => mret (primToString prim)
  end.

(** [Number(v)], ToNumber of ECMA-262: an array or object is first converted
    to a string. *)
Definition ToNumber `{Host} (v : JSValue) : Result JSNum :=
  match v with
  | JUndefined => mret NaN
  | JNull => mret (Fin 0)
  | JBool true => mret (Fin 1)
  | JBool false => mret (Fin 0)
  | JNum n => mret n
  | JStr s => mret (StringToNumber s)
  | JArr _ => s ← ToString v; mret (StringToNumber s)
  | JObj props => s ← objectToPrimitive props; mret (StringToNumber s)
  end.

(** [l.map(f)] for a callback that may throw: elements are visited in
    order and the first exception ends the loop. *)
Fixpoint mapArray {A B} (f : A → Result B) (l : list A) : Result (list B) :=
  match l with
  | [] => mret []
  | x :: t => y ← f x; rest ← mapArray f t; mret (y :: rest)
  end.

(** [items.join(sep)] *)
Definition joinArray `{Host} (sep : jsstring) (items : list JSValue)
    : Result jsstring :=
  parts ← mapArray (fun e => if nullish e then mret [] else ToString e) items;
  mret (joinWith sep parts).

(** ** [JSON.stringify] on data *)

Definition hexDigit (n : N) : N := (if n <? 10 then 48 + n else 87 + n)%N.

Definition unicodeEscape (c : N) : jsstring :=
  [92; 117; hexDigit (c / 4096); hexDigit ((c / 256) mod 16);
   hexDigit ((c / 16) mod 16); hexDigit (c mod 16)]%N.

Definition isHighSurrogate (c : N) : bool := inRange 55296 56319 c.
Definition isLowSurrogate (c : N) : bool := inRange 56320 57343 c.

Fixpoint quoteChars (s : jsstring) : jsstring :=
  match s with
  | [] => []
  | c :: t =>
      if N.eqb c 8 then str "\b" ++ quoteChars t
      else if N.eqb c 9 then str "\t" ++ quoteChars t
      else if N.eqb c 10 then str "\n" ++ quoteChars t
      else if N.eqb c 12 then str "\f" ++ quoteChars t
      else if N.eqb c 13 then str "\r" ++ quoteChars t
      else if N.eqb c 34 then [92; 34]%N ++ quoteChars t
      else if N.eqb c 92 then [92; 92]%N ++ quoteChars t
      else if N.ltb c 32 then unicodeEscape c ++ quoteChars t
      else if isHighSurrogate c then
        match t with
        | d :: t' =>
            if isLowSurrogate d then c :: d :: quoteChars t'
            else unicodeEscape c ++ quoteChars t
        | [] => unicodeEscape c
        end
      else if isLowSurrogate c then unicodeEscape c ++ quoteChars t
      else c :: quoteChars t
  end.

Definition quoteJSONString (s : jsstring) : jsstring :=
  [34%N] ++ quoteChars s ++ [34%N].

(** [JSON.stringify(v)]; [None] is [undefined].  A property whose value is
    [undefined] is left out of an object and printed as [null] in an array; a
    number that is not finite is printed as [null]. *)
Fixpoint JSON_stringify `{Host} (v : JSValue) : option jsstring :=
  match v with
  | JUndefined => None
  | JNull => Some (str "null")
  | JBool true => Some (str "true")
  | JBool false => Some (str "false")
  | JNum (Fin q) => Some (NumberToString q)
  | JNum _ => Some (str "null")
  | JStr s => Some (quoteJSONString s)
  | JArr items =>
      let parts :=
        (fix each (l : list JSValue) : list jsstring :=
           match l with
           | [] => []
           | e :: t => default (str "null") (JSON_stringify e) :: each t
           end) items in
      Some (str "[" ++ joinWith (str ",") parts ++ str "]")
  | JObj props =>
      let parts :=
        (fix each (l : list (jsstring * JSValue)) : list jsstring :=
           match l with
           | [] => []
           | (k, e) :: t =>
               match JSON_stringify e with
               | Some s => (quoteJSONString k ++ str ":" ++ s) :: each t
               | None => each t
               end
           end) props in
      Some (str "{" ++ joinWith (str ",") parts ++ str "}")
  end.

(** The response as [JSON.stringify] and [String] see it: a function-valued
    property is skipped by the former and [String] of an object does not look
    at [text]. *)
Definition responseData (r : Response) : JSValue :=
  match r with
  | RData v => v
  | RWithText _ props => JObj props
  end.

(** [o.k = v] on an object: the value of an own property is replaced where
    it stands, a new property comes last. *)
Fixpoint assignProp (k : jsstring) (v : JSValue)
    (props : list (jsstring * JSValue)) : list (jsstring * JSValue) :=
  match props with
  | [] => [(k, v)]
  | (k', v') :: rest =>
      if jsstring_eqb k' k then (k', v) :: rest
      else (k', v') :: assignProp k v rest
  end.

(** ** Browser built-ins of the share helpers *)

(** *** [btoa] and [atob]: base64 of RFC 4648 *)

Definition base64Char (i : N) : N :=
  (if i <? 26 then 65 + i
   else if i <? 52 then 71 + i
   else if i <? 62 then i - 4
   else if i =? 62 then 43
   else 47)%N.

Definition base64Index (c : N) : option N :=
  if inRange 65 90 c then Some (c - 65)%N
  else if inRange 97 122 c then Some (c - 71)%N
  else if inRange 48 57 c then Some (c + 4)%N
  else if N.eqb c 43 then Some 62%N
  else if N.eqb c 47 then Some 63%N
  else None.

(** Three bytes give four characters; one or two bytes left over give two or
    three characters and the padding [=]. *)
Fixpoint base64Encode (s : list N) : jsstring :=
  match s with
  | a :: b :: c :: t =>
      base64Char (a / 4) :: base64Char ((a mod 4) * 16 + b / 16)
      :: base64Char ((b mod 16) * 4 + c / 64) :: base64Char (c mod 64)
      :: base64Encode t
  | [a; b] =>
      [base64Char (a / 4); base64Char ((a mod 4) * 16 + b / 16);
       base64Char ((b mod 16) * 4); 61]
  | [a] => [base64Char (a / 4); base64Char ((a mod 4) * 16); 61; 61]
  | [] => []
  end%N.

Definition isLatin1 (s : jsstring) : bool := forallb (λ c, N.leb c 255) s.

(** [btoa(s)]; [None] is its [InvalidCharacterError], thrown when a code unit
    is above 255. *)
Definition btoa (s : jsstring) : option jsstring :=
  if isLatin1 s then Some (base64Encode s) else None.

Definition isAsciiWhitespace (c : N) : bool :=
  (N.eqb c 9 || N.eqb c 10 || N.eqb c 12 || N.eqb c 13 || N.eqb c 32)%bool.

(** When the length is a multiple of four, one or two [=] at the end are
    removed. *)
Definition removePadding (s : jsstring) : jsstring :=
  if Nat.eqb (length s mod 4) 0 then
    match rev s with
    | c1 :: c2 :: r =>
        if N.eqb c1 61
        then (if N.eqb c2 61 then rev r else rev (c2 :: r))
        else s
    | _ => s
    end
  else s.

(** Four 6-bit values give three bytes; of two or three values left over, the
    bits that do not fill a byte are dropped. *)
Fixpoint base64Decode (v : list N) : list N :=
  match v with
  | a :: b :: c :: d :: t =>
      (a * 4 + b / 16) :: ((b mod 16) * 16 + c / 4) :: ((c mod 4) * 64 + d)
      :: base64Decode t
  | [a; b; c] => [a * 4 + b / 16; (b mod 16) * 16 + c / 4]
  | [a; b] => [a * 4 + b / 16]
  | _ => []
  end%N.

(** [atob(s)], the forgiving base64 decoding of the HTML standard; [None] is
    its [InvalidCharacterError]. *)
Definition atob (s : jsstring) : option jsstring :=
  let data :=
    removePadding (List.filter (λ c, negb (isAsciiWhitespace c)) s) in
  if Nat.eqb (length data mod 4) 1 then None
  else base64Decode <$> mapM base64Index data.

(** *** [encodeURIComponent] and [decodeURIComponent] *)

Definition isAlnum (c : N) : bool :=
  (inRange 48 57 c || inRange 65 90 c || inRange 97 122 c)%bool.

(** The characters [encodeURIComponent] leaves as they are: letters, digits
    and [- _ . ! ~ * ' ( )]. *)
Definition uriUnescaped (c : N) : bool :=
  (isAlnum c
   || existsb (N.eqb c) [45; 95; 46; 33; 126; 42; 39; 40; 41]%N)%bool.

Definition hexUpper (n : N) : N := (if n <? 10 then 48 + n else 55 + n)%N.

Definition percentByte (b : N) : jsstring :=
  [37; hexUpper (b / 16); hexUpper (b mod 16)]%N.

Definition utf8 (cp : N) : list N :=
  (if cp <? 128 then [cp]
   else if cp <? 2048 then [192 + cp / 64; 128 + cp mod 64]
   else if cp <? 65536
        then [224 + cp / 4096; 128 + (cp / 64) mod 64; 128 + cp mod 64]
   else [240 + cp / 262144; 128 + (cp / 4096) mod 64;
         128 + (cp / 64) mod 64; 128 + cp mod 64])%N.

Definition percentEncode (cp : N) : jsstring :=
  concat (map percentByte (utf8 cp)).

(** [encodeURIComponent(s)]; [None] is its [URIError], thrown on a surrogate
    that is not part of a pair. *)
Fixpoint encodeURIComponent (s : jsstring) : option jsstring :=
  match s with
  | [] => Some []
  | c :: t =>
      if uriUnescaped c then cons c <$> encodeURIComponent t
      else if isLowSurrogate c then None
      else if isHighSurrogate c then
        match t with
        | d :: t' =>
            if isLowSurrogate d
            then app (percentEncode
                        (65536 + (c - 55296) * 1024 + (d - 56320))%N)
                   <$> encodeURIComponent t'
            else None
        | [] => None
        end
      else app (percentEncode c) <$> encodeURIComponent t
  end.

Definition hexValue (c : N) : option N :=
  if inRange 48 57 c then Some (c - 48)%N
  else if inRange 65 70 c then Some (c - 55)%N
  else if inRange 97 102 c then Some (c - 87)%N
  else None.

Definition utf16 (cp : N) : jsstring :=
  (if cp <? 65536 then [cp]
   else [55296 + (cp - 65536) / 1024; 56320 + (cp - 65536) mod 1024])%N.

(** The scan of [decodeURIComponent].  [need] is the number of continuation
    bytes still to come for the code point whose bits so far are [acc];
    [least] is the smallest code point a sequence of that length may
    encode. *)
Fixpoint decodeFrom (need : nat) (acc least : N) (s : jsstring) {struct s}
    : option jsstring :=
  match need, s with
  | O, [] => Some []
  | O, c :: t =>
      if N.eqb c 37 then
        match t with
        | h :: l :: t' =>
            match hexValue h, hexValue l with
            | Some x, Some y =>
                let b := (16 * x + y)%N in
                if (b <? 128)%N then cons b <$> decodeFrom 0 0 0 t'
                else if (b <? 192)%N then None
                else if (b <? 224)%N then decodeFrom 1 (b - 192) 128 t'
                else if (b <? 240)%N then decodeFrom 2 (b - 224) 2048 t'
                else if (b <? 248)%N then decodeFrom 3 (b - 240) 65536 t'
                else None
            | _, _ => None
            end
        | _ => None
        end
      else cons c <$> decodeFrom 0 0 0 t
  | S n, p :: h :: l :: t' =>
      if N.eqb p 37 then
        match hexValue h, hexValue l with
        | Some x, Some y =>
            let b := (16 * x + y)%N in
            if inRange 128 191 b then
              let acc' := (acc * 64 + (b - 128))%N in
              match n with
              | O =>
                  if ((least <=? acc')%N
                      && negb (inRange 55296 57343 acc')
                      && (acc' <=? 1114111)%N)%bool
                  then app (utf16 acc') <$> decodeFrom 0 0 0 t'
                  else None
              | S _ => decodeFrom n acc' least t'
              end
            else None
        | _, _ => None
        end
      else None
  | S _, _ => None
  end.

(** [decodeURIComponent(s)]; [None] is its [URIError], thrown on a [%] that
    is not followed by two hexadecimal digits and on bytes that are not the
    UTF-8 encoding of a code point. *)
Definition decodeURIComponent (s : jsstring) : option jsstring :=
  decodeFrom 0 0 0 s.

(** ** [src/decisionSherlock.ts.tsx] *)

Module DecisionSherlock.

Record ParsedCriteriaAnalysis : Type := {
  criteriaId : JSValue;
  score : JSNum;
  reasoning : jsstring;
  confidence : option JSNum;
}.

Record ParsedOptionAnalysis : Type := {
  optionId : jsstring;
  criteriaAnalysis : list ParsedCriteriaAnalysis;
  pros : list jsstring;
  cons : list jsstring;
}.

(** The fields copied from the parsed object are not converted: they hold
    whatever value the model wrote. *)
Record SherlockResult : Type := {
  analysis : list ParsedOptionAnalysis;
  verdict : JSValue;
  winnerId : JSValue;
  recommendation : JSValue;
  summary : JSValue;
  topRisks : JSValue;
  nextSteps : JSValue;
}.

Definition NoJsonFound : Exn :=
  Error "Model did not return extractable JSON. See console for raw output.".
Definition InvalidJson : Exn :=
  Error "AI returned invalid JSON. See console.".
Definition ExtractFailed : Exn := Error "Failed to extract model text.".
Definition MissingApiKey : Exn :=
  Error "Missing API key. Set process.env.API_KEY on server or window.__API_KEY__ for local dev.".

Definition marker : jsstring := str "###RESULT_JSON###".

Section WithHost.
Context `{Host}.

Definition safeParseJSON (text : jsstring) : Result JSValue :=
  match JSON_parse text with
  | Some v => mret v
  | None =>
      let cleaned := cleanTrailingCommas text in
      match JSON_parse cleaned with
      | Some v => mret v
      | None =>
          match matchBraceBlock cleaned with
          | Some m1 =>
              match JSON_parse m1 with
              | Some v => mret v
              | None =>
                  throw (Error "Safe parse failed: JSON invalid after cleaning.")
              end
          | None => throw (Error "Safe parse failed: Not valid JSON.")
          end
      end
  end.

Definition clampScore (n : JSValue) : Result JSNum :=
  v ← ToNumber (or_else n (JNum (Fin 0)));
  mret (if isNaN v then Fin 0
        else if num_lt v (Fin 0) then Fin 0
        else if num_lt (Fin 100) v then Fin 100
        else Math_round v).

(** [o => o?.text ?? JSON.stringify(o)] *)
Definition outputText (o : JSValue) : Result JSValue :=
  t ← (if nullish o then mret JUndefined else getProp o "text");
  mret (t ?? from_option JStr JUndefined (JSON_stringify o)).

(** Lines 321-338: the text of the response, whatever value it is; any
    exception becomes [ExtractFailed]. *)
Definition extractInline (response : Response) : Result JSValue :=
  try_catch
    (match response with
     | RWithText call props =>
         if truthy (default JUndefined (lookupProp (str "value") props))
         then mret (from_option JStr JUndefined
                (JSON_stringify
                   (default JUndefined (lookupProp (str "value") props))))
         else call
     | RData v =>
         value ← getProp v "value";
         if truthy value
         then mret (from_option JStr JUndefined (JSON_stringify value))
         else
           text ← getProp v "text";
           if isString text then mret text
           else
             outputs ← getProp v "outputs";
             match outputs with
             | JArr outs =>
                 texts ← mapArray outputText outs;
                 joined ← joinArray [10%N] texts;
                 mret (JStr joined)
             | _ => mret (from_option JStr JUndefined (JSON_stringify v))
             end
     end)
    (fun _ => throw ExtractFailed).

(** [rawText.slice], [rawText.indexOf] and [rawText.match] are then
    called on the result: what is not a string ends in a [TypeError]. *)
Definition requireString (v : JSValue) : Result jsstring :=
  match v with
  | JStr s => mret s
  | _ => throw TypeError
  end.

(** Lines 343-356. *)
Definition findJsonCandidate (rawText : jsstring) : option jsstring :=
  match indexOf marker rawText with
  | Some markerIndex =>
      let jsonCandidate :=
        trim (substring (markerIndex + length marker) rawText) in
      Some (trim (stripTrailingFence (stripLeadingFence
              (stripJsonFence jsonCandidate))))
  | None => matchBraceBlock rawText
  end.

(** Lines 358-361: [!jsonCandidate] holds of [null] and of the empty
    string. *)
Definition requireCandidate (c : option jsstring) : Result jsstring :=
  match c with
  | None | Some [] => throw NoJsonFound
  | Some text => mret text
  end.

(** Lines 364-370. *)
Definition parseCandidate (jsonCandidate : jsstring) : Result JSValue :=
  try_catch (safeParseJSON jsonCandidate) (fun _ => throw InvalidJson).

Definition ensureAnalysisArray (candidate : JSValue)
    : Result (list JSValue) :=
  if negb (truthy candidate) then mret []
  else match candidate with
       | JArr items => mret items
       | _ =>
           a ← getProp candidate "analysis";
           match a with
           | JArr items => mret items
           | _ =>
               oid ← getProp candidate "optionId";
               ca ← getProp candidate "criteriaAnalysis";
               if (truthy oid && truthy ca)%bool then mret [candidate]
               else mret []
           end
       end.

(** Lines 408-413, the callback of [caArray.map]. *)
Definition normalizeCriterion (ca : JSValue)
    : Result ParsedCriteriaAnalysis :=
  id1 ← getProp ca "criteriaId";
  id2 ← getProp ca "criteria_id";
  id3 ← getProp ca "criterionId";
  id4 ← getProp ca "id";
  s1 ← getProp ca "score";
  s2 ← getProp ca "sc";
  s3 ← getProp ca "value";
  sc ← clampScore (s1 ?? s2 ?? s3 ?? ca);
  r1 ← getProp ca "reasoning";
  r2 ← getProp ca "reason";
  r3 ← getProp ca "notes";
  rs ← ToString (r1 ?? r2 ?? r3 ?? JStr []);
  cf ← getProp ca "confidence";
  conf ← match cf with
         | JUndefined => mret None
         | _ => c ← clampScore cf; mret (Some c)
         end;
  mret {| criteriaId := id1 ?? id2 ?? id3 ?? id4 ?? JStr [];
          score := sc; reasoning := rs; confidence := conf |}.

(** [Array.isArray(a.k) ? a.k.map(String) : Array.isArray(a.alt) ?
    a.alt.map(String) : []] *)
Definition stringList (a : JSValue) (k alt : string)
    : Result (list jsstring) :=
  v ← getProp a k;
  match v with
  | JArr items => mapArray ToString items
  | _ =>
      v' ← getProp a alt;
      match v' with
      | JArr items => mapArray ToString items
      | _ => mret []
      end
  end.

(** Lines 399-424, the callback of [rawAnalysis.map]. *)
Definition normalizeOption (a : JSValue) : Result ParsedOptionAnalysis :=
  o1 ← getProp a "optionId";
  o2 ← getProp a "option_id";
  o3 ← getProp a "opt_id";
  o4 ← getProp a "id";
  let optId := o1 ?? o2 ?? o3 ?? o4 ?? JStr (str "unknown") in
  c1 ← getProp a "criteriaAnalysis";
  c2 ← getProp a "criteria_analysis";
  c3 ← getProp a "criteria";
  let rawCA := c1 ?? c2 ?? c3 ?? JArr [] in
  let caArray := match rawCA with JArr items => items | _ => [] end in
  normalizedCA ← mapArray normalizeCriterion caArray;
  ps ← stringList a "pros" "positives";
  cs ← stringList a "cons" "negatives";
  oid ← ToString optId;
  mret {| optionId := oid; criteriaAnalysis := normalizedCA;
          pros := ps; cons := cs |}.

(** Lines 430-437: the second pass over the scores. *)
Definition renormalizeCriterion (ca : ParsedCriteriaAnalysis)
    : Result ParsedCriteriaAnalysis :=
  sc ← clampScore (JNum (score ca));
  conf ← match confidence ca with
         | None => mret None
         | Some c => c' ← clampScore (JNum c); mret (Some c')
         end;
  mret {| criteriaId := criteriaId ca ?? JStr [];
          score := sc; reasoning := reasoning ca; confidence := conf |}.

Definition renormalizeOption (opt : ParsedOptionAnalysis)
    : Result ParsedOptionAnalysis :=
  cas ← mapArray renormalizeCriterion (criteriaAnalysis opt);
  mret {| optionId := optionId opt; criteriaAnalysis := cas;
          pros := pros opt; cons := cons opt |}.

(** Lines 385-437: the result normaliser.  The guard of line 427 has
    nothing to do, [map] having returned an array. *)
Definition normalize (parsedRaw : JSValue) : Result SherlockResult :=
  a ← getProp parsedRaw "analysis";
  rawAnalysis ← ensureAnalysisArray (a ?? a ?? parsedRaw);
  v1 ← getProp parsedRaw "verdict";
  v2 ← getProp parsedRaw "summary";
  v3 ← getProp parsedRaw "verdict_text";
  w1 ← getProp parsedRaw "winnerId";
  w2 ← getProp parsedRaw "winner_id";
  w3 ← getProp parsedRaw "winner";
  r1 ← getProp parsedRaw "recommendation";
  r2 ← getProp parsedRaw "advice";
  t1 ← getProp parsedRaw "topRisks";
  t2 ← getProp parsedRaw "risks";
  n1 ← getProp parsedRaw "nextSteps";
  n2 ← getProp parsedRaw "actions";
  opts ← mapArray normalizeOption rawAnalysis;
  opts' ← mapArray renormalizeOption opts;
  mret {| analysis := opts';
          verdict := v1 ?? v2 ?? v3 ?? JStr [];
          winnerId := w1 ?? w2 ?? w3 ?? JStr [];
          recommendation := r1 ?? r2 ?? JStr [];
          summary := v2 ?? JUndefined;
          topRisks := t1 ?? t2 ?? JUndefined;
          nextSteps := n1 ?? n2 ?? JUndefined |}.

End WithHost.

(** Line 446: the mean of the scores of an option, [0] without scores. *)
Definition average (opt : ParsedOptionAnalysis) : JSNum :=
  match criteriaAnalysis opt with
  | [] => Fin 0
  | cas =>
      num_div (fold_left (fun s c => num_add s (score c)) cas (Fin 0))
              (num_of_nat (length cas))
  end.

Record Candidate : Type := { cand_optionId : jsstring; avg : JSNum }.

(** [(a, b) => b.avg - a.avg] *)
Definition byAvgDesc (a b : Candidate) : JSNum := num_sub (avg b) (avg a).

(** [Array.prototype.sort] is stable; with a comparator that orders the
    elements consistently every stable sort returns the same array, here
    built by insertion from the right.  [x] moves behind [y] only when the
    comparator is positive. *)
Fixpoint insertSorted {A} (cmp : A → A → JSNum) (x : A) (l : list A)
    : list A :=
  match l with
  | [] => [x]
  | y :: t =>
      if num_lt (Fin 0) (cmp x y) then y :: insertSorted cmp x t
      else x :: l
  end.

Definition sort {A} (cmp : A → A → JSNum) (l : list A) : list A :=
  fold_right (insertSorted cmp) [] l.

Definition setWinner (final : SherlockResult) (w : JSValue)
    : SherlockResult :=
  {| analysis := analysis final; verdict := verdict final; winnerId := w;
     recommendation := recommendation final; summary := summary final;
     topRisks := topRisks final; nextSteps := nextSteps final |}.

(** Lines 442-451: winner inference. *)
Definition inferWinner (final : SherlockResult) : SherlockResult :=
  if (negb (truthy (winnerId final))
      && Nat.ltb 1 (length (analysis final)))%bool
  then
    match sort byAvgDesc
            (map (fun opt => {| cand_optionId := optionId opt;
                                avg := average opt |})
                 (analysis final)) with
    | candidate :: _ => setWinner final (JStr (cand_optionId candidate))
    | [] => final
    end
  else final.

(** Lines 321-454: everything after the model call. *)
Definition processResponse `{Host} (response : Response)
    : Result SherlockResult :=
  raw ← extractInline response;
  rawText ← requireString raw;
  jsonCandidate ← requireCandidate (findJsonCandidate rawText);
  parsedRaw ← parseCandidate jsonCandidate;
  final ← normalize parsedRaw;
  mret (inferWinner final).

(** Lines 343-454 on an extracted text. *)
Definition processText `{Host} (rawText : jsstring)
    : Result SherlockResult :=
  jsonCandidate ← requireCandidate (findJsonCandidate rawText);
  parsedRaw ← parseCandidate jsonCandidate;
  final ← normalize parsedRaw;
  mret (inferWinner final).

(** *** The call itself: credentials, prompt, model *)

Record Attachment : Type := {
  att_name : JSValue;
  att_mimeType : JSValue;
  att_data : JSValue;
}.

Record OptionItem : Type := {
  opt_id : JSValue;
  opt_attachments : option (list Attachment);
}.

Record DecisionState : Type := {
  title : JSValue;
  description : JSValue;
  criteria : list JSValue;
  options : list OptionItem;
}.

(** The texts sent to the model, by what builds them. *)
Inductive PromptText : Type :=
| SystemPrompt
| UserPrompt (data : DecisionState)
| AttachmentNote (optId name : JSValue)
| FinalInstruction.

Inductive Part : Type :=
| PText (t : PromptText)
| PInlineData (mimeType data name : JSValue).

Record Content : Type := { role : string; parts : list Part }.

Inductive Event : Type :=
| EvCreateSystemPrompt
| EvBuildUserPrompt
| EvGenerateContent (apiKey : JSValue) (contents : list Content).

(** What the call can see and change outside its arguments:
    [process.env], [globalThis.__API_KEY__], and the calls made so far
    (latest last). *)
Record World : Type := {
  env : gmap string JSValue;
  global_API_KEY : JSValue;
  trace : list Event;
}.

Definition log (e : Event) (w : World) : World :=
  {| env := env w; global_API_KEY := global_API_KEY w;
     trace := trace w ++ [e] |}.

Definition envVar (w : World) (k : string) : JSValue :=
  default JUndefined (env w !! k).

(** Lines 245-253. *)
Definition resolveApiKey (w : World) : Result World :=
  if negb (truthy (envVar w "API_KEY")) then
    let fallback := global_API_KEY w in
    if negb (truthy fallback) then throw MissingApiKey
    else mret {| env := <["API_KEY" := fallback]> (env w);
                 global_API_KEY := global_API_KEY w; trace := trace w |}
  else mret w.

Definition attachmentContents (opt : OptionItem) : list Content :=
  match opt_attachments opt with
  | Some atts =>
      map (fun att =>
             {| role := "user";
                parts :=
                  [PInlineData (att_mimeType att) (att_data att)
                     (or_else (att_name att) (JStr (str "attachment")));
                   PText (AttachmentNote (opt_id opt)
                     (or_else (att_name att) (JStr (str "attachment"))))] |})
          atts
  | None => []
  end.

(** Lines 262-298. *)
Definition buildContents (data : DecisionState) : list Content :=
  [ {| role := "system"; parts := [PText SystemPrompt] |};
    {| role := "user"; parts := [PText (UserPrompt data)] |} ]
  ++ concat (map attachmentContents (options data))
  ++ [ {| role := "user"; parts := [PText FinalInstruction] |} ].

(** The external model invoker: [ai.models.generateContent] of a client
    made with the given key. *)
Class ModelInvoker : Type :=
  generateContent : JSValue → list Content → Exn + Response.

Definition analyzeDecision `{Host} `{ModelInvoker}
    (data : DecisionState) (w : World) : World * Result SherlockResult :=
  match resolveApiKey w with
  | inl e => (w, inl e)
  | inr w1 =>
      let apiKey := envVar w1 "API_KEY" in
      let w2 := log EvBuildUserPrompt (log EvCreateSystemPrompt w1) in
      let contents := buildContents data in
      let w3 := log (EvGenerateContent apiKey contents) w2 in
      match generateContent apiKey contents with
      | inl err => (w3, inl err)
      | inr response => (w3, processResponse response)
      end
  end.

(** *** Local save and share helpers (lines 180-228 and 509-518) *)

Definition STORAGE_KEY : string := "decision-sherlock-saved-cases".

(** [localStorage]: its items, and whether [setItem] has room for a value
    under a key (it throws a [QuotaExceededError] when it has not). *)
Record Storage : Type := {
  items : gmap string jsstring;
  hasRoom : string → jsstring → bool;
}.

(** What [saveCase] rethrows: the [SyntaxError] of [JSON.parse], a
    [TypeError], the [QuotaExceededError] of [setItem]. *)
Inductive SaveExn : Type :=
| SyntaxError
| SaveTypeError
| QuotaExceededError.

(** The readings of the clock that [saveCase] takes, in their order:
    [Date.now()], then [new Date().toISOString()] for the default name and
    for [createdAt]. *)
Record Clock : Type := {
  dateNow : Z;
  isoForName : jsstring;
  isoForCreatedAt : jsstring;
}.

(** [window.location]: [shareParam] is what
    [new URLSearchParams(window.location.search).get("share")] returns. *)
Record Location : Type := {
  origin : jsstring;
  pathname : jsstring;
  shareParam : option jsstring;
}.

(** What [encodeStateToUrl] lets through: the [InvalidCharacterError] of
    [btoa] and the [URIError] of [encodeURIComponent]. *)
Inductive ShareExn : Type :=
| InvalidCharacterError
| URIError.

(** [navigator.clipboard.writeText]: whether writing a text succeeds. *)
Class Clipboard : Type := writeText : jsstring → bool.

Section Helpers.
Context `{Host}.

(** [localStorage.getItem(STORAGE_KEY) || "[]"] *)
Definition savedText (st : Storage) : jsstring :=
  match items st !! STORAGE_KEY with
  | Some (c :: s) => c :: s
  | _ => str "[]"
  end.

(** [caseName || state.title || `Case ${new Date().toISOString()}`] *)
Definition caseNameOf (clock : Clock) (caseName : jsstring)
    (state : JSValue) : Result JSValue :=
  match caseName with
  | _ :: _ => mret (JStr caseName)
  | [] =>
      t ← getProp state "title";
      mret (or_else t (JStr (str "Case " ++ isoForName clock)))
  end.

Definition caseEntry (clock : Clock) (name state : JSValue) : JSValue :=
  JObj [(str "id",
         JStr (str "case_" ++ NumberToString (inject_Z (dateNow clock))));
        (str "name", name);
        (str "state", state);
        (str "createdAt", JStr (isoForCreatedAt clock))].

(** Lines 183-199.  The first component is the storage after the call. *)
Definition saveCase (clock : Clock) (caseName : jsstring) (state : JSValue)
    (st : Storage) : Storage * (SaveExn + JSValue) :=
  match JSON_parse (savedText st) with
  | None => (st, inl SyntaxError)
  | Some saved =>
      match caseNameOf clock caseName state with
      | inl _ => (st, inl SaveTypeError)
      | inr name =>
          let entry := caseEntry clock name state in
          match saved with
          | JArr cases =>
              let text :=
                default (str "undefined")
                  (JSON_stringify (JArr (entry :: cases))) in
              if hasRoom st STORAGE_KEY text
              then ({| items := <[STORAGE_KEY := text]> (items st);
                       hasRoom := hasRoom st |}, inr entry)
              else (st, inl QuotaExceededError)
          | _ => (st, inl SaveTypeError)
          end
      end
  end.

(** Lines 202-208. *)
Definition loadSavedCases (st : Storage) : JSValue :=
  default (JArr []) (JSON_parse (savedText st)).

(** Lines 211-215. *)
Definition encodeStateToUrl (loc : Location) (state : JSValue)
    : ShareExn + jsstring :=
  match btoa (default (str "undefined") (JSON_stringify state)) with
  | None => inl InvalidCharacterError
  | Some b64 =>
      match encodeURIComponent b64 with
      | None => inl URIError
      | Some payload =>
          inr (origin loc ++ pathname loc ++ str "?share=" ++ payload)
      end
  end.

(** Lines 218-228; [null] is [JNull]. *)
Definition decodeStateFromUrl (loc : Location) (token : option jsstring)
    : JSValue :=
  let raw :=
    match token with
    | Some t => t
    | None => default [] (shareParam loc)
    end in
  match raw with
  | [] => JNull
  | _ =>
      match decodeURIComponent raw with
      | Some b64 =>
          match atob b64 with
          | Some json => default JNull (JSON_parse json)
          | None => JNull
          end
      | None => JNull
      end
  end.

(** Lines 509-518.  The first component is the text on the clipboard after
    the call. *)
Definition copyShareUrlToClipboard `{Clipboard} (loc : Location)
    (state : JSValue) (clipboard : option jsstring)
    : option jsstring * (ShareExn + jsstring) :=
  match encodeStateToUrl loc state with
  | inl e => (clipboard, inl e)
  | inr url => (if writeText url then Some url else clipboard, inr url)
  end.

End Helpers.

End DecisionSherlock.

(** ** [src/services/geminiService.ts] *)

Module GeminiService.

Definition MarkerMissing : Exn :=
  Error "Model did NOT output ###RESULT_JSON###. Fix prompt or inspect raw output (see console).".
Definition InvalidJson : Exn :=
  Error "AI returned invalid JSON. See console logs for raw output and cleaned JSON.".

Definition marker : jsstring := str "###RESULT_JSON###".

Section WithHost.
Context `{Host}.

(** [typeof v === "string" && v.length] *)
Definition nonEmptyString (v : JSValue) : option jsstring :=
  match v with
  | JStr (c :: s) => Some (c :: s)
  | _ => None
  end.

(** Lines 57-69: the entries of [out.content], up to the first [return]. *)
Fixpoint scanContent (content : list JSValue)
    : Result (option jsstring) :=
  match content with
  | [] => mret None
  | c :: rest =>
      if negb (truthy c) then scanContent rest
      else
        t ← getProp c "text";
        match nonEmptyString t with
        | Some s => mret (Some s)
        | None =>
            mime ← getProp c "mimeType";
            json ← getProp c "json";
            match
              (if (strictEqString mime "application/json"
                   && truthy json)%bool
               then JSON_stringify json else None)
            with
            | Some s => mret (Some s)
            | None =>
                match nonEmptyString c with
                | Some s => mret (Some s)
                | None => scanContent rest
                end
            end
        end
  end.

(** Lines 51-71: the entries of [response.outputs]. *)
Fixpoint scanOutputs (outputs : list JSValue)
    : Result (option jsstring) :=
  match outputs with
  | [] => mret None
  | out :: rest =>
      if negb (truthy out) then scanOutputs rest
      else
        t ← getProp out "text";
        match nonEmptyString t with
        | Some s => mret (Some s)
        | None =>
            content ← getProp out "content";
            found ← match content with
                    | JArr cs => scanContent cs
                    | _ => mret None
                    end;
            match found with
            | Some s => mret (Some s)
            | None => scanOutputs rest
            end
        end
  end.

(** Strategy 1, lines 28-36: the callable [text], its exception
    swallowed. *)
Definition viaTextCall (response : Response) : option jsstring :=
  match response with
  | RWithText (inr t) _ => nonEmptyString t
  | RWithText (inl _) _ => None
  | RData _ => None
  end.

(** [response && response.k] for a property of data. *)
Definition dataProp (response : Response) (k : string) : JSValue :=
  match response with
  | RData v =>
      if truthy v then
        match getProp v k with inr x => x | inl _ => JUndefined end
      else JUndefined
  | RWithText _ props => default JUndefined (lookupProp (str k) props)
  end.

(** Strategy 2, lines 39-41. *)
Definition viaTextField (response : Response) : option jsstring :=
  match response with
  | RData _ => nonEmptyString (dataProp response "text")
  | RWithText _ _ => None
  end.

(** Strategy 3, lines 44-46. *)
Definition viaOutputText (response : Response) : option jsstring :=
  nonEmptyString (dataProp response "outputText").

(** Strategy 4, lines 49-75; an exception inside the scan is swallowed. *)
Definition viaOutputs (response : Response) : option jsstring :=
  match dataProp response "outputs" with
  | JArr outs =>
      match scanOutputs outs with
      | inr found => found
      | inl _ => None
      end
  | _ => None
  end.

(** Strategy 5, lines 78-83. *)
Definition viaStringify (response : Response) : option jsstring :=
  match JSON_stringify (responseData response) with
  | Some (c :: s) => Some (c :: s)
  | _ => None
  end.

Definition extractRawText (response : Response) : Result jsstring :=
  match viaTextCall response with
  | Some t => mret t
  | None =>
  match viaTextField response with
  | Some t => mret t
  | None =>
  match viaOutputText response with
  | Some t => mret t
  | None =>
  match viaOutputs response with
  | Some t => mret t
  | None =>
  match viaStringify response with
  | Some s => mret s
  | None => ToString (responseData response ?? JStr [])
  end end end end end.

(** Lines 219-244: the JSON text of the model output. *)
Definition cleanedJson (rawText : jsstring) : Result jsstring :=
  match indexOf marker rawText with
  | None =>
      match matchBraceBlock rawText with
      | None => throw MarkerMissing
      | Some block =>
          mret (trim (stripTrailingFence (stripLeadingFence
                  (stripJsonFence block))))
      end
  | Some pos =>
      let jsonText := trim (substring (pos + length marker) rawText) in
      mret (trim (stripTrailingFence (stripLeadingFence
              (stripJsonFence jsonText))))
  end.

(** Lines 219-254: from the extracted text to the parsed value. *)
Definition parseModelText (rawText : jsstring) : Result JSValue :=
  cleaned ← cleanedJson rawText;
  match JSON_parse cleaned with
  | Some parsed => mret parsed
  | None => throw InvalidJson
  end.

End WithHost.

(** *** The call itself (lines 91-264) *)

Definition MissingApiKey : Exn :=
  Error "API Key missing. Set process.env.API_KEY.".

(** The texts sent to the model, by what builds them. *)
Inductive PromptText : Type :=
| SystemPrompt
| UserText (data : DecisionSherlock.DecisionState)
| AttachmentNote (optId name : JSValue)
| FinalInstruction.

Inductive Part : Type :=
| PText (t : PromptText)
| PInlineData (mimeType data : JSValue).

Record Content : Type := { role : string; parts : list Part }.

(** [process.env], [globalThis.__API_KEY__] and the calls made to the model
    so far (latest last), each with the key of its client. *)
Record World : Type := {
  env : gmap string JSValue;
  global_API_KEY : JSValue;
  calls : list (JSValue * list Content);
}.

Definition envVar (w : World) (k : string) : JSValue :=
  default JUndefined (env w !! k).

(** Lines 165-182. *)
Definition attachmentContents (opt : DecisionSherlock.OptionItem)
    : list Content :=
  match DecisionSherlock.opt_attachments opt with
  | Some atts =>
      map (fun att =>
             {| role := "user";
                parts :=
                  [PInlineData (DecisionSherlock.att_mimeType att)
                     (DecisionSherlock.att_data att);
                   PText (AttachmentNote (DecisionSherlock.opt_id opt)
                            (DecisionSherlock.att_name att))] |})
          atts
  | None => []
  end.

(** Lines 119-195. *)
Definition buildContents (data : DecisionSherlock.DecisionState)
    : list Content :=
  [ {| role := "system"; parts := [PText SystemPrompt] |};
    {| role := "user"; parts := [PText (UserText data)] |} ]
  ++ concat (map attachmentContents (DecisionSherlock.options data))
  ++ [ {| role := "user"; parts := [PText FinalInstruction] |} ].

(** [ai.models.generateContent] of a client made with the given key. *)
Class ModelInvoker : Type :=
  generateContent : JSValue → list Content → Exn + Response.

(** What the call returns: the parsed value, which the guard of lines
    257-260 may have given a property [analysis]; on an array that property
    stands beside the elements. *)
Inductive Returned : Type :=
| Parsed (v : JSValue)
| ArrayWithAnalysis (items : list JSValue).

(** Lines 257-260.  Reading a property of [null] throws, and so does, in the
    strict code of a module, the assignment to a property of a number, a
    string or a boolean. *)
Definition ensureAnalysis (parsed : JSValue) : Result Returned :=
  match parsed with
  | JUndefined | JNull => throw TypeError
  | JObj props =>
      match lookupProp (str "analysis") props with
      | Some (JArr _) => mret (Parsed parsed)
      | _ => mret (Parsed (JObj (assignProp (str "analysis") (JArr []) props)))
      end
  | JArr items => mret (ArrayWithAnalysis items)
  | JBool _ | JNum _ | JStr _ => throw TypeError
  end.

(** Lines 213-263: everything after the model call. *)
Definition processResponse `{Host} (response : Response) : Result Returned :=
  rawText ← extractRawText response;
  parsed ← parseModelText rawText;
  ensureAnalysis parsed.

Definition analyzeDecision `{Host} `{ModelInvoker}
    (data : DecisionSherlock.DecisionState) (w : World)
    : World * Result Returned :=
  if negb (truthy (envVar w "API_KEY")) then (w, throw MissingApiKey)
  else
    let apiKey := envVar w "API_KEY" in
    let contents := buildContents data in
    let w' := {| env := env w; global_API_KEY := global_API_KEY w;
                 calls := calls w ++ [(apiKey, contents)] |} in
    match generateContent apiKey contents with
    | inl err => (w', inl err)
    | inr response => (w', processResponse response)
    end.

End GeminiService.

(** ** [src/unnamed/part_001]: the application *)

Module App.

(** The types of lines 410-458, for the values the application builds. *)
Record DecisionCriteria : Type := {
  c_id : jsstring;
  c_name : jsstring;
  c_weight : JSNum;
  c_description : option jsstring;
}.

Record Attachment : Type := {
  a_id : jsstring;
  a_name : jsstring;
  a_mimeType : jsstring;
  a_data : option jsstring;
}.

Record DecisionOption : Type := {
  o_id : jsstring;
  o_name : jsstring;
  o_description : jsstring;
  o_attachments : list Attachment;
}.

Record DecisionState : Type := {
  title : jsstring;
  description : jsstring;
  criteria : list DecisionCriteria;
  options : list DecisionOption;
  result : option GeminiService.Returned;
}.

(** Lines 39-52. *)
Definition INITIAL_STATE : DecisionState :=
  {| title := []; description := [];
     criteria :=
       [{| c_id := str "c1"; c_name := str "Cost / Salary";
           c_weight := Fin 8; c_description := None |};
        {| c_id := str "c2"; c_name := str "Long-term Benefit";
           c_weight := Fin 7; c_description := None |};
        {| c_id := str "c3"; c_name := str "Enjoyment";
           c_weight := Fin 9; c_description := None |}];
     options :=
       [{| o_id := str "o1"; o_name := str "Option A";
           o_description := []; o_attachments := [] |};
        {| o_id := str "o2"; o_name := str "Option B";
           o_description := []; o_attachments := [] |}];
     result := None |}.

(** Lines 55-59 (the icon of a template is a component). *)
Record Template : Type := {
  t_label : jsstring;
  t_title : jsstring;
  t_criteria : list jsstring;
}.

Definition TEMPLATES : list Template :=
  [{| t_label := str "Job Offer"; t_title := str "Job Offer A vs Job Offer B";
      t_criteria := [str "Salary"; str "Culture"; str "Growth";
                     str "Commute"] |};
   {| t_label := str "Apartment"; t_title := str "Apartment Hunting";
      t_criteria := [str "Rent"; str "Location"; str "Size";
                     str "Amenities"] |};
   {| t_label := str "Contract"; t_title := str "Vendor Selection";
      t_criteria := [str "Price"; str "Reliability"; str "Terms";
                     str "Support"] |}].

(** [Partial<...>]: the properties an update carries. *)
Record StateUpdates : Type := {
  u_title : option jsstring;
  u_description : option jsstring;
  u_criteria : option (list DecisionCriteria);
  u_options : option (list DecisionOption);
  u_result : option (option GeminiService.Returned);
}.

Record CriteriaUpdates : Type := {
  uc_id : option jsstring;
  uc_name : option jsstring;
  uc_weight : option JSNum;
  uc_description : option (option jsstring);
}.

Record OptionUpdates : Type := {
  uo_id : option jsstring;
  uo_name : option jsstring;
  uo_description : option jsstring;
  uo_attachments : option (list Attachment);
}.

Definition noUpdates : StateUpdates :=
  {| u_title := None; u_description := None; u_criteria := None;
     u_options := None; u_result := None |}.

(** Lines 66-68: [prev => ({ ...prev, ...updates })], the argument of
    [setState]. *)
Definition updateState (updates : StateUpdates) (prev : DecisionState)
    : DecisionState :=
  {| title := default (title prev) (u_title updates);
     description := default (description prev) (u_description updates);
     criteria := default (criteria prev) (u_criteria updates);
     options := default (options prev) (u_options updates);
     result := default (result prev) (u_result updates) |}.

(** [{ ...c, ...updates }] *)
Definition mergeCriteria (c : DecisionCriteria) (updates : CriteriaUpdates)
    : DecisionCriteria :=
  {| c_id := default (c_id c) (uc_id updates);
     c_name := default (c_name c) (uc_name updates);
     c_weight := default (c_weight c) (uc_weight updates);
     c_description := default (c_description c) (uc_description updates) |}.

Definition mergeOption (o : DecisionOption) (updates : OptionUpdates)
    : DecisionOption :=
  {| o_id := default (o_id o) (uo_id updates);
     o_name := default (o_name o) (uo_name updates);
     o_description := default (o_description o) (uo_description updates);
     o_attachments := default (o_attachments o) (uo_attachments updates) |}.

(** The handlers of a render see its [state]; each is given here as the
    update it passes to [updateState]. *)

(** Lines 70-77, with the identifiers that [genId] returns. *)
Definition applyTemplate (t : Template) (ids : list jsstring)
    : DecisionState :=
  {| title := t_title t;
     description := description INITIAL_STATE;
     criteria :=
       zip_with (λ id name, {| c_id := id; c_name := name;
                               c_weight := Fin 5; c_description := None |})
         ids (t_criteria t);
     options := options INITIAL_STATE;
     result := result INITIAL_STATE |}.

(** Lines 80-84. *)
Definition addCriteria (state : DecisionState) (id : jsstring)
    : StateUpdates :=
  {| u_title := None; u_description := None;
     u_criteria :=
       Some (criteria state
             ++ [{| c_id := id; c_name := []; c_weight := Fin 5;
                    c_description := None |}]);
     u_options := None; u_result := None |}.

(** Lines 85-89. *)
Definition updateCriteria (state : DecisionState) (id : jsstring)
    (updates : CriteriaUpdates) : StateUpdates :=
  {| u_title := None; u_description := None;
     u_criteria :=
       Some (map (λ c, if jsstring_eqb (c_id c) id
                       then mergeCriteria c updates else c)
               (criteria state));
     u_options := None; u_result := None |}.

(** Lines 90-92. *)
Definition removeCriteria (state : DecisionState) (id : jsstring)
    : StateUpdates :=
  {| u_title := None; u_description := None;
     u_criteria :=
       Some (List.filter (λ c, negb (jsstring_eqb (c_id c) id))
               (criteria state));
     u_options := None; u_result := None |}.

(** [String.fromCharCode(65 + n)] *)
Definition letter (n : nat) : jsstring := [((65 + N.of_nat n) mod 65536)%N].

(** Lines 95-99. *)
Definition addOption (state : DecisionState) (id : jsstring)
    : StateUpdates :=
  {| u_title := None; u_description := None; u_criteria := None;
     u_options :=
       Some (options state
             ++ [{| o_id := id;
                    o_name := str "Option " ++ letter (length (options state));
                    o_description := []; o_attachments := [] |}]);
     u_result := None |}.

(** Lines 100-104. *)
Definition updateOption (state : DecisionState) (id : jsstring)
    (updates : OptionUpdates) : StateUpdates :=
  {| u_title := None; u_description := None; u_criteria := None;
     u_options :=
       Some (map (λ o, if jsstring_eqb (o_id o) id
                       then mergeOption o updates else o)
               (options state));
     u_result := None |}.

(** Lines 105-107. *)
Definition removeOption (state : DecisionState) (id : jsstring)
    : StateUpdates :=
  {| u_title := None; u_description := None; u_criteria := None;
     u_options :=
       Some (List.filter (λ o, negb (jsstring_eqb (o_id o) id))
               (options state));
     u_result := None |}.

(** *** File upload (lines 110-146) *)

(** A chosen file: its name, media type and size in bytes, and the data URL
    that reading it gives. *)
Record File : Type := {
  f_name : jsstring;
  f_type : jsstring;
  f_size : N;
  f_dataUrl : jsstring;
}.

Definition MAX_SIZE : N := 4 * 1024 * 1024.

Fixpoint takeWhile {A} (p : A → bool) (l : list A) : list A :=
  match l with
  | [] => []
  | x :: t => if p x then x :: takeWhile p t else []
  end.

(** [result.split(',')[1]]: what stands between the first comma and the
    next one; [None] is [undefined]. *)
Definition secondPiece (s : jsstring) : option jsstring :=
  match dropWhile (isNot (ch ",")) s with
  | [] => None
  | _ :: rest => Some (takeWhile (isNot (ch ",")) rest)
  end.

Definition tooLarge (file : File) : jsstring :=
  str "File " ++ f_name file ++ str " is too large (Max 4MB).".

(** The loop of lines 116-140 over the files, each with the identifier
    [genId] returns if the file is read: the alerts shown and the new
    attachments. *)
Fixpoint readFiles (files : list (File * jsstring))
    : list jsstring * list Attachment :=
  match files with
  | [] => ([], [])
  | (file, id) :: rest =>
      let '(alerts, attachments) := readFiles rest in
      if (MAX_SIZE <? f_size file)%N
      then (tooLarge file :: alerts, attachments)
      else (alerts,
            {| a_id := id; a_name := f_name file; a_mimeType := f_type file;
               a_data := secondPiece (f_dataUrl file) |} :: attachments)
  end.

(** The handler of the render with [state], on the files chosen for an
    option ([None] is [null]): the alerts shown, and the update passed to
    [updateState] when the reading is over, if one is. *)
Definition handleFileUpload (state : DecisionState) (optionId : jsstring)
    (files : option (list (File * jsstring)))
    : list jsstring * option StateUpdates :=
  match files with
  | None => ([], None)
  | Some files =>
      let '(alerts, newAttachments) := readFiles files in
      match List.find (λ o, jsstring_eqb (o_id o) optionId)
              (options state) with
      | Some option =>
          (alerts,
           Some (updateOption state optionId
                   {| uo_id := None; uo_name := None; uo_description := None;
                      uo_attachments :=
                        Some (o_attachments option ++ newAttachments) |}))
      | None => (alerts, None)
      end
  end.

(** *** The application as a transition system *)

(** The text of the error banner: [e.message || "Sherlock encountered
    ..."]. *)
Inductive Banner : Type :=
| Text (s : jsstring)
| MessageOf (e : Exn).

Definition banner (e : Exn) : Banner :=
  match e with
  | Error EmptyString =>
      Text (str "Sherlock encountered an error analyzing the evidence.")
  | Error msg => Text (str msg)
  | other => MessageOf other
  end.

(** Lines 62-64: the three state variables of the component. *)
Record AppState : Type := {
  step : nat;
  state : DecisionState;
  error : option Banner;
}.

(** A file upload that is still reading: the state of the render whose
    handler was called, the option and the files. *)
Record Upload : Type := {
  up_state : DecisionState;
  up_option : jsstring;
  up_files : option (list (File * jsstring));
}.

(** The component, the world of the service, the uploads that are still
    reading and the outcomes of the analyses that have not been delivered. *)
Record Config : Type := {
  app : AppState;
  world : GeminiService.World;
  uploads : list Upload;
  analyses : list (Exn + GeminiService.Returned);
}.

(** What [analyzeDecision] is given: the state of the render. *)
Definition serviceData (s : DecisionState) : DecisionSherlock.DecisionState :=
  {| DecisionSherlock.title := JStr (title s);
     DecisionSherlock.description := JStr (description s);
     DecisionSherlock.criteria :=
       map (λ c, JObj [(str "id", JStr (c_id c));
                       (str "name", JStr (c_name c));
                       (str "weight", JNum (c_weight c))])
         (criteria s);
     DecisionSherlock.options :=
       map (λ o,
              {| DecisionSherlock.opt_id := JStr (o_id o);
                 DecisionSherlock.opt_attachments :=
                   Some (map (λ a,
                                {| DecisionSherlock.att_name :=
                                     JStr (a_name a);
                                   DecisionSherlock.att_mimeType :=
                                     JStr (a_mimeType a);
                                   DecisionSherlock.att_data :=
                                     from_option JStr JUndefined (a_data a) |})
                           (o_attachments o)) |})
         (options s) |}.

(** What the user and the environment can do. *)
Inductive Event : Type :=
| Home
| ApplyTemplate (t : Template) (ids : list jsstring)
| StartNew
| SetTitle (value : jsstring)
| SetDescription (value : jsstring)
| NextToCriteria
| SetCriterionName (id value : jsstring)
| SetCriterionWeight (id : jsstring) (value : JSNum)
| RemoveCriterion (id : jsstring)
| AddCriterion (newId : jsstring)
| BackToCase
| NextToOptions
| AddOption (newId : jsstring)
| SetOptionName (id value : jsstring)
| SetOptionDescription (id value : jsstring)
| RemoveOption (id : jsstring)
| RemoveAttachment (opt : DecisionOption) (attachmentId : jsstring)
| ChooseFiles (optionId : jsstring) (files : option (list (File * jsstring)))
| BackToCriteria
| Analyze
| UploadRead (k : nat)
| AnalysisDelivered (k : nat) (readable : bool)
| Reset
| BackFromResults.

Definition hasCriterion (s : DecisionState) (id : jsstring) : Prop :=
  ∃ c, c ∈ criteria s ∧ c_id c = id.

Definition hasOption (s : DecisionState) (id : jsstring) : Prop :=
  ∃ o, o ∈ options s ∧ o_id o = id.

(** When an event can happen: its control is rendered, for the step and
    for an element of the state, and is not disabled; an upload or an
    analysis that ends is one that is pending.  The callbacks given to the
    results view may be called at any time. *)
Definition enabled (c : Config) (e : Event) : Prop :=
  let s := state (app c) in
  match e with
  | Home => True
  | ApplyTemplate t ids =>
      step (app c) = 0 ∧ t ∈ TEMPLATES ∧ length ids = length (t_criteria t)
  | StartNew => step (app c) = 0
  | SetTitle _ | SetDescription _ => step (app c) = 1
  | NextToCriteria => step (app c) = 1 ∧ title s ≠ []
  | SetCriterionName id _ | SetCriterionWeight id _ =>
      step (app c) = 2 ∧ hasCriterion s id
  | RemoveCriterion id =>
      step (app c) = 2 ∧ hasCriterion s id ∧ 1 < length (criteria s)
  | AddCriterion _ | BackToCase => step (app c) = 2
  | NextToOptions =>
      step (app c) = 2 ∧ Forall (λ x, c_name x ≠ []) (criteria s)
  | AddOption _ | BackToCriteria => step (app c) = 3
  | SetOptionName id _ | SetOptionDescription id _ | ChooseFiles id _ =>
      step (app c) = 3 ∧ hasOption s id
  | RemoveOption id =>
      step (app c) = 3 ∧ hasOption s id ∧ 2 < length (options s)
  | RemoveAttachment opt attachmentId =>
      step (app c) = 3 ∧ opt ∈ options s
      ∧ ∃ a, a ∈ o_attachments opt ∧ a_id a = attachmentId
  | Analyze => step (app c) = 3 ∧ Forall (λ o, o_name o ≠ []) (options s)
  | UploadRead k => k < length (uploads c)
  | AnalysisDelivered k readable =>
      ∃ outcome, analyses c !! k = Some outcome
                 ∧ (readable = false → ∃ tag, outcome = inl (Thrown tag))
  | Reset | BackFromResults => True
  end.

(** The identifiers that [genId] returns during an event are new. *)
Definition freshIds (c : Config) (e : Event) : Prop :=
  match e with
  | ApplyTemplate _ ids => NoDup ids
  | AddCriterion newId => ¬ hasCriterion (state (app c)) newId
  | AddOption newId => ¬ hasOption (state (app c)) newId
  | _ => True
  end.

Definition setStep (n : nat) (a : AppState) : AppState :=
  {| step := n; state := state a; error := error a |}.

Definition setState (f : DecisionState → DecisionState) (a : AppState)
    : AppState :=
  {| step := step a; state := f (state a); error := error a |}.

Definition setError (b : option Banner) (a : AppState) : AppState :=
  {| step := step a; state := state a; error := b |}.

Definition withApp (f : AppState → AppState) (c : Config) : Config :=
  {| app := f (app c); world := world c; uploads := uploads c;
     analyses := analyses c |}.

Definition namedOnly (value : jsstring) : CriteriaUpdates :=
  {| uc_id := None; uc_name := Some value; uc_weight := None;
     uc_description := None |}.

Definition weightOnly (value : JSNum) : CriteriaUpdates :=
  {| uc_id := None; uc_name := None; uc_weight := Some value;
     uc_description := None |}.

Definition noOptionUpdates : OptionUpdates :=
  {| uo_id := None; uo_name := None; uo_description := None;
     uo_attachments := None |}.

Section WithService.
Context `{Host} `{GeminiService.ModelInvoker}.

(** The configuration after an event.  The handlers of the controls see the
    state of the latest render; what ends an upload sees the state of the
    render in which the files were chosen. *)
Definition after (c : Config) (e : Event) : Config :=
  let s := state (app c) in
  match e with
  | Home => withApp (setStep 0) c
  | ApplyTemplate t ids =>
      withApp (λ a, setStep 1 (setState (λ _, applyTemplate t ids) a)) c
  | StartNew => withApp (λ a, setStep 1 (setState (λ _, INITIAL_STATE) a)) c
  | SetTitle value =>
      withApp (setState (updateState
                 {| u_title := Some value; u_description := None;
                    u_criteria := None; u_options := None;
                    u_result := None |})) c
  | SetDescription value =>
      withApp (setState (updateState
                 {| u_title := None; u_description := Some value;
                    u_criteria := None; u_options := None;
                    u_result := None |})) c
  | NextToCriteria => withApp (setStep 2) c
  | SetCriterionName id value =>
      withApp (setState (updateState
                 (updateCriteria s id (namedOnly value)))) c
  | SetCriterionWeight id value =>
      withApp (setState (updateState
                 (updateCriteria s id (weightOnly value)))) c
  | RemoveCriterion id =>
      withApp (setState (updateState (removeCriteria s id))) c
  | AddCriterion newId =>
      withApp (setState (updateState (addCriteria s newId))) c
  | BackToCase => withApp (setStep 1) c
  | NextToOptions => withApp (setStep 3) c
  | AddOption newId =>
      withApp (setState (updateState (addOption s newId))) c
  | SetOptionName id value =>
      withApp (setState (updateState
                 (updateOption s id
                    {| uo_id := None; uo_name := Some value;
                       uo_description := None; uo_attachments := None |}))) c
  | SetOptionDescription id value =>
      withApp (setState (updateState
                 (updateOption s id
                    {| uo_id := None; uo_name := None;
                       uo_description := Some value;
                       uo_attachments := None |}))) c
  | RemoveOption id =>
      withApp (setState (updateState (removeOption s id))) c
  | RemoveAttachment opt attachmentId =>
      withApp (setState (updateState
                 (updateOption s (o_id opt)
                    {| uo_id := None; uo_name := None; uo_description := None;
                       uo_attachments :=
                         Some (List.filter
                                 (λ a, negb (jsstring_eqb (a_id a)
                                               attachmentId))
                                 (o_attachments opt)) |}))) c
  | ChooseFiles optionId files =>
      {| app := app c; world := world c;
         uploads := uploads c
                    ++ [{| up_state := s; up_option := optionId;
                           up_files := files |}];
         analyses := analyses c |}
  | BackToCriteria => withApp (setStep 2) c
  | Analyze =>
      let '(w, outcome) :=
        GeminiService.analyzeDecision (serviceData s) (world c) in
      {| app := setError None (setStep 4 (app c)); world := w;
         uploads := uploads c; analyses := analyses c ++ [outcome] |}
  | UploadRead k =>
      match uploads c !! k with
      | Some u =>
          {| app :=
               match (handleFileUpload (up_state u) (up_option u)
                        (up_files u)).2 with
               | Some updates => setState (updateState updates) (app c)
               | None => app c
               end;
             world := world c; uploads := delete k (uploads c);
             analyses := analyses c |}
      | None => c
      end
  | AnalysisDelivered k readable =>
      match analyses c !! k with
      | Some outcome =>
          {| app :=
               match outcome with
               | inr r =>
                   setStep 5
                     (setState (updateState
                        {| u_title := None; u_description := None;
                           u_criteria := None; u_options := None;
                           u_result := Some (Some r) |}) (app c))
               | inl e =>
                   if readable
                   then setStep 3 (setError (Some (banner e)) (app c))
                   else app c
               end;
             world := world c; uploads := uploads c;
             analyses := delete k (analyses c) |}
      | None => c
      end
  | Reset => withApp (λ a, setStep 0 (setState (λ _, INITIAL_STATE) a)) c
  | BackFromResults => withApp (setStep 3) c
  end.

(** The configurations of the runs in which [genId] never returns an
    identifier that is in use, from the first render with a given world. *)
Inductive reachable (w : GeminiService.World) : Config → Prop :=
| reachable_start :
    reachable w
      {| app := {| step := 0; state := INITIAL_STATE; error := None |};
         world := w; uploads := []; analyses := [] |}
| reachable_after (c : Config) (e : Event) :
    reachable w c → enabled c e → freshIds c e → reachable w (after c e).

End WithService.

End App.

(** ** A reference host

    An executable [Host] for the examples: a JSON reader and the decimal
    syntax of numbers, with exact values.  (An engine rounds a literal to the
    nearest double and prints the shortest text that reads back; on the
    integers of the examples the two agree.) *)

Module RefHost.

Definition isJsonWs (c : N) : bool :=
  (N.eqb c 32 || N.eqb c 9 || N.eqb c 10 || N.eqb c 13)%bool.
Definition skipWs (s : jsstring) : jsstring := dropWhile isJsonWs s.
Definition isDigit (c : N) : bool := inRange 48 57 c.

Fixpoint readDigits (acc : Z) (n : nat) (s : jsstring)
    : Z * nat * jsstring :=
  match s with
  | c :: t =>
      if isDigit c then readDigits (acc * 10 + Z.of_N (c - 48)) (S n) t
      else (acc, n, s)
  | [] => (acc, n, [])
  end.

Definition pow10 (e : Z) : Q :=
  if (0 <=? e)%Z then inject_Z (10 ^ e)
  else Qmake 1 (Z.to_pos (10 ^ (- e))).

(** [. digits], with the number of digits read; JSON wants a digit after the
    point ([needDigit]). *)
Definition readFraction (needDigit : bool) (s : jsstring)
    : option (Q * nat * jsstring) :=
  match s with
  | 46%N :: t =>
      let '(v, n, r) := readDigits 0 0 t in
      if (needDigit && Nat.eqb n 0)%bool then None
      else Some ((inject_Z v * pow10 (- Z.of_nat n))%Q, n, r)
  | _ => Some (0%Q, 0%nat, s)
  end.

Definition readExponent (s : jsstring) : option (Z * jsstring) :=
  match s with
  | c :: t =>
      if (N.eqb c 101 || N.eqb c 69)%bool then
        let '(neg, u) :=
          match t with
          | 45%N :: u => (true, u)
          | 43%N :: u => (false, u)
          | _ => (false, t)
          end in
        let '(v, n, r) := readDigits 0 0 u in
        match n with
        | O => None
        | _ => Some (if neg : bool then (- v)%Z else v, r)
        end
      else Some (0%Z, s)
  | [] => Some (0%Z, [])
  end.

(** A JSON number. *)
Definition parseNumber (s : jsstring) : option (Q * jsstring) :=
  let '(neg, s1) :=
    match s with 45%N :: t => (true, t) | _ => (false, s) end in
  ip ← match s1 with
       | 48%N :: t => Some (0%Z, t)
       | c :: _ =>
           if isDigit c then
             let '(v, _, r) := readDigits 0 0 s1 in Some (v, r)
           else None
       | [] => None
       end;
  fp ← readFraction true ip.2;
  ep ← readExponent fp.2;
  let q := ((inject_Z ip.1 + fp.1.1) * pow10 ep.1)%Q in
  Some (Qred (if neg : bool then - q else q)%Q, ep.2).

Definition hexVal (c : N) : option N :=
  if isDigit c then Some (c - 48)%N
  else if inRange 97 102 c then Some (c - 87)%N
  else if inRange 65 70 c then Some (c - 55)%N
  else None.

Definition simpleEscape (e : N) : option N :=
  if N.eqb e 34 then Some 34%N
  else if N.eqb e 92 then Some 92%N
  else if N.eqb e 47 then Some 47%N
  else if N.eqb e 98 then Some 8%N
  else if N.eqb e 102 then Some 12%N
  else if N.eqb e 110 then Some 10%N
  else if N.eqb e 114 then Some 13%N
  else if N.eqb e 116 then Some 9%N
  else None.

(** The characters of a JSON string after its opening quote. *)
Fixpoint parseString (acc : jsstring) (s : jsstring)
    : option (jsstring * jsstring) :=
  match s with
  | [] => None
  | c :: t =>
      if N.eqb c 34 then Some (rev acc, t)
      else if N.eqb c 92 then
        match t with
        | e :: t' =>
            if N.eqb e 117 then
              match t' with
              | h1 :: h2 :: h3 :: h4 :: t'' =>
                  match hexVal h1, hexVal h2, hexVal h3, hexVal h4 with
                  | Some a, Some b, Some c', Some d =>
                      parseString
                        ((a * 4096 + b * 256 + c' * 16 + d)%N :: acc) t''
                  | _, _, _, _ => None
                  end
              | _ => None
              end
            else
              match simpleEscape e with
              | Some x => parseString (x :: acc) t'
              | None => None
              end
        | [] => None
        end
      else if N.ltb c 32 then None
      else parseString (c :: acc) t
  end.

(** A repeated key keeps its place and takes the later value. *)
Fixpoint setProp (k : jsstring) (v : JSValue)
    (props : list (jsstring * JSValue)) : list (jsstring * JSValue) :=
  match props with
  | [] => [(k, v)]
  | (k', v') :: rest =>
      if jsstring_eqb k' k then (k', v) :: rest
      else (k', v') :: setProp k v rest
  end.

Fixpoint parseValue (fuel : nat) (s : jsstring)
    : option (JSValue * jsstring) :=
  match fuel with
  | O => None
  | S fuel' =>
      match skipWs s with
      | [] => None
      | c :: t =>
          if N.eqb c 34 then
            r ← parseString [] t; Some (JStr r.1, r.2)
          else if N.eqb c 91 then
            match skipWs t with
            | 93%N :: r => Some (JArr [], r)
            | _ => parseElements fuel' [] t
            end
          else if N.eqb c 123 then
            match skipWs t with
            | 125%N :: r => Some (JObj [], r)
            | _ => parseMembers fuel' [] t
            end
          else if startsWith (str "null") (c :: t)
          then Some (JNull, drop 4 (c :: t))
          else if startsWith (str "true") (c :: t)
          then Some (JBool true, drop 4 (c :: t))
          else if startsWith (str "false") (c :: t)
          then Some (JBool false, drop 5 (c :: t))
          else r ← parseNumber (c :: t); Some (JNum (Fin r.1), r.2)
      end
  end
with parseElements (fuel : nat) (acc : list JSValue) (s : jsstring)
    : option (JSValue * jsstring) :=
  match fuel with
  | O => None
  | S fuel' =>
      r ← parseValue fuel' s;
      match skipWs r.2 with
      | 44%N :: rest => parseElements fuel' (r.1 :: acc) rest
      | 93%N :: rest => Some (JArr (rev (r.1 :: acc)), rest)
      | _ => None
      end
  end
with parseMembers (fuel : nat) (acc : list (jsstring * JSValue))
    (s : jsstring) : option (JSValue * jsstring) :=
  match fuel with
  | O => None
  | S fuel' =>
      match skipWs s with
      | 34%N :: t =>
          k ← parseString [] t;
          match skipWs k.2 with
          | 58%N :: t' =>
              r ← parseValue fuel' t';
              match skipWs r.2 with
              | 44%N :: rest => parseMembers fuel' (setProp k.1 r.1 acc) rest
              | 125%N :: rest => Some (JObj (setProp k.1 r.1 acc), rest)
              | _ => None
              end
          | _ => None
          end
      | _ => None
      end
  end.

Definition parse (s : jsstring) : option JSValue :=
  r ← parseValue (2 * length s + 2) s;
  match skipWs r.2 with
  | [] => Some r.1
  | _ => None
  end.

(** StrDecimalLiteral: digits, a point and an exponent, one of the digit
    runs being non-empty. *)
Definition decimalLiteral (s : jsstring) : option Q :=
  let '(iv, inum, r1) := readDigits 0 0 s in
  fp ← readFraction false r1;
  if (Nat.eqb inum 0 && Nat.eqb fp.1.2 0)%bool then None
  else
    ep ← readExponent fp.2;
    match ep.2 with
    | [] => Some (Qred ((inject_Z iv + fp.1.1) * pow10 ep.1))
    | _ => None
    end.

Fixpoint readRadix (radix : Z) (acc : Z) (s : jsstring) : option Z :=
  match s with
  | [] => Some acc
  | c :: t =>
      d ← hexVal c;
      if (Z.of_N d <? radix)%Z then readRadix radix (acc * radix + Z.of_N d) t
      else None
  end.

Definition stringToNumber (s : jsstring) : JSNum :=
  match trim s with
  | [] => Fin 0
  | 48%N :: x :: (d :: ds) as digits =>
      let radix :=
        if (N.eqb x 120 || N.eqb x 88)%bool then Some 16%Z
        else if (N.eqb x 111 || N.eqb x 79)%bool then Some 8%Z
        else if (N.eqb x 98 || N.eqb x 66)%bool then Some 2%Z
        else None in
      match radix with
      | Some r => from_option (λ z, Fin (inject_Z z)) NaN (readRadix r 0 digits)
      | None => from_option Fin NaN (decimalLiteral (trim s))
      end
  | t =>
      let '(neg, u) :=
        match t with
        | 45%N :: u => (true, u)
        | 43%N :: u => (false, u)
        | _ => (false, t)
        end in
      if jsstring_eqb u (str "Infinity") then signedInf neg
      else from_option (λ q, Fin (if neg : bool then Qred (- q) else q)) NaN
             (decimalLiteral u)
  end.

Fixpoint uintChars (d : Decimal.uint) : jsstring :=
  match d with
  | Decimal.Nil => []
  | Decimal.D0 r => 48%N :: uintChars r
  | Decimal.D1 r => 49%N :: uintChars r
  | Decimal.D2 r => 50%N :: uintChars r
  | Decimal.D3 r => 51%N :: uintChars r
  | Decimal.D4 r => 52%N :: uintChars r
  | Decimal.D5 r => 53%N :: uintChars r
  | Decimal.D6 r => 54%N :: uintChars r
  | Decimal.D7 r => 55%N :: uintChars r
  | Decimal.D8 r => 56%N :: uintChars r
  | Decimal.D9 r => 57%N :: uintChars r
  end.

Fixpoint fractionChars (fuel : nat) (r : Q) : jsstring :=
  match fuel with
  | O => []
  | S fuel' =>
      if Qeq_bool r 0 then []
      else
        let d := Qfloor (r * 10) in
        (48 + Z.to_N d)%N :: fractionChars fuel' (Qred (r * 10 - inject_Z d))
  end.

Definition numberToString (q : Q) : jsstring :=
  let a := Qabs q in
  let whole := Qfloor a in
  let frac := fractionChars 40 (Qred (a - inject_Z whole)) in
  (if Qltb q 0 then [45%N] else [])
  ++ uintChars (N.to_uint (Z.to_N whole))
  ++ match frac with [] => [] | _ => 46%N :: frac end.

Definition host : Host := {|
  JSON_parse := parse;
  StringToNumber := stringToNumber;
  NumberToString := numberToString;
  StringToNumber_object := eq_refl;
|}.

End RefHost.

(** * Specification vocabulary *)

Import DecisionSherlock.

(** [typeof v === "number"] *)
Definition isNumber (v : JSValue) : bool :=
  match v with JNum _ => true | _ => false end.

(** A score: an integer between 0 and 100. *)
Definition isScore (n : JSNum) : Prop :=
  ∃ z : Z, n = Fin (inject_Z z) ∧ (0 ≤ z ≤ 100)%Z.

(** The clamp applied to what [Number] returned. *)
Definition clampNumber (v : JSNum) : JSNum :=
  if isNaN v then Fin 0
  else if num_lt v (Fin 0) then Fin 0
  else if num_lt (Fin 100) v then Fin 100
  else Math_round v.

Definition criterionOk (ca : ParsedCriteriaAnalysis) : Prop :=
  isScore (score ca) ∧ ∀ c, confidence ca = Some c → isScore c.

Definition scoresOk (r : SherlockResult) : Prop :=
  Forall (λ opt, Forall criterionOk (criteriaAnalysis opt)) (analysis r).

(** JSON texts of the examples are written with an apostrophe where the text
    has a double quote. *)
Definition json (s : string) : jsstring :=
  map (λ c, if N.eqb c 39 then 34%N else c) (str s).

(** The value of a finite number. *)
Definition numValue (n : JSNum) : Q :=
  match n with Fin q => q | _ => 0%Q end.

Definition sumScores (cas : list ParsedCriteriaAnalysis) : Q :=
  fold_right (λ c s, (numValue (score c) + s)%Q) 0%Q cas.

(** The arithmetic mean of the scores of an option, 0 without scores. *)
Definition meanScore (opt : ParsedOptionAnalysis) : Q :=
  match criteriaAnalysis opt with
  | [] => 0%Q
  | cas => (sumScores cas / inject_Z (Z.of_nat (length cas)))%Q
  end.

Definition finiteScores (opt : ParsedOptionAnalysis) : Prop :=
  Forall (λ c, ∃ q, score c = Fin q) (criteriaAnalysis opt).

Definition toCandidate (opt : ParsedOptionAnalysis) : Candidate :=
  {| cand_optionId := optionId opt; avg := average opt |}.

(** The winner is empty or names an option of the analysis. *)
Definition winnerRefersToOption (r : SherlockResult) : Prop :=
  winnerId r = JStr []
  ∨ ∃ opt, In opt (analysis r) ∧ winnerId r = JStr (optionId opt).

(** What is done to the text after the marker: [trim], the three fence
    replacements, [trim]. *)
Definition stripFences (s : jsstring) : jsstring :=
  trim (stripTrailingFence (stripLeadingFence (stripJsonFence (trim s)))).

Definition allWhiteSpace (s : jsstring) : Prop :=
  forallb isWhiteSpace s = true.

(** The text of a JSON object: from an opening to a closing brace. *)
Definition isObjectText (s : jsstring) : Prop :=
  ∃ mid, s = ch "{" :: mid ++ [ch "}"].

(** The language tag that the fence replacement knows: none, or [json] in any
    letter case. *)
Definition isJsonTag (tag : jsstring) : Prop :=
  tag = [] ∨ (length tag = 4 ∧ startsWithFold (str "json") tag = true).

(** [needle] occurs in [s] at [pre] and nowhere before. *)
Definition firstOccurrence (needle pre post s : jsstring) : Prop :=
  s = pre ++ needle ++ post
  ∧ ∀ j, j < length pre → startsWith needle (drop j s) = false.

Definition occursIn (needle s : jsstring) : Prop :=
  ∃ pre post, s = pre ++ needle ++ post.

(** The three attempts of the lenient parser all fail: the strict parse, the
    parse of the cleaned text, and the parse of its brace block (or there is
    no block). *)
Definition allAttemptsFail `{Host} (candidate : jsstring) : Prop :=
  JSON_parse candidate = None
  ∧ JSON_parse (cleanTrailingCommas candidate) = None
  ∧ ∀ block, matchBraceBlock (cleanTrailingCommas candidate) = Some block →
             JSON_parse block = None.

(** [text] holds a match of [/,\s*X/] for the closing character [X]: a comma
    that stands, possibly after white space, before [X]. *)
Definition hasTrailingComma (close : N) (text : jsstring) : Prop :=
  ∃ a ws rest,
    allWhiteSpace ws ∧ text = a ++ ch "," :: ws ++ close :: rest.

(** [text] holds an opening brace with a closing brace somewhere after it. *)
Definition hasBraceBlock (text : jsstring) : Prop :=
  ∃ a m z, text = a ++ ch "{" :: m ++ ch "}" :: z.

(** The extraction strategies of [extractRawText], in the order of the
    source. *)
Definition strategies `{Host} : list (Response → option jsstring) :=
  [GeminiService.viaTextCall; GeminiService.viaTextField;
   GeminiService.viaOutputText; GeminiService.viaOutputs;
   GeminiService.viaStringify].

Fixpoint firstSome {A B} (fs : list (A → option B)) (a : A) : option B :=
  match fs with
  | [] => None
  | f :: rest =>
      match f a with
      | Some b => Some b
      | None => firstSome rest a
      end
  end.

(** *** The advertised schema

    A parsed value conforms to the schema when it is an object with the
    canonical fields: [analysis] an array of option objects, each with a
    string [optionId], an array [criteriaAnalysis] of objects with a string
    [criteriaId], an integer [score] between 0 and 100, a string [reasoning]
    and, optionally, a number [confidence], and arrays of strings [pros] and
    [cons]; and strings [verdict], [winnerId] and [recommendation].  The shape
    of a result is the list of its option identifiers, each with the
    identifiers and scores of its criteria. *)

Definition CriterionShape : Type := (jsstring * Z)%type.
Definition OptionShape : Type := (jsstring * list CriterionShape)%type.

Definition conformsCriterion (ca : JSValue) (shape : CriterionShape) : Prop :=
  ∃ props q r,
    ca = JObj props
    ∧ lookupProp (str "criteriaId") props = Some (JStr shape.1)
    ∧ lookupProp (str "score") props = Some (JNum (Fin q))
    ∧ q == inject_Z shape.2
    ∧ (0 ≤ shape.2 ≤ 100)%Z
    ∧ lookupProp (str "reasoning") props = Some (JStr r)
    ∧ (lookupProp (str "confidence") props = None
       ∨ ∃ n, lookupProp (str "confidence") props = Some (JNum n)).

Definition allStrings (items : list JSValue) : Prop :=
  Forall (λ x, ∃ s, x = JStr s) items.

Definition conformsOption (a : JSValue) (shape : OptionShape) : Prop :=
  ∃ props cas ps cs,
    a = JObj props
    ∧ lookupProp (str "optionId") props = Some (JStr shape.1)
    ∧ lookupProp (str "criteriaAnalysis") props = Some (JArr cas)
    ∧ Forall2 conformsCriterion cas shape.2
    ∧ lookupProp (str "pros") props = Some (JArr ps) ∧ allStrings ps
    ∧ lookupProp (str "cons") props = Some (JArr cs) ∧ allStrings cs.

Definition conformsResult (v : JSValue) (shape : list OptionShape) : Prop :=
  ∃ props opts vd w rc,
    v = JObj props
    ∧ lookupProp (str "analysis") props = Some (JArr opts)
    ∧ Forall2 conformsOption opts shape
    ∧ lookupProp (str "verdict") props = Some (JStr vd)
    ∧ lookupProp (str "winnerId") props = Some (JStr w)
    ∧ lookupProp (str "recommendation") props = Some (JStr rc).

Definition criterionShape (c : ParsedCriteriaAnalysis) : JSValue * JSNum :=
  (criteriaId c, score c).

Definition optionShape (o : ParsedOptionAnalysis)
    : jsstring * list (JSValue * JSNum) :=
  (optionId o, map criterionShape (criteriaAnalysis o)).

Definition expectedCriterion (s : CriterionShape) : JSValue * JSNum :=
  (JStr s.1, Fin (inject_Z s.2)).

Definition expectedOption (s : OptionShape)
    : jsstring * list (JSValue * JSNum) :=
  (s.1, map expectedCriterion s.2).

(** The values the normalizer takes without raising: no array has a [null]
    entry and no object has an own [toString] property, at any depth. *)
Fixpoint absorbable (v : JSValue) : bool :=
  match v with
  | JArr items =>
      (fix all (l : list JSValue) : bool :=
         match l with
         | [] => true
         | x :: t => negb (nullish x) && absorbable x && all t
         end) items
  | JObj props =>
      match lookupProp (str "toString") props with
      | Some _ => false
      | None =>
          (fix all (l : list (jsstring * JSValue)) : bool :=
             match l with
             | [] => true
             | (_, x) :: t => absorbable x && all t
             end) props
      end
  | _ => true
  end.

(** [v.k] where it does not throw. *)
Definition propOf (v : JSValue) (k : string) : JSValue :=
  match v with
  | JObj props => default JUndefined (lookupProp (str k) props)
  | _ => JUndefined
  end.

(** *** Share links and saved cases *)

(** The 6-bit values of a byte string, and the padding that completes the
    last group. *)
Fixpoint sextets (s : list N) : list N :=
  match s with
  | a :: b :: c :: t =>
      a / 4 :: (a mod 4) * 16 + b / 16 :: (b mod 16) * 4 + c / 64 :: c mod 64
      :: sextets t
  | [a; b] => [a / 4; (a mod 4) * 16 + b / 16; (b mod 16) * 4]
  | [a] => [a / 4; (a mod 4) * 16]
  | [] => []
  end%N.

Fixpoint padding (s : list N) : jsstring :=
  match s with
  | _ :: _ :: _ :: t => padding t
  | [_; _] => [61%N]
  | [_] => [61%N; 61%N]
  | [] => []
  end.

(** A base64 character is a letter, a digit, [+] or [/]. *)
Definition isBase64Char (c : N) : bool :=
  (isAlnum c || N.eqb c 43 || N.eqb c 47)%bool.

(** A text of base64 characters and padding. *)
Definition isBase64Text (l : jsstring) : Prop :=
  Forall (λ c, isBase64Char c = true ∨ c = 61%N) l.

(** [JSON.stringify(state)] as [btoa] takes it. *)
Definition jsonText `{Host} (state : JSValue) : jsstring :=
  default (str "undefined") (JSON_stringify state).

(** *** The messages sent to the model *)

(** The attachments of all options, in order. *)
Definition attachmentsOf (data : DecisionState) : list Attachment :=
  concat (map (λ opt, default [] (opt_attachments opt)) (options data)).

(** The inline data of a message: media type and data of each part that
    carries some. *)
Definition inlineDataOf (c : Content) : list (JSValue * JSValue) :=
  omap (λ p, match p with
             | PInlineData mimeType data _ => Some (mimeType, data)
             | PText _ => None
             end) (parts c).

Definition geminiInlineDataOf (c : GeminiService.Content)
    : list (JSValue * JSValue) :=
  omap (λ p, match p with
             | GeminiService.PInlineData mimeType data =>
                 Some (mimeType, data)
             | GeminiService.PText _ => None
             end) (GeminiService.parts c).

(** An object or an array: what a property can be assigned to. *)
Definition isObject (v : JSValue) : bool :=
  match v with JArr _ | JObj _ => true | _ => false end.

(** What the guard of [geminiService.ts] makes of a parsed value. *)
Definition guardedAnalysis (parsed : JSValue) (r : GeminiService.Returned)
    : Prop :=
  (∃ items, parsed = JArr items ∧ r = GeminiService.ArrayWithAnalysis items)
  ∨ (∃ props props',
       parsed = JObj props ∧ r = GeminiService.Parsed (JObj props')
       ∧ (∃ a, lookupProp (str "analysis") props' = Some (JArr a))
       ∧ (∀ k, k ≠ str "analysis" →
            lookupProp k props' = lookupProp k props)
       ∧ (∀ a, lookupProp (str "analysis") props = Some (JArr a) →
            props' = props)
       ∧ ((∀ a, lookupProp (str "analysis") props ≠ Some (JArr a)) →
            lookupProp (str "analysis") props' = Some (JArr []))).

(** *** The normalizer on any input *)

(** The identifier and the criteria of an element of the model's
    [analysis], as line 401 and lines 404-406 find them. *)
Definition rawOptionId (a : JSValue) : JSValue :=
  propOf a "optionId" ?? propOf a "option_id" ?? propOf a "opt_id"
  ?? propOf a "id" ?? JStr (str "unknown").

Definition rawCriteria (a : JSValue) : list JSValue :=
  match propOf a "criteriaAnalysis" ?? propOf a "criteria_analysis"
        ?? propOf a "criteria" ?? JArr [] with
  | JArr items => items
  | _ => []
  end.

(** A comma or a white space character. *)
Definition isSeparator (c : N) : bool :=
  (N.eqb c (ch ",") || isWhiteSpace c)%bool.

Definition solid (c : N) : bool := negb (isSeparator c).

(** *** The application *)

(** A decision with at least one criterion and two options, the criteria
    and the options each with identifiers of their own. *)
Definition wellFormed (s : App.DecisionState) : Prop :=
  NoDup (map App.c_id (App.criteria s))
  ∧ NoDup (map App.o_id (App.options s))
  ∧ 1 ≤ length (App.criteria s)
  ∧ 2 ≤ length (App.options s).

Definition allNamed (s : App.DecisionState) : Prop :=
  Forall (λ o, App.o_name o ≠ []) (App.options s).

(** The call that the service makes for a decision, with the key of the
    world. *)
Definition callFor (w : GeminiService.World) (s : App.DecisionState)
    : JSValue * list GeminiService.Content :=
  (GeminiService.envVar w "API_KEY",
   GeminiService.buildContents (App.serviceData s)).

(** A file that is not above the limit, and the attachment made of it. *)
Definition fits (f : App.File * jsstring) : bool :=
  (App.f_size f.1 <=? 4194304)%N.

Definition attachmentOf (f : App.File * jsstring) : App.Attachment :=
  {| App.a_id := f.2; App.a_name := App.f_name f.1;
     App.a_mimeType := App.f_type f.1;
     App.a_data := App.secondPiece (App.f_dataUrl f.1) |}.

Definition withAttachments (o : App.DecisionOption)
    (attachments : list App.Attachment) : App.DecisionOption :=
  {| App.o_id := App.o_id o; App.o_name := App.o_name o;
     App.o_description := App.o_description o;
     App.o_attachments := attachments |}.

(** What holds of every configuration of a run that starts in the world
    [w]. *)
Definition invariant (w : GeminiService.World) (c : App.Config) : Prop :=
  wellFormed (App.state (App.app c))
  ∧ Forall (λ u, wellFormed (App.up_state u)) (App.uploads c)
  ∧ GeminiService.env (App.world c) = GeminiService.env w
  ∧ ∃ decisions,
      GeminiService.calls (App.world c)
      = GeminiService.calls w ++ map (callFor w) decisions
      ∧ Forall (λ s, wellFormed s ∧ allNamed s) decisions.

(** The first render, and the configuration after a sequence of events. *)
Definition firstRender (w : GeminiService.World) : App.Config :=
  {| App.app := {| App.step := 0; App.state := App.INITIAL_STATE;
                   App.error := None |};
     App.world := w; App.uploads := []; App.analyses := [] |}.

Definition runFrom `{Host} `{GeminiService.ModelInvoker} (c : App.Config)
    (events : list App.Event) : App.Config :=
  fold_left App.after events c.

(** The events can happen in turn, with new identifiers. *)
Fixpoint canRun `{Host} `{GeminiService.ModelInvoker} (c : App.Config)
    (events : list App.Event) : Prop :=
  match events with
  | [] => True
  | e :: rest =>
      App.enabled c e ∧ App.freshIds c e ∧ canRun (App.after c e) rest
  end.

(** Calls of [saveCase] one after the other, each on the storage that the
    call before it left: a call is given by the readings of the clock and
    the two arguments.  With the storage at the end comes what each call
    returned or threw. *)
Fixpoint saveAll `{Host} (saves : list (Clock * jsstring * JSValue))
    (st : Storage) : Storage * list (SaveExn + JSValue) :=
  match saves with
  | [] => (st, [])
  | (clock, caseName, state) :: rest =>
      let r := saveCase clock caseName state st in
      let rs := saveAll rest r.1 in
      (rs.1, r.2 :: rs.2)
  end.

(** The entries that the calls returned, in the order of the calls. *)
Fixpoint returnedEntries (rs : list (SaveExn + JSValue)) : list JSValue :=
  match rs with
  | [] => []
  | inr entry :: rest => entry :: returnedEntries rest
  | inl _ :: rest => returnedEntries rest
  end.

(** The JSON text of a value reads back as the value. *)
Definition readsBack `{Host} (v : JSValue) : Prop :=
  JSON_parse (jsonText v) = Some v.

(** Calls of [analyzeDecision] of [decisionSherlock.ts] one after the other
    in one process, each in the world that the call before it left; before
    each call the page may have set [globalThis.__API_KEY__] anew. *)
Fixpoint analyzeAll `{Host} `{ModelInvoker}
    (requests : list (JSValue * DecisionState)) (w : World)
    : World * list (Result SherlockResult) :=
  match requests with
  | [] => (w, [])
  | (fallback, data) :: rest =>
      let r := analyzeDecision data
                 {| env := env w; global_API_KEY := fallback;
                    trace := trace w |} in
      let rs := analyzeAll rest r.1 in
      (rs.1, r.2 :: rs.2)
  end.

(** What one call with a key adds to the trace, and what it returns. *)
Definition callEvents (key : JSValue) (data : DecisionState) : list Event :=
  [EvCreateSystemPrompt; EvBuildUserPrompt;
   EvGenerateContent key (buildContents data)].

Definition callOutcome `{Host} `{ModelInvoker} (key : JSValue)
    (data : DecisionState) : Result SherlockResult :=
  generateContent key (buildContents data) ≫= processResponse.

(** * Inputs of the examples *)

(** The scenario of the specification: a score of 150 comes out as 100. *)
Definition scenarioText : jsstring :=
  str "###RESULT_JSON###" ++ [10%N] ++
  json "{'analysis':[{'optionId':'o1','criteriaAnalysis':[{'criteriaId':'c1','score':150,'reasoning':'x'}],'pros':[],'cons':[]}],'verdict':'v','winnerId':'o1','recommendation':'r'}".


(** Two options with means 90 and 72 and no winner. *)
Definition twoOptions : JSValue :=
  JObj [(str "analysis", JArr [
           JObj [(str "optionId", JStr (str "o1"));
                 (str "criteriaAnalysis", JArr [
                    JObj [(str "criteriaId", JStr (str "c1"));
                          (str "score", JNum (Fin 95))];
                    JObj [(str "criteriaId", JStr (str "c2"));
                          (str "score", JNum (Fin 85))]])];
           JObj [(str "optionId", JStr (str "o2"));
                 (str "criteriaAnalysis", JArr [
                    JObj [(str "criteriaId", JStr (str "c1"));
                          (str "score", JNum (Fin 72))]])]]);
        (str "verdict", JStr (str "v"))].

Definition emptyResult : SherlockResult :=
  {| analysis := []; verdict := JStr []; winnerId := JStr [];
     recommendation := JStr []; summary := JUndefined;
     topRisks := JUndefined; nextSteps := JUndefined |}.

Definition resultOf (r : Result SherlockResult) : SherlockResult :=
  match r with inr x => x | inl _ => emptyResult end.

Definition twoOptionsFinal : SherlockResult :=
  Eval vm_compute in resultOf (normalize (H := RefHost.host) twoOptions).

Definition scenarioFinal : SherlockResult :=
  Eval vm_compute in resultOf (processText (H := RefHost.host) scenarioText).

(** One option, and a winner that names none. *)
Definition danglingWinnerText : jsstring :=
  str "###RESULT_JSON###" ++
  json "{'analysis':[{'optionId':'o1','criteriaAnalysis':[{'criteriaId':'c1','score':80,'reasoning':'x'}],'pros':[],'cons':[]}],'verdict':'v','winnerId':'o9','recommendation':'r'}".

Definition danglingWinnerFinal : SherlockResult :=
  Eval vm_compute in
    resultOf (processText (H := RefHost.host) danglingWinnerText).

(** A model that answers every request with the same response, or fails. *)
Definition constantModel (answer : Exn + Response) : ModelInvoker :=
  λ _ _, answer.

Definition noData : DecisionState :=
  {| title := JStr []; description := JStr []; criteria := [];
     options := [] |}.

Definition bareWorld (fallback : JSValue) : World :=
  {| env := ∅; global_API_KEY := fallback; trace := [] |}.

(** Four requests in one process: the page sets the fallback before the
    second, changes it before the third and removes it before the fourth. *)
Definition fourRequests : list (JSValue * DecisionState) :=
  [(JUndefined, noData); (JStr (str "dev-key"), noData);
   (JStr (str "other-key"), noData); (JUndefined, noData)].

(** A fence with a tag that is not [json]. *)
Definition jsFencedText : jsstring :=
  str "###RESULT_JSON###```js" ++ [10%N] ++ str "{}" ++ [10%N] ++ str "```".

Definition markerOnlyText : jsstring := str "###RESULT_JSON###".

Definition fencedScenarioPayload : jsstring :=
  [10%N] ++ str "```JSON" ++ [10%N] ++ json "{'analysis':[]}" ++ [10%N]
  ++ str "```" ++ [10%N].

(** An object with a trailing comma, and a text no attempt can read. *)
Definition trailingCommaText : jsstring := json "{'a':[1,2, ], }".
Definition brokenText : jsstring := json "see {oops} here".
Definition twoPropertyText : jsstring := json "{'a':1,'b':2,}".
Definition proseText : jsstring := json "so: {'a':1,'b':2,} ok?".

(** A response whose [text] accessor throws, with and without an
    [outputText] to fall back on. *)
Definition throwingResponse : Response := RWithText (inl (Thrown 7)) [].
Definition throwingWithOutputText : Response :=
  RWithText (inl (Thrown 7)) [(str "outputText", JStr (str "hello"))].

(** A payload of the advertised schema. *)
Definition conformingInner : jsstring :=
  json "'analysis':[{'optionId':'o1','criteriaAnalysis':[{'criteriaId':'c1','score':88,'reasoning':'x'},{'criteriaId':'c2','score':0,'reasoning':'y','confidence':55.5}],'pros':['p'],'cons':[]},{'optionId':'o2','criteriaAnalysis':[],'pros':[],'cons':[]}],'verdict':'v','winnerId':'o1','recommendation':'r'".

Definition conformingText : jsstring :=
  ch "{" :: conformingInner ++ [ch "}"].

Definition conformingParsed : JSValue :=
  Eval vm_compute in default JNull (RefHost.parse conformingText).

Definition conformingShape : list OptionShape :=
  [(str "o1", [(str "c1", 88%Z); (str "c2", 0%Z)]); (str "o2", [])].

(** An [analysis] that is a single option object, not an array. *)
Definition singleObjectAnalysis : JSValue :=
  JObj [(str "analysis",
         JObj [(str "optionId", JStr (str "o1"));
               (str "criteriaAnalysis", JArr [])])].

(** A decision state, as a share link and the saved cases carry it. *)
Definition sharedState : JSValue :=
  JObj [(str "title", JStr (str "Flat A vs flat B?"));
        (str "description", JStr []);
        (str "criteria",
         JArr [JObj [(str "id", JStr (str "c1"));
                     (str "name", JStr (str "Rent"));
                     (str "weight", JNum (Fin 8))]]);
        (str "options",
         JArr [JObj [(str "id", JStr (str "o1"));
                     (str "name", JStr (str "Option A"));
                     (str "description", JStr []);
                     (str "attachments", JArr [])]]);
        (str "result", JNull)].

(** A state whose title is the euro sign. *)
Definition euroState : JSValue := JObj [(str "title", JStr [8364%N])].

Definition pageLocation : Location :=
  {| origin := str "https://sherlock.example"; pathname := str "/app";
     shareParam := None |}.

Definition sharedUrl : jsstring :=
  Eval vm_compute in
    match encodeStateToUrl (H := RefHost.host) pageLocation sharedState with
    | inr url => url
    | inl _ => []
    end.

(** A storage that holds one saved case and has room for more, and the
    readings of the clock for the next one. *)
Definition earlierCase : JSValue :=
  JObj [(str "id", JStr (str "case_1700000000000"));
        (str "name", JStr (str "First"));
        (str "state", JObj [(str "title", JStr (str "First"))]);
        (str "createdAt", JStr (str "2023-11-14T22:13:20.000Z"))].

Definition roomyStorage (stored : option jsstring) : Storage :=
  {| items := from_option (λ text, {[ STORAGE_KEY := text ]}) ∅ stored;
     hasRoom := λ _ _, true |}.

Definition oneCaseStorage : Storage :=
  roomyStorage
    (Some (jsonText (H := RefHost.host) (JArr [earlierCase]))).

Definition laterClock : Clock :=
  {| dateNow := 1700000360000;
     isoForName := str "2023-11-14T22:19:20.000Z";
     isoForCreatedAt := str "2023-11-14T22:19:20.001Z" |}.

Definition laterCase : JSValue :=
  caseEntry (H := RefHost.host) laterClock (JStr (str "Second")) sharedState.

(** Three saves in a row: the second one has no name to fall back on, as
    its state is [null]. *)
Definition lastClock : Clock :=
  {| dateNow := 1700000720000;
     isoForName := str "2023-11-14T22:25:20.000Z";
     isoForCreatedAt := str "2023-11-14T22:25:20.001Z" |}.

Definition lastCase : JSValue :=
  caseEntry (H := RefHost.host) lastClock (JStr (str "Third")) sharedState.

Definition threeSaves : list (Clock * jsstring * JSValue) :=
  [(laterClock, str "Second", sharedState);
   (laterClock, [], JNull);
   (lastClock, str "Third", sharedState)].

(** A storage whose saved cases were overwritten by something else. *)
Definition corruptStorage : Storage := roomyStorage (Some (str "oops")).
Definition objectStorage : Storage := roomyStorage (Some (str "{}")).

(** A world with a key in [process.env]. *)
Definition keyedWorld : GeminiService.World :=
  {| GeminiService.env := {[ "API_KEY" := JStr (str "k") ]};
     GeminiService.global_API_KEY := JUndefined;
     GeminiService.calls := [] |}.

Definition constantGemini (answer : Exn + Response)
    : GeminiService.ModelInvoker :=
  λ _ _, answer.

(** A response whose text is a result without [analysis], one whose text is
    [null] and one whose text has a score out of range. *)
Definition textResponse (text : jsstring) : Response :=
  RData (JObj [(str "text", JStr text)]).

Definition verdictOnlyText : jsstring :=
  str "###RESULT_JSON###" ++ json "{'verdict':'v','winnerId':'o1'}".

Definition nullText : jsstring := str "###RESULT_JSON###null".

(** Two options, the first with two attachments, the second with none. *)
Definition pdfAttachment : Attachment :=
  {| att_name := JStr (str "lease.pdf");
     att_mimeType := JStr (str "application/pdf");
     att_data := JStr (str "JVBERi0=") |}.

Definition unnamedAttachment : Attachment :=
  {| att_name := JStr [];
     att_mimeType := JStr (str "image/png");
     att_data := JStr (str "iVBORw==") |}.

Definition attachedData : DecisionState :=
  {| title := JStr (str "Flats"); description := JStr [];
     criteria := [];
     options :=
       [{| opt_id := JStr (str "o1");
           opt_attachments := Some [pdfAttachment; unnamedAttachment] |};
        {| opt_id := JStr (str "o2"); opt_attachments := None |}] |}.

(** An element of the model's analysis with other field names, a score out of
    range and a confidence written as text. *)
Definition looseOption : JSValue :=
  JObj [(str "option_id", JNum (Fin 7));
        (str "criteria",
         JArr [JObj [(str "id", JStr (str "c1"));
                     (str "sc", JNum (Fin 150));
                     (str "confidence", JStr (str "12.5"))];
               JNum (Fin (7 # 2))]);
        (str "positives", JArr [JStr (str "near"); JNum (Fin 2)])].

Definition emptyOption : ParsedOptionAnalysis :=
  {| optionId := []; criteriaAnalysis := []; pros := []; cons := [] |}.

Definition looseOptionFirstPass : ParsedOptionAnalysis :=
  Eval vm_compute in
    match normalizeOption (H := RefHost.host) looseOption with
    | inr o => o
    | inl _ => emptyOption
    end.

Definition looseResult : SherlockResult :=
  Eval vm_compute in
    resultOf (normalize (H := RefHost.host)
                (JObj [(str "analysis", JArr [looseOption; JNum (Fin 1)])])).

(** A session: a new case is given a title, a third option is added, a
    file of five bytes is chosen for the first option, which is renamed while
    the file is read, and the evidence is analyzed. *)
Definition leaseFile : App.File :=
  {| App.f_name := str "lease.pdf"; App.f_type := str "application/pdf";
     App.f_size := 5;
     App.f_dataUrl := str "data:application/pdf;base64,JVBERi0=" |}.

Definition hugeFile : App.File :=
  {| App.f_name := str "scan.png"; App.f_type := str "image/png";
     App.f_size := 4194305;
     App.f_dataUrl := str "data:image/png;base64,iVBORw==" |}.

Definition sessionEvents : list App.Event :=
  [App.StartNew; App.SetTitle (str "Flats"); App.NextToCriteria;
   App.NextToOptions; App.AddOption (str "x1");
   App.ChooseFiles (str "o1")
     (Some [(hugeFile, str "a1"); (leaseFile, str "a2")]);
   App.SetOptionName (str "o1") (str "Flat A");
   App.UploadRead 0; App.Analyze; App.AnalysisDelivered 0 true].

Definition sessionEnd : App.Config :=
  Eval vm_compute in
    runFrom (H := RefHost.host)
      (H0 := constantGemini (inr (textResponse verdictOnlyText)))
      (firstRender keyedWorld) sessionEvents.
(** * Properties *)


(** ** Arithmetic of the number model *)

Lemma Qltb_lt (a b : Q) : Qltb a b = true ↔ (a < b)%Q.
Proof.
  unfold Qltb. rewrite negb_true_iff.
  split.
  - intros Hle. apply Qnot_le_lt. intros Hba.
    apply Qle_bool_iff in Hba. congruence.
  - intros Hlt. destruct (Qle_bool b a) eqn:E; [|reflexivity].
    apply Qle_bool_iff in E. exfalso. exact (Qlt_not_le _ _ Hlt E).
Qed.

Lemma Qltb_ge (a b : Q) : Qltb a b = false ↔ (b <= a)%Q.
Proof.
  unfold Qltb. rewrite negb_false_iff. apply Qle_bool_iff.
Qed.


Lemma round_nearest (q : Q) :
  let z := Qfloor (q + (1 # 2)) in
  (q - (1 # 2) < inject_Z z)%Q ∧ (inject_Z z <= q + (1 # 2))%Q.
Proof.
  intros z. split.
  - pose proof (Qlt_floor (q + (1 # 2))) as Hlt. fold z in Hlt.
    rewrite inject_Z_plus in Hlt.
    apply Qplus_lt_l with (z := 1%Q).
    eapply Qle_lt_trans; [|exact Hlt].
    ring_simplify. apply Qle_refl.
  - apply Qfloor_le.
Qed.

Lemma round_in_range (q : Q) :
  (0 <= q)%Q → (q <= 100)%Q → (0 ≤ Qfloor (q + (1 # 2)) ≤ 100)%Z.
Proof.
  intros H0 H100. split.
  - change 0%Z with (Qfloor 0). apply Qfloor_resp_le.
    apply Qle_trans with q; [exact H0|].
    rewrite <- (Qplus_0_r q) at 1. apply Qplus_le_r. discriminate.
  - change 100%Z with (Qfloor (100 + (1 # 2))). apply Qfloor_resp_le.
    apply Qplus_le_l. exact H100.
Qed.

Section Clamp.
Context `{Host}.


Lemma clampScore_unfold (n : JSValue) :
  clampScore n = v ← ToNumber (or_else n (JNum (Fin 0))); mret (clampNumber v).
Proof. reflexivity. Qed.

Lemma clampNumber_isScore (v : JSNum) : isScore (clampNumber v).
Proof.
  unfold clampNumber.
  destruct v as [| | |q]; cbn [isNaN num_lt Math_round].
  - exists 0%Z. split; [reflexivity|lia].
  - exists 100%Z. split; [reflexivity|lia].
  - exists 0%Z. split; [reflexivity|lia].
  - destruct (Qltb q 0) eqn:Hneg.
    { exists 0%Z. split; [reflexivity|lia]. }
    destruct (Qltb 100 q) eqn:Hbig.
    { exists 100%Z. split; [reflexivity|lia]. }
    apply Qltb_ge in Hneg, Hbig.
    exists (Qfloor (q + (1 # 2))). split; [reflexivity|].
    apply round_in_range; assumption.
Qed.

Lemma clampScore_isScore (n : JSValue) (r : JSNum) :
  clampScore n = inr r → isScore r.
Proof.
  rewrite clampScore_unfold.
  destruct (ToNumber (or_else n (JNum (Fin 0)))) as [e|v]; simpl; [discriminate|].
  intros [= <-]. apply clampNumber_isScore.
Qed.

Lemma clampNumber_comp (q q' : Q) :
  q == q' → clampNumber (Fin q) = clampNumber (Fin q').
Proof.
  intros E. unfold clampNumber, Qltb. cbn [isNaN num_lt Math_round].
  unfold Qltb.
  rewrite (Qleb_comp 0%Q 0%Q (Qeq_refl 0) q q' E).
  rewrite (Qleb_comp q q' E 100%Q 100%Q (Qeq_refl 100)).
  rewrite (Qfloor_comp (q + (1 # 2)) (q' + (1 # 2))); [reflexivity|].
  rewrite E. reflexivity.
Qed.

Lemma clampScore_number (q : Q) :
  clampScore (JNum (Fin q)) = inr (clampNumber (Fin q)).
Proof.
  rewrite clampScore_unfold. unfold or_else. cbn [truthy].
  destruct (Qeq_bool q 0) eqn:E; cbn [negb ToNumber]; [|reflexivity].
  apply Qeq_bool_eq in E.
  rewrite (clampNumber_comp q 0 E). reflexivity.
Qed.

Lemma clampScore_negative (q : Q) :
  (q < 0)%Q → clampScore (JNum (Fin q)) = inr (Fin 0).
Proof.
  intros Hq. rewrite clampScore_number. unfold clampNumber.
  cbn [isNaN num_lt]. apply Qltb_lt in Hq. rewrite Hq. reflexivity.
Qed.

Lemma clampScore_above (q : Q) :
  (100 < q)%Q → clampScore (JNum (Fin q)) = inr (Fin 100).
Proof.
  intros Hq. rewrite clampScore_number. unfold clampNumber.
  cbn [isNaN num_lt].
  assert (Hn : Qltb q 0 = false).
  { apply Qltb_ge. apply Qlt_le_weak. eapply Qlt_trans; [|exact Hq]. reflexivity. }
  apply Qltb_lt in Hq. rewrite Hn, Hq. reflexivity.
Qed.

Lemma clampScore_in_range (q : Q) :
  (0 <= q)%Q → (q <= 100)%Q →
  clampScore (JNum (Fin q)) = inr (Fin (inject_Z (Qfloor (q + (1 # 2))))).
Proof.
  intros H0 H100. rewrite clampScore_number. unfold clampNumber.
  cbn [isNaN num_lt Math_round].
  apply Qltb_ge in H0, H100. rewrite H0, H100. reflexivity.
Qed.

(** What [Number] turns into [NaN] is clamped to 0. *)
Lemma clampScore_NaN (n : JSValue) :
  ToNumber (or_else n (JNum (Fin 0))) = inr NaN → clampScore n = inr (Fin 0).
Proof. intros E. rewrite clampScore_unfold, E. reflexivity. Qed.

(** The falsy inputs are replaced by 0 before the conversion. *)
Lemma clampScore_falsy (n : JSValue) :
  truthy n = false → clampScore n = inr (Fin 0).
Proof.
  intros E. rewrite clampScore_unfold. unfold or_else. rewrite E. reflexivity.
Qed.

Lemma clampScore_plain_object (props : list (jsstring * JSValue)) :
  lookupProp (str "toString") props = None →
  clampScore (JObj props) = inr (Fin 0).
Proof.
  intros E. apply clampScore_NaN. unfold or_else. cbn [truthy ToNumber].
  unfold objectToPrimitive. rewrite E.
  cbn [mbind Result_bind mret Result_ret].
  rewrite StringToNumber_object. reflexivity.
Qed.

Lemma clampScore_true : clampScore (JBool true) = inr (Fin 1).
Proof. reflexivity. Qed.

Lemma clampScore_own_toString (props : list (jsstring * JSValue)) (x : JSValue) :
  lookupProp (str "toString") props = Some x →
  clampScore (JObj props) = inl TypeError.
Proof.
  intros E. rewrite clampScore_unfold. unfold or_else. simpl.
  unfold objectToPrimitive. rewrite E. reflexivity.
Qed.

End Clamp.

(** ** Exceptions and loops *)

Lemma bind_inr {A B} (m : Result A) (k : A → Result B) (r : B) :
  m ≫= k = inr r → ∃ a, m = inr a ∧ k a = inr r.
Proof. destruct m as [e|a]; [discriminate|]. intros E. exists a. auto. Qed.

Lemma bind_inl {A B} (m : Result A) (k : A → Result B) (e : Exn) :
  m ≫= k = inl e → m = inl e ∨ ∃ a, m = inr a ∧ k a = inl e.
Proof.
  destruct m as [e'|a]; intros E.
  - left. injection E as ->. reflexivity.
  - right. exists a. auto.
Qed.

Ltac inv_binds :=
  repeat match goal with
         | E : _ ≫= _ = inr _ |- _ =>
             let a := fresh "a" in
             let Ea := fresh "Ea" in
             apply bind_inr in E as (a & Ea & E)
         | E : mret _ = inr _ |- _ => injection E as E
         end.

Lemma mapArray_inr {A B} (f : A → Result B) (l : list A) (r : list B) :
  mapArray f l = inr r → Forall2 (λ x y, f x = inr y) l r.
Proof.
  revert r. induction l as [|x t IH]; intros r E; cbn [mapArray] in E.
  - injection E as <-. constructor.
  - inv_binds. subst r. constructor; [assumption|]. apply IH. assumption.
Qed.

Lemma mapArray_Forall {A B} (f : A → Result B) (P : B → Prop)
    (l : list A) (r : list B) :
  (∀ x y, f x = inr y → P y) → mapArray f l = inr r → Forall P r.
Proof.
  intros Hf E. apply mapArray_inr in E.
  induction E; constructor; eauto.
Qed.

Lemma mapArray_total {A B} (f : A → Result B) (l : list A) :
  Forall (λ x, ∃ y, f x = inr y) l → ∃ r, mapArray f l = inr r.
Proof.
  induction 1 as [|x t [y Ey] _ [r Er]]; cbn [mapArray].
  - eexists. reflexivity.
  - rewrite Ey, Er. eexists. reflexivity.
Qed.

(** ** Scores of a normalized result *)


Section Scores.
Context `{Host}.

Lemma renormalizeCriterion_ok ca ca' :
  renormalizeCriterion ca = inr ca' → criterionOk ca'.
Proof.
  unfold renormalizeCriterion. intros E. inv_binds. subst ca'.
  split; cbn.
  - eapply clampScore_isScore; eassumption.
  - intros c ->. destruct (confidence ca) as [c0|]; [|discriminate].
    inv_binds. subst.
    eapply clampScore_isScore; eassumption.
Qed.

Lemma renormalizeOption_ok opt opt' :
  renormalizeOption opt = inr opt' → Forall criterionOk (criteriaAnalysis opt').
Proof.
  unfold renormalizeOption. intros E. inv_binds. subst opt'. cbn.
  eapply mapArray_Forall; [|eassumption]. apply renormalizeCriterion_ok.
Qed.

Lemma normalize_scoresOk parsedRaw r :
  normalize parsedRaw = inr r → scoresOk r.
Proof.
  unfold normalize. intros E. inv_binds. subst r. unfold scoresOk. cbn.
  eapply mapArray_Forall; [|eassumption]. apply renormalizeOption_ok.
Qed.

Lemma inferWinner_analysis final :
  analysis (inferWinner final) = analysis final.
Proof.
  unfold inferWinner.
  destruct (negb (truthy (winnerId final)) && _)%bool; [|reflexivity].
  destruct (sort _ _); reflexivity.
Qed.

Lemma processText_scoresOk rawText r :
  processText rawText = inr r → scoresOk r.
Proof.
  unfold processText. intros E. inv_binds. subst r.
  unfold scoresOk. rewrite inferWinner_analysis.
  eapply normalize_scoresOk. eassumption.
Qed.

Lemma processResponse_scoresOk response r :
  processResponse response = inr r → scoresOk r.
Proof.
  unfold processResponse. intros E. inv_binds. subst r.
  unfold scoresOk. rewrite inferWinner_analysis.
  eapply normalize_scoresOk. eassumption.
Qed.

End Scores.

(** ** C1: the clamp rule and the scores of a result *)



(** The example of the specification: 87.6 is rounded to 88. *)
Example clampScore_87_6 :
  clampScore (H := RefHost.host) (JNum (Fin (876 # 10))) = inr (Fin 88).
Proof. reflexivity. Qed.


(** ** Winner inference *)

Lemma sum_left_finite (cas : list ParsedCriteriaAnalysis) (a : Q) :
  Forall (λ c, ∃ q, score c = Fin q) cas →
  ∃ q, fold_left (λ s c, num_add s (score c)) cas (Fin a) = Fin q
       ∧ q == a + sumScores cas.
Proof.
  intros Hfin. revert a.
  induction Hfin as [|c t [qc Hc] _ IH]; intros a; cbn [fold_left sumScores fold_right].
  - exists a. split; [reflexivity|]. ring.
  - rewrite Hc. cbn [num_add numValue].
    destruct (IH (a + qc)%Q) as (q & Eq & Hq).
    exists q. split; [exact Eq|]. rewrite Hq.
    change (fold_right _ 0%Q t) with (sumScores t). ring.
Qed.

Lemma average_mean (opt : ParsedOptionAnalysis) :
  finiteScores opt → ∃ q, average opt = Fin q ∧ q == meanScore opt.
Proof.
  unfold finiteScores, average, meanScore. intros Hfin.
  destruct (criteriaAnalysis opt) as [|c t] eqn:E.
  - exists 0%Q. split; reflexivity.
  - destruct (sum_left_finite (c :: t) 0 Hfin) as (s & Es & Hs).
    rewrite Es. unfold num_of_nat, num_div.
    assert (Hn : ¬ inject_Z (Z.of_nat (length (c :: t))) == 0).
    { cbn [length]. unfold Qeq. cbn. lia. }
    destruct (Qeq_bool (inject_Z (Z.of_nat (length (c :: t)))) 0) eqn:Eb.
    { apply Qeq_bool_eq in Eb. contradiction. }
    eexists. split; [reflexivity|].
    rewrite Hs. rewrite Qplus_0_l. reflexivity.
Qed.

Lemma byAvgDesc_positive (x y : Candidate) (qx qy : Q) :
  avg x = Fin qx → avg y = Fin qy →
  num_lt (Fin 0) (byAvgDesc x y) = Qltb qx qy.
Proof.
  intros Ex Ey. unfold byAvgDesc, num_sub. rewrite Ex, Ey.
  cbn [num_opp num_add num_lt].
  destruct (Qltb qx qy) eqn:E.
  - apply Qltb_lt. apply Qltb_lt in E.
    apply Qplus_lt_l with (z := qx). ring_simplify. exact E.
  - apply Qltb_ge. apply Qltb_ge in E.
    apply Qplus_le_l with (z := qx). ring_simplify. exact E.
Qed.

(** The first element of the sorted candidates is the first option whose
    mean no other option exceeds. *)
Lemma sort_candidates_head (opts : list ParsedOptionAnalysis) :
  Forall finiteScores opts → opts ≠ [] →
  ∃ before w after rest,
    opts = before ++ w :: after
    ∧ sort byAvgDesc (map toCandidate opts) = toCandidate w :: rest
    ∧ Forall (λ o, (meanScore o < meanScore w)%Q) before
    ∧ Forall (λ o, (meanScore o <= meanScore w)%Q) after.
Proof.
  induction 1 as [|x t Hx Ht IH]; intros Hne; [congruence|].
  destruct t as [|y t'].
  - exists [], x, [], []. repeat split; constructor.
  - destruct IH as (before & w & after & rest & Et & Es & Hb & Ha); [discriminate|].
    assert (Hw : finiteScores w).
    { rewrite Forall_forall in Ht. apply Ht. rewrite Et. set_solver. }
    destruct (average_mean x Hx) as (qx & Ex & Hqx).
    destruct (average_mean w Hw) as (qw & Ew & Hqw).
    change (sort byAvgDesc (map toCandidate (x :: y :: t')))
      with (insertSorted byAvgDesc (toCandidate x)
              (sort byAvgDesc (map toCandidate (y :: t')))).
    rewrite Es. cbn [insertSorted].
    rewrite (byAvgDesc_positive (toCandidate x) (toCandidate w) qx qw Ex Ew).
    destruct (Qltb qx qw) eqn:Hlt.
    + apply Qltb_lt in Hlt.
      exists (x :: before), w, after, (insertSorted byAvgDesc (toCandidate x) rest).
      split; [rewrite Et; reflexivity|].
      split; [reflexivity|].
      split; [|exact Ha].
      constructor; [|exact Hb]. rewrite <- Hqx, <- Hqw. exact Hlt.
    + apply Qltb_ge in Hlt.
      assert (Hwx : (meanScore w <= meanScore x)%Q)
        by (rewrite <- Hqx, <- Hqw; exact Hlt).
      exists [], x, (y :: t'), (toCandidate w :: rest).
      split; [reflexivity|].
      split; [reflexivity|].
      split; [constructor|].
      rewrite Et. apply Forall_app. split.
      * eapply Forall_impl; [exact Hb|]. cbn. intros o Ho.
        apply Qlt_le_weak. eapply Qlt_le_trans; eassumption.
      * constructor; [exact Hwx|].
        eapply Forall_impl; [exact Ha|]. cbn. intros o Ho.
        eapply Qle_trans; eassumption.
Qed.

Lemma isScore_finite (n : JSNum) : isScore n → ∃ q, n = Fin q.
Proof. intros (z & -> & _). eexists. reflexivity. Qed.

Lemma scoresOk_finite (r : SherlockResult) :
  scoresOk r → Forall finiteScores (analysis r).
Proof.
  unfold scoresOk, finiteScores. intros Hok.
  eapply Forall_impl; [exact Hok|]. cbn. intros opt Hopt.
  eapply Forall_impl; [exact Hopt|]. cbn. intros c [Hc _].
  apply isScore_finite. exact Hc.
Qed.

Lemma inferWinner_skipped (final : SherlockResult) :
  (truthy (winnerId final) = true ∨ length (analysis final) ≤ 1) →
  inferWinner final = final.
Proof.
  unfold inferWinner. intros [Ht|Hl].
  - rewrite Ht. reflexivity.
  - destruct (Nat.ltb_spec 1 (length (analysis final))) as [Hlt|_]; [lia|].
    rewrite andb_false_r. reflexivity.
Qed.

Lemma inferWinner_fires (final : SherlockResult) :
  truthy (winnerId final) = false → 1 < length (analysis final) →
  Forall finiteScores (analysis final) →
  ∃ before w after,
    analysis final = before ++ w :: after
    ∧ inferWinner final = setWinner final (JStr (optionId w))
    ∧ Forall (λ o, (meanScore o < meanScore w)%Q) before
    ∧ Forall (λ o, (meanScore o <= meanScore w)%Q) after.
Proof.
  intros Ht Hl Hfin.
  destruct (sort_candidates_head (analysis final) Hfin)
    as (before & w & after & rest & Ea & Es & Hb & Ha).
  { intros E. rewrite E in Hl. cbn in Hl. lia. }
  exists before, w, after. split; [exact Ea|]. split; [|split; assumption].
  unfold inferWinner. rewrite Ht.
  destruct (Nat.ltb_spec 1 (length (analysis final))) as [_|Hge]; [|lia].
  cbn [negb andb].
  change (map _ (analysis final)) with (map toCandidate (analysis final)).
  rewrite Es. reflexivity.
Qed.

(** C3.  In a normalized result whose winner identifier is empty: with more
    than one option analysis, the winner becomes the identifier of the option
    with the highest arithmetic mean of scores (0 without scores), the first
    such option in the sequence when several share that mean: every option
    before it has a strictly lower mean and no option after it a higher one;
    with zero or one option analyses the result, and so its winner, is left
    as normalization produced it. *)
Theorem C3_winner_inference `{Host} (parsedRaw : JSValue)
    (final : SherlockResult) :
  normalize parsedRaw = inr final →
  winnerId final = JStr [] →
  (1 < length (analysis final) →
     ∃ before w after,
       analysis final = before ++ w :: after
       ∧ inferWinner final = setWinner final (JStr (optionId w))
       ∧ winnerId (inferWinner final) = JStr (optionId w)
       ∧ Forall (λ o, (meanScore o < meanScore w)%Q) before
       ∧ Forall (λ o, (meanScore o <= meanScore w)%Q) after)
  ∧ (length (analysis final) ≤ 1 →
       inferWinner final = final ∧ winnerId (inferWinner final) = JStr []).
Proof.
  intros Hnorm Hw. split.
  - intros Hl.
    destruct (inferWinner_fires final) as (before & w & after & Ea & Ei & Hb & Ha).
    + rewrite Hw. reflexivity.
    + exact Hl.
    + apply scoresOk_finite. eapply normalize_scoresOk. exact Hnorm.
    + exists before, w, after. rewrite Ei. repeat split; assumption.
  - intros Hl. rewrite inferWinner_skipped by (right; exact Hl). auto.
Qed.

(** C9.  Winner inference changes nothing but [winnerId]: the analysis with
    all its elements, verdict, recommendation, summary, topRisks and
    nextSteps are the same before and after, and a winner identifier that is a
    non-empty string (any truthy value, in fact) is kept. *)
Theorem C9_inference_frame (final : SherlockResult) :
  analysis (inferWinner final) = analysis final
  ∧ verdict (inferWinner final) = verdict final
  ∧ recommendation (inferWinner final) = recommendation final
  ∧ summary (inferWinner final) = summary final
  ∧ topRisks (inferWinner final) = topRisks final
  ∧ nextSteps (inferWinner final) = nextSteps final
  ∧ (∀ c s, winnerId final = JStr (c :: s) →
       winnerId (inferWinner final) = JStr (c :: s))
  ∧ (truthy (winnerId final) = true → inferWinner final = final).
Proof.
  assert (Hframe : ∃ w, inferWinner final = setWinner final w).
  { unfold inferWinner.
    destruct (negb (truthy (winnerId final)) && _)%bool.
    - destruct (sort _ _) as [|c ?].
      + exists (winnerId final). destruct final; reflexivity.
      + eexists. reflexivity.
    - exists (winnerId final). destruct final; reflexivity. }
  destruct Hframe as (w & Ew).
  repeat split; try (rewrite Ew; reflexivity).
  - intros c s E. rewrite inferWinner_skipped; [exact E|].
    left. rewrite E. reflexivity.
  - intros Ht. apply inferWinner_skipped. left. exact Ht.
Qed.

Lemma C3_winner_inference_witness :
  (1 < length (analysis twoOptionsFinal) →
     ∃ before w after,
       analysis twoOptionsFinal = before ++ w :: after
       ∧ inferWinner twoOptionsFinal
         = setWinner twoOptionsFinal (JStr (optionId w))
       ∧ winnerId (inferWinner twoOptionsFinal) = JStr (optionId w)
       ∧ Forall (λ o, (meanScore o < meanScore w)%Q) before
       ∧ Forall (λ o, (meanScore o <= meanScore w)%Q) after)
  ∧ (length (analysis twoOptionsFinal) ≤ 1 →
       inferWinner twoOptionsFinal = twoOptionsFinal
       ∧ winnerId (inferWinner twoOptionsFinal) = JStr []).
Proof.
  apply (C3_winner_inference (H := RefHost.host) twoOptions twoOptionsFinal).
  - vm_compute. reflexivity.
  - reflexivity.
Defined.

(** With means 90 and 72 the option with mean 90 wins; two equal means leave
    the first option as winner; without options nothing is inferred. *)
Example inferWinner_90_72 :
  1 < length (analysis twoOptionsFinal)
  ∧ map meanScore (analysis twoOptionsFinal) = [180 # 2; 72 # 1]%Q
  ∧ winnerId (inferWinner twoOptionsFinal) = JStr (str "o1").
Proof. split; [cbn; lia|]. split; vm_compute; reflexivity. Qed.

Example inferWinner_none : inferWinner emptyResult = emptyResult.
Proof. reflexivity. Qed.

Lemma C9_inference_frame_witness :
  winnerId (inferWinner scenarioFinal) = JStr (str "o1")
  ∧ inferWinner scenarioFinal = scenarioFinal
  ∧ analysis (inferWinner twoOptionsFinal) = analysis twoOptionsFinal.
Proof.
  destruct (C9_inference_frame scenarioFinal)
    as (_ & _ & _ & _ & _ & _ & Hkeep & Hsame).
  split; [apply (Hkeep 111%N [49%N]); reflexivity|].
  split; [apply Hsame; reflexivity|].
  apply (C9_inference_frame twoOptionsFinal).
Defined.

(** ** Credentials *)

Section ApiKey.
Context `{Host} `{ModelInvoker}.

Lemma resolveApiKey_missing (w : World) :
truthy (envVar w "API_KEY") = false →
truthy (global_API_KEY w) = false →
resolveApiKey w = inl MissingApiKey.
Proof. intros E1 E2. unfold resolveApiKey. rewrite E1, E2. reflexivity. Qed.

Lemma resolveApiKey_fallback (w : World) :
truthy (envVar w "API_KEY") = false →
truthy (global_API_KEY w) = true →
resolveApiKey w =
  inr {| env := <["API_KEY" := global_API_KEY w]> (env w);
         global_API_KEY := global_API_KEY w; trace := trace w |}.
Proof. intros E1 E2. unfold resolveApiKey. rewrite E1, E2. reflexivity. Qed.

Lemma resolveApiKey_present (w : World) :
truthy (envVar w "API_KEY") = true → resolveApiKey w = inr w.
Proof. intros E1. unfold resolveApiKey. rewrite E1. reflexivity. Qed.

(** C10.  When [process.env.API_KEY] is not set (is falsy): if the global
  fallback is not set either, [analyzeDecision] throws the missing-key error
  and leaves the world as it found it, no prompt built and no model call
  made; if the fallback is set, the call leaves [process.env.API_KEY] equal
  to the fallback and every other variable as it was, and then proceeds:
  it builds the prompts and invokes the model with that key, and its outcome
  is that of the model call followed by the processing of the response. *)
Theorem C10_api_key (data : DecisionState) (w : World) :
truthy (envVar w "API_KEY") = false →
(truthy (global_API_KEY w) = false →
   analyzeDecision data w = (w, inl MissingApiKey))
∧ (truthy (global_API_KEY w) = true →
     let key := global_API_KEY w in
     let w' := (analyzeDecision data w).1 in
     env w' = <["API_KEY" := key]> (env w)
     ∧ envVar w' "API_KEY" = key
     ∧ (∀ k, k ≠ "API_KEY" → envVar w' k = envVar w k)
     ∧ global_API_KEY w' = key
     ∧ trace w' = trace w ++ [EvCreateSystemPrompt; EvBuildUserPrompt;
                              EvGenerateContent key (buildContents data)]
     ∧ (analyzeDecision data w).2
       = generateContent key (buildContents data) ≫= processResponse).
Proof.
intros Henv. split.
- intros Hg. unfold analyzeDecision.
  rewrite resolveApiKey_missing by assumption. reflexivity.
- intros Hg key w'. subst key w'. unfold analyzeDecision.
  rewrite resolveApiKey_fallback by assumption.
  assert (Hkey : envVar
            {| env := <["API_KEY" := global_API_KEY w]> (env w);
               global_API_KEY := global_API_KEY w; trace := trace w |}
            "API_KEY" = global_API_KEY w).
  { unfold envVar. cbn [env]. rewrite lookup_insert_eq. reflexivity. }
  rewrite Hkey.
  destruct (generateContent (global_API_KEY w) (buildContents data))
    as [err|response]; cbn [fst snd log env trace global_API_KEY].
  all: unfold envVar, log; cbn [env trace global_API_KEY].
  all: repeat split; try reflexivity.
  all: try (rewrite lookup_insert_eq; reflexivity).
  all: try (intros k Hk; rewrite lookup_insert_ne by congruence; reflexivity).
  all: rewrite <- !app_assoc; reflexivity.
Qed.

End ApiKey.

Lemma C10_api_key_witness :
  analyzeDecision (H := RefHost.host) (H0 := constantModel (inl (Thrown 1)))
    noData (bareWorld JUndefined)
  = (bareWorld JUndefined, inl MissingApiKey)
  ∧ envVar (analyzeDecision (H := RefHost.host)
              (H0 := constantModel (inl (Thrown 1)))
              noData (bareWorld (JStr (str "k")))).1 "API_KEY"
    = JStr (str "k").
Proof.
  split.
  - apply (C10_api_key (H := RefHost.host)
             (H0 := constantModel (inl (Thrown 1))) noData
             (bareWorld JUndefined)); reflexivity.
  - apply (C10_api_key (H := RefHost.host)
             (H0 := constantModel (inl (Thrown 1))) noData
             (bareWorld (JStr (str "k")))); reflexivity.
Defined.


(** ** Strings *)

Ltac list_norm :=
  repeat first [rewrite <- app_assoc | progress (cbn [app])].

Lemma startsWith_app (p post : jsstring) : startsWith p (p ++ post) = true.
Proof.
  induction p as [|a p IH]; [reflexivity|].
  cbn. rewrite N.eqb_refl. exact IH.
Qed.

Lemma startsWith_true (p s : jsstring) :
  startsWith p s = true → ∃ post, s = p ++ post.
Proof.
  revert s. induction p as [|a p IH]; intros s E.
  - exists s. reflexivity.
  - destruct s as [|b s]; [discriminate|]. cbn in E.
    apply andb_true_iff in E as [Eab Et]. apply N.eqb_eq in Eab. subst b.
    destruct (IH s Et) as [post ->]. exists post. reflexivity.
Qed.

Lemma indexOf_Some (needle s : jsstring) (i : nat) :
  indexOf needle s = Some i →
  ∃ pre post, firstOccurrence needle pre post s ∧ length pre = i.
Proof.
  revert i. induction s as [|c t IH]; intros i E.
  - cbn in E. destruct (startsWith needle []) eqn:Es; [|discriminate].
    injection E as <-. apply startsWith_true in Es as [post Hs].
    exists [], post. split; [|reflexivity]. split; [exact Hs|].
    intros j Hj. cbn in Hj. lia.
  - cbn [indexOf] in E. destruct (startsWith needle (c :: t)) eqn:Es.
    + injection E as <-. apply startsWith_true in Es as [post Hs].
      exists [], post. split; [|reflexivity]. split; [exact Hs|].
      intros j Hj. cbn in Hj. lia.
    + destruct (indexOf needle t) as [k|] eqn:Ek; [|discriminate].
      injection E as <-.
      destruct (IH k eq_refl) as (pre & post & [Hs Hfirst] & Hlen).
      exists (c :: pre), post. split; [|cbn; lia]. split.
      * rewrite Hs. reflexivity.
      * intros [|j] Hj; [exact Es|]. cbn. apply Hfirst. cbn in Hj. lia.
Qed.

Lemma indexOf_None (needle s : jsstring) :
  indexOf needle s = None → ¬ occursIn needle s.
Proof.
  induction s as [|c t IH]; intros E (pre & post & Hs).
  - cbn in E. destruct (startsWith needle []) eqn:Es; [discriminate|].
    destruct pre; [|discriminate]. cbn in Hs.
    rewrite Hs, startsWith_app in Es. discriminate.
  - cbn [indexOf] in E. destruct (startsWith needle (c :: t)) eqn:Es; [discriminate|].
    destruct (indexOf needle t) eqn:Ek; [discriminate|].
    destruct pre as [|p pre].
    + cbn in Hs. rewrite Hs, startsWith_app in Es. discriminate.
    + injection Hs as _ Ht. apply IH; [reflexivity|]. exists pre, post. exact Ht.
Qed.

Lemma indexOf_first (needle pre post s : jsstring) :
  firstOccurrence needle pre post s → indexOf needle s = Some (length pre).
Proof.
  intros [Hs Hfirst]. subst s. induction pre as [|c pre IH].
  - cbn [app length]. destruct (needle ++ post) eqn:E.
    + cbn. destruct needle; [reflexivity|discriminate].
    + cbn [indexOf]. rewrite <- E, startsWith_app. reflexivity.
  - assert (H0 : startsWith needle (c :: pre ++ needle ++ post) = false)
      by (apply (Hfirst 0); cbn; lia).
    cbn [app length indexOf]. rewrite H0.
    rewrite IH; [reflexivity|].
    intros j Hj. apply (Hfirst (S j)). cbn. lia.
Qed.

Lemma occursIn_first (needle s : jsstring) :
  occursIn needle s → ∃ pre post, firstOccurrence needle pre post s.
Proof.
  intros Hocc. destruct (indexOf needle s) as [i|] eqn:E.
  - apply indexOf_Some in E as (pre & post & Hf & _). eauto.
  - apply indexOf_None in E. contradiction.
Qed.

Lemma dropWhile_all {A} (p : A → bool) (a b : list A) :
  forallb p a = true → dropWhile p (a ++ b) = dropWhile p b.
Proof.
  induction a as [|x a IH]; [reflexivity|]. cbn. intros E.
  apply andb_true_iff in E as [-> Ea]. exact (IH Ea).
Qed.

Lemma dropWhile_stop {A} (p : A → bool) (x : A) (t : list A) :
  p x = false → dropWhile p (x :: t) = x :: t.
Proof. intros E. cbn. rewrite E. reflexivity. Qed.

Lemma forallb_rev {A} (p : A → bool) (l : list A) :
  forallb p (rev l) = forallb p l.
Proof.
  induction l as [|x l IH]; [reflexivity|]. cbn.
  rewrite forallb_app, IH. cbn. rewrite andb_true_r. apply andb_comm.
Qed.

(** [trim] removes the white space around a text that begins and ends with
    other characters. *)
Lemma trim_solid (ws1 ws2 mid : jsstring) (a z : N) :
  allWhiteSpace ws1 → allWhiteSpace ws2 →
  isWhiteSpace a = false → isWhiteSpace z = false →
  trim (ws1 ++ (a :: mid ++ [z]) ++ ws2) = a :: mid ++ [z].
Proof.
  unfold allWhiteSpace. intros H1 H2 Ha Hz. unfold trim, trimEnd, trimStart.
  replace (ws1 ++ (a :: mid ++ [z]) ++ ws2)
    with ((ws1 ++ a :: mid) ++ z :: ws2)
    by (list_norm; reflexivity).
  rewrite rev_app_distr. cbn [rev]. rewrite <- app_assoc.
  rewrite dropWhile_all by (rewrite forallb_rev; exact H2).
  cbn [app]. rewrite dropWhile_stop by exact Hz.
  cbn [rev]. rewrite rev_involutive, <- app_assoc.
  rewrite dropWhile_all by exact H1.
  cbn [app]. rewrite dropWhile_stop by exact Ha. reflexivity.
Qed.


(** ** Code fences *)

Lemma fence_chars : fence = [96; 96; 96]%N.
Proof. reflexivity. Qed.

Lemma white_not_backtick (c : N) : isWhiteSpace c = true → N.eqb 96 c = false.
Proof.
  intros Hc. destruct (N.eqb_spec 96 c) as [<-|]; [|reflexivity].
  vm_compute in Hc. discriminate.
Qed.

Lemma stripTrailingFence_cons (c : N) (t : jsstring) :
  stripTrailingFence (c :: t) =
    if (startsWith fence (c :: t) && forallb isWhiteSpace (drop 3 (c :: t)))%bool
    then [] else c :: stripTrailingFence t.
Proof. reflexivity. Qed.

(** No fence-to-the-end starts where a character that is neither white space
    nor a backtick is still to come within the fence. *)
Lemma fence_cond_solid (u rest : jsstring) (z : N) :
  isWhiteSpace z = false → N.eqb 96 z = false →
  (startsWith fence (u ++ z :: rest)
   && forallb isWhiteSpace (drop 3 (u ++ z :: rest)))%bool = false.
Proof.
  intros Hw Hb. rewrite fence_chars.
  destruct u as [|a [|b [|c r]]]; cbn [app startsWith drop].
  - rewrite Hb. reflexivity.
  - rewrite Hb. rewrite andb_false_r. reflexivity.
  - rewrite Hb. rewrite !andb_false_r. reflexivity.
  - rewrite drop_0, forallb_app. cbn [forallb]. rewrite Hw.
    rewrite !andb_false_r. reflexivity.
Qed.

Lemma stripTrailingFence_solid (u rest : jsstring) (z : N) :
  isWhiteSpace z = false → N.eqb 96 z = false →
  stripTrailingFence (u ++ z :: rest) = u ++ z :: stripTrailingFence rest.
Proof.
  intros Hw Hb. induction u as [|a u IH].
  - pose proof (fence_cond_solid [] rest z Hw Hb) as Hc. cbn [app] in Hc.
    cbn [app]. rewrite stripTrailingFence_cons, Hc. reflexivity.
  - pose proof (fence_cond_solid (a :: u) rest z Hw Hb) as Hc.
    cbn [app] in Hc.
    cbn [app]. rewrite stripTrailingFence_cons, Hc, IH. reflexivity.
Qed.

Lemma stripTrailingFence_white (ws ws' : jsstring) :
  allWhiteSpace ws → allWhiteSpace ws' →
  stripTrailingFence (ws ++ fence ++ ws') = ws.
Proof.
  unfold allWhiteSpace. intros Hws Hws'. induction ws as [|c ws IH].
  - rewrite fence_chars. cbn [app]. rewrite stripTrailingFence_cons.
    rewrite fence_chars. cbn [startsWith drop].
    rewrite drop_0, !N.eqb_refl, Hws'. reflexivity.
  - cbn in Hws. apply andb_true_iff in Hws as [Hc Hws].
    cbn [app]. rewrite stripTrailingFence_cons.
    rewrite fence_chars at 1. cbn [startsWith].
    rewrite (white_not_backtick c Hc). cbn [andb].
    rewrite IH by exact Hws. reflexivity.
Qed.

Lemma stripTrailingFence_nil : stripTrailingFence [] = [].
Proof. reflexivity. Qed.

Lemma eqFold_j_white (c : N) : isWhiteSpace c = true → eqFold 106 c = false.
Proof.
  intros Hc. unfold eqFold.
  change (inRange 97 122 106) with true.
  change (inRange 65 90 106) with false.
  change (106 - 32)%N with 74%N. cbn [andb].
  destruct (N.eqb_spec 106 c) as [<-|]; [vm_compute in Hc; discriminate|].
  destruct (N.eqb_spec 74 c) as [<-|]; [vm_compute in Hc; discriminate|].
  reflexivity.
Qed.

(** The replacements at the start leave a text that opens with a brace as
    it is. *)
Lemma leading_fences_brace (t : jsstring) :
  stripLeadingFence (stripJsonFence (ch "{" :: t)) = ch "{" :: t.
Proof. reflexivity. Qed.

Lemma leading_fences_plain (ws body rest : jsstring) :
  allWhiteSpace ws → isObjectText body →
  stripLeadingFence (stripJsonFence (fence ++ ws ++ body ++ rest))
  = body ++ rest.
Proof.
  unfold allWhiteSpace. intros Hws (mid & ->).
  assert (Ej : stripJsonFence (fence ++ ws ++ (ch "{" :: mid ++ [ch "}"]) ++ rest)
               = fence ++ ws ++ (ch "{" :: mid ++ [ch "}"]) ++ rest).
  { unfold stripJsonFence. rewrite fence_chars.
    destruct ws as [|w ws]; [reflexivity|].
    cbn in Hws. apply andb_true_iff in Hws as [Hw _].
    cbn [app str map list_ascii_of_string startsWithFold].
    change (N_of_ascii "j") with 106%N.
    rewrite (eqFold_j_white w Hw). rewrite !andb_false_r. reflexivity. }
  rewrite Ej. unfold stripLeadingFence.
  rewrite startsWith_app. rewrite fence_chars. cbn [app drop].
  rewrite drop_0, dropWhile_all by exact Hws. reflexivity.
Qed.

Lemma leading_fences_tagged (tag ws body rest : jsstring) :
  length tag = 4 → startsWithFold (str "json") tag = true →
  allWhiteSpace ws → isObjectText body →
  stripLeadingFence (stripJsonFence (fence ++ tag ++ ws ++ body ++ rest))
  = body ++ rest.
Proof.
  unfold allWhiteSpace. intros Hlen Htag Hws (mid & ->).
  destruct tag as [|t1 [|t2 [|t3 [|t4 [|? ?]]]]]; try discriminate.
  unfold stripJsonFence. rewrite fence_chars.
  cbn [app str map list_ascii_of_string startsWithFold] in Htag |- *.
  change (eqFold (N_of_ascii "`") 96) with true. cbn [andb].
  rewrite Htag. cbn [drop].
  rewrite drop_0, dropWhile_all by exact Hws. reflexivity.
Qed.

Lemma trim_object_white (body ws : jsstring) :
  isObjectText body → allWhiteSpace ws → trim (body ++ ws) = body.
Proof.
  intros (mid & ->) Hws.
  exact (trim_solid [] ws mid (ch "{") (ch "}") eq_refl Hws eq_refl eq_refl).
Qed.

(** ** C4: the JSON candidate *)

(** A fenced object text, with the tag [json] or none, comes out bare. *)
Lemma stripFences_fenced (ws1 tag ws2 body ws3 ws4 : jsstring) :
  allWhiteSpace ws1 → allWhiteSpace ws2 → allWhiteSpace ws3 →
  allWhiteSpace ws4 → isJsonTag tag → isObjectText body →
  stripFences (ws1 ++ fence ++ tag ++ ws2 ++ body ++ ws3 ++ fence ++ ws4)
  = body.
Proof.
  intros H1 H2 H3 H4 Htag Hbody. unfold stripFences.
  assert (Etrim : trim (ws1 ++ fence ++ tag ++ ws2 ++ body ++ ws3 ++ fence ++ ws4)
                  = fence ++ tag ++ ws2 ++ body ++ ws3 ++ fence).
  { rewrite fence_chars.
    replace (ws1 ++ [96; 96; 96]%N ++ tag ++ ws2 ++ body ++ ws3
               ++ [96; 96; 96]%N ++ ws4)
      with (ws1 ++ (96%N :: ([96; 96]%N ++ tag ++ ws2 ++ body ++ ws3
                               ++ [96; 96]%N) ++ [96%N]) ++ ws4)
      by (list_norm; reflexivity).
    rewrite trim_solid by (assumption || reflexivity).
    list_norm. reflexivity. }
  rewrite Etrim.
  assert (Elead : stripLeadingFence (stripJsonFence
                    (fence ++ tag ++ ws2 ++ body ++ ws3 ++ fence))
                  = body ++ ws3 ++ fence).
  { destruct Htag as [->|[Hlen Hfold]].
    - cbn [app]. apply leading_fences_plain; assumption.
    - apply leading_fences_tagged; assumption. }
  rewrite Elead. destruct Hbody as (mid & ->).
  replace ((ch "{" :: mid ++ [ch "}"]) ++ ws3 ++ fence)
    with ((ch "{" :: mid) ++ ch "}" :: (ws3 ++ fence ++ []))
    by (rewrite app_nil_r; list_norm; reflexivity).
  rewrite stripTrailingFence_solid by reflexivity.
  rewrite stripTrailingFence_white by (assumption || reflexivity).
  replace ((ch "{" :: mid) ++ ch "}" :: ws3)
    with ((ch "{" :: mid ++ [ch "}"]) ++ ws3)
    by (list_norm; reflexivity).
  apply trim_object_white; [eexists; reflexivity|assumption].
Qed.

Lemma fences_object (body : jsstring) :
  isObjectText body →
  trim (stripTrailingFence (stripLeadingFence (stripJsonFence body))) = body.
Proof.
  intros (mid & ->).
  rewrite leading_fences_brace.
  replace (ch "{" :: mid ++ [ch "}"])
    with ((ch "{" :: mid) ++ ch "}" :: []) by reflexivity.
  rewrite stripTrailingFence_solid by reflexivity.
  rewrite stripTrailingFence_nil.
  pose proof (trim_object_white (ch "{" :: mid ++ [ch "}"]) []) as Ht.
  rewrite app_nil_r in Ht. apply Ht; [eexists; reflexivity|reflexivity].
Qed.

(** An object text without fences comes out as it is, trimmed. *)
Lemma stripFences_plain (ws1 body ws2 : jsstring) :
  allWhiteSpace ws1 → allWhiteSpace ws2 → isObjectText body →
  stripFences (ws1 ++ body ++ ws2) = body.
Proof.
  intros H1 H2 Hb. unfold stripFences.
  assert (Et : trim (ws1 ++ body ++ ws2) = body).
  { destruct Hb as (mid & ->). apply trim_solid; (assumption || reflexivity). }
  rewrite Et. apply fences_object. exact Hb.
Qed.

(** ** The brace block *)

Lemma isNot_true (c x : N) : isNot c x = true ↔ x ≠ c.
Proof.
  unfold isNot. rewrite negb_true_iff. split.
  - intros E ->. rewrite N.eqb_refl in E. discriminate.
  - intros Hne. apply N.eqb_neq. exact Hne.
Qed.

Lemma elem_of_rev_iff (c : N) (s : jsstring) : c ∈ rev s ↔ c ∈ s.
Proof. rewrite !list_elem_of_In. symmetry. apply in_rev. Qed.

Lemma dropWhile_isNot_spec (c : N) (s : jsstring) :
((c ∉ s) ∧ dropWhile (isNot c) s = [])
  ∨ (∃ pre rest, s = pre ++ c :: rest ∧ (c ∉ pre)
                 ∧ dropWhile (isNot c) s = c :: rest).
Proof.
  induction s as [|x s IH].
  - left. split; [apply not_elem_of_nil|reflexivity].
  - cbn [dropWhile]. destruct (isNot c x) eqn:E.
    + apply isNot_true in E.
      destruct IH as [[Hnot Hd]|(pre & rest & Hs & Hpre & Hd)].
      * left. split; [|exact Hd]. rewrite not_elem_of_cons.
        split; [congruence|assumption].
      * right. exists (x :: pre), rest. split; [rewrite Hs; reflexivity|].
        split; [|exact Hd]. rewrite not_elem_of_cons.
        split; [congruence|assumption].
    + right. exists [], s.
      assert (x = c).
      { destruct (N.eq_dec x c) as [->|Hne]; [reflexivity|].
        apply isNot_true in Hne. congruence. }
      subst x. split; [reflexivity|]. split; [apply not_elem_of_nil|reflexivity].
Qed.

Lemma upToLast_spec (c : N) (s : jsstring) :
  ((c ∉ s) ∧ upToLast c s = None)
  ∨ (∃ a z, s = a ++ c :: z ∧ (c ∉ z) ∧ upToLast c s = Some (a ++ [c])).
Proof.
  unfold upToLast.
  destruct (dropWhile_isNot_spec c (rev s))
    as [[Hnot Hd]|(pre & rest & Hs & Hpre & Hd)]; rewrite Hd.
  - left. split; [|reflexivity]. intros Hin. apply Hnot.
    apply (proj2 (elem_of_rev_iff _ _)). exact Hin.
  - right. exists (rev rest), (rev pre). split; [|split].
    + rewrite <- (rev_involutive s), Hs, rev_app_distr. cbn [rev].
      rewrite <- app_assoc. reflexivity.
    + intros Hin. apply Hpre. apply (proj1 (elem_of_rev_iff _ _)) in Hin. exact Hin.
    + reflexivity.
Qed.

Lemma first_occurrence_suffix (c : N) (pre rest a rest' : jsstring) :
  pre ++ c :: rest = a ++ c :: rest' → c ∉ pre → ∃ k, rest = k ++ rest'.
Proof.
  revert a. induction pre as [|p pre IH]; intros a E Hpre.
  - destruct a as [|x a].
    + injection E as ->. exists []. reflexivity.
    + injection E as <- ->. exists (a ++ [c]).
      rewrite <- app_assoc. reflexivity.
  - apply not_elem_of_cons in Hpre as [Hne Hpre].
    destruct a as [|x a].
    + injection E as -> _. congruence.
    + injection E as _ E. exact (IH a E Hpre).
Qed.

(** The match of [/(\{[\s\S]*\})/]: the text from the first opening brace to
    the last closing brace, when one follows; nothing otherwise. *)
Lemma matchBraceBlock_spec (s : jsstring) :
  (matchBraceBlock s = None
   ∧ ¬ ∃ a m z, s = a ++ ch "{" :: m ++ ch "}" :: z)
  ∨ (∃ a m z, s = a ++ ch "{" :: m ++ ch "}" :: z
              ∧ (ch "{" ∉ a) ∧ (ch "}" ∉ z)
              ∧ matchBraceBlock s = Some (ch "{" :: m ++ [ch "}"])).
Proof.
  unfold matchBraceBlock.
  destruct (dropWhile_isNot_spec (ch "{") s)
    as [[Hnot Hd]|(pre & rest & Hs & Hpre & Hd)]; rewrite Hd.
  - left. split; [reflexivity|]. intros (a & m & z & E). apply Hnot.
    rewrite E. apply elem_of_app. right. left.
  - destruct (upToLast_spec (ch "}") (ch "{" :: rest))
      as [[Hnot E]|(a & z & Ea & Hz & E)]; rewrite E.
    + left. split; [reflexivity|]. intros (a & m & z & E').
      rewrite Hs in E'.
      destruct (first_occurrence_suffix _ _ _ _ _ E' Hpre) as (k & ->).
      apply Hnot. right. apply elem_of_app. right.
      apply elem_of_app. right. left.
    + right. destruct a as [|x a]; [discriminate|].
      injection Ea as <- ->.
      exists pre, a, z. repeat split; assumption.
Qed.

Lemma matchBraceBlock_found (a m z : jsstring) :
  ch "{" ∉ a → ch "}" ∉ z →
  matchBraceBlock (a ++ ch "{" :: m ++ ch "}" :: z)
  = Some (ch "{" :: m ++ [ch "}"]).
Proof.
  intros Ha Hz.
  destruct (matchBraceBlock_spec (a ++ ch "{" :: m ++ ch "}" :: z))
    as [[_ Hno]|(a' & m' & z' & E & Ha' & Hz' & Em)].
  - exfalso. apply Hno. eauto.
  - rewrite Em. f_equal. f_equal.
    assert (Ea : a = a').
    { clear Em Hz Hz'. revert a' E Ha'.
      induction a as [|x a IH]; intros [|y a'] E Ha'.
      - reflexivity.
      - injection E as <- _. exfalso. apply Ha'. left.
      - injection E as -> _. exfalso. apply Ha. left.
      - injection E as -> E. f_equal. apply IH.
        + intros Hin. apply Ha. right. exact Hin.
        + exact E.
        + intros Hin. apply Ha'. right. exact Hin. }
    subst a'. apply app_inv_head in E. injection E as E.
    assert (Er : rev z ++ ch "}" :: rev m = rev z' ++ ch "}" :: rev m').
    { apply (f_equal (@rev N)) in E. rewrite !rev_app_distr in E.
      cbn [rev] in E. rewrite <- !app_assoc in E. exact E. }
    assert (Ez : rev z = rev z').
    { assert (Hrz : ch "}" ∉ rev z)
        by (intros Hin; apply Hz; apply (proj1 (elem_of_rev_iff _ _)) in Hin; exact Hin).
      assert (Hrz' : ch "}" ∉ rev z')
        by (intros Hin; apply Hz'; apply (proj1 (elem_of_rev_iff _ _)) in Hin; exact Hin).
      clear -Er Hrz Hrz'. revert Er Hrz Hrz'.
      generalize (rev z') (rev z). intros l1 l2. revert l1.
      induction l2 as [|x l2 IH]; intros [|y l1] E H2 H1.
      - reflexivity.
      - injection E as <- _. exfalso. apply H1. left.
      - injection E as -> _. exfalso. apply H2. left.
      - injection E as -> E. f_equal. apply (IH l1 E).
        + intros Hin. apply H2. right. exact Hin.
        + intros Hin. apply H1. right. exact Hin. }
    rewrite Ez in Er. apply app_inv_head in Er. injection Er as Er.
    apply (f_equal (@rev N)) in Er. rewrite !rev_involutive in Er.
    subst m'. reflexivity.
Qed.

Section Candidate.
Context `{Host}.

Lemma findJsonCandidate_marker (pre post rawText : jsstring) :
firstOccurrence DecisionSherlock.marker pre post rawText →
findJsonCandidate rawText = Some (stripFences post)
∧ GeminiService.cleanedJson rawText = inr (stripFences post).
Proof.
intros Hfirst. pose proof (indexOf_first _ _ _ _ Hfirst) as Ei.
destruct Hfirst as [-> _].
assert (Esub : substring (length pre + length DecisionSherlock.marker)
                 (pre ++ DecisionSherlock.marker ++ post) = post).
{ unfold substring. rewrite <- drop_drop, drop_app_length.
  apply drop_app_length. }
split.
- unfold findJsonCandidate. rewrite Ei, Esub. reflexivity.
- unfold GeminiService.cleanedJson.
  change GeminiService.marker with DecisionSherlock.marker.
  rewrite Ei, Esub. reflexivity.
Qed.

Lemma findJsonCandidate_no_marker (rawText : jsstring) :
¬ occursIn DecisionSherlock.marker rawText →
indexOf DecisionSherlock.marker rawText = None.
Proof.
intros Hno. destruct (indexOf DecisionSherlock.marker rawText) eqn:E;
  [|reflexivity].
apply indexOf_Some in E as (pre & post & [Hs _] & _).
exfalso. apply Hno. exists pre, post. exact Hs.
Qed.

Lemma processText_no_candidate (rawText : jsstring) :
findJsonCandidate rawText = None ∨ findJsonCandidate rawText = Some [] →
processText rawText = inl NoJsonFound.
Proof. intros [E|E]; unfold processText; rewrite E; reflexivity. Qed.

(** C4, amended.  In [decisionSherlock.ts]: when the marker occurs in the
  extracted text, the candidate is what follows its first occurrence,
  trimmed and with a leading and a trailing triple-backtick fence removed,
  the leading one with the tag [json] (in any letter case) or without tag:
  a fenced or bare object text comes out as the object text; when the
  marker does not occur, the candidate is the text from the first opening
  brace to the last closing brace, if one follows it, and there is none
  otherwise; when the candidate is missing or empty the pipeline fails with
  the no-JSON error.  In [services/geminiService.ts] the candidate is the
  same, but the no-JSON (marker-missing) error is raised only when the
  marker is absent and no brace block is found; with the marker present
  the outcome is the parser's, also on an empty candidate. *)
Theorem C4_json_candidate (rawText : jsstring) :
(occursIn DecisionSherlock.marker rawText →
   ∃ pre post,
     firstOccurrence DecisionSherlock.marker pre post rawText
     ∧ findJsonCandidate rawText = Some (stripFences post)
     ∧ GeminiService.cleanedJson rawText = inr (stripFences post)
     ∧ GeminiService.parseModelText rawText
       = match JSON_parse (stripFences post) with
         | Some parsed => inr parsed
         | None => inl GeminiService.InvalidJson
         end)
∧ (∀ ws1 tag ws2 body ws3 ws4,
     allWhiteSpace ws1 → allWhiteSpace ws2 → allWhiteSpace ws3 →
     allWhiteSpace ws4 → isJsonTag tag → isObjectText body →
     stripFences (ws1 ++ fence ++ tag ++ ws2 ++ body ++ ws3 ++ fence ++ ws4)
     = body
     ∧ stripFences (ws1 ++ body ++ ws4) = body)
∧ (¬ occursIn DecisionSherlock.marker rawText →
     findJsonCandidate rawText = matchBraceBlock rawText
     ∧ ((matchBraceBlock rawText = None
         ∧ (¬ ∃ a m z, rawText = a ++ ch "{" :: m ++ ch "}" :: z)
         ∧ GeminiService.parseModelText rawText
           = inl GeminiService.MarkerMissing)
        ∨ (∃ a m z,
             rawText = a ++ ch "{" :: m ++ ch "}" :: z
             ∧ (ch "{" ∉ a) ∧ (ch "}" ∉ z)
             ∧ matchBraceBlock rawText = Some (ch "{" :: m ++ [ch "}"])
             ∧ GeminiService.cleanedJson rawText
               = inr (ch "{" :: m ++ [ch "}"]))))
∧ (findJsonCandidate rawText = None ∨ findJsonCandidate rawText = Some [] →
     processText rawText = inl NoJsonFound).
Proof.
split; [|split; [|split]].
- intros Hocc.
  destruct (occursIn_first _ _ Hocc) as (pre & post & Hfirst).
  destruct (findJsonCandidate_marker pre post rawText Hfirst) as [Ec Eg].
  exists pre, post. repeat split; try assumption; try apply Hfirst.
  unfold GeminiService.parseModelText. rewrite Eg. reflexivity.
- intros ws1 tag ws2 body ws3 ws4 H1 H2 H3 H4 Htag Hbody. split.
  + apply stripFences_fenced; assumption.
  + apply stripFences_plain; assumption.
- intros Hno. pose proof (findJsonCandidate_no_marker rawText Hno) as Ei.
  split; [unfold findJsonCandidate; rewrite Ei; reflexivity|].
  unfold GeminiService.parseModelText, GeminiService.cleanedJson.
  change GeminiService.marker with DecisionSherlock.marker. rewrite Ei.
  destruct (matchBraceBlock_spec rawText)
    as [[Enone Hno']|(a & m & z & Es & Ha & Hz & Eb)].
  + left. rewrite Enone. repeat split; assumption.
  + right. exists a, m, z. rewrite Eb.
    repeat split; try assumption.
    f_equal. apply fences_object. eexists. reflexivity.
- apply processText_no_candidate.
Qed.

End Candidate.

Lemma C4_json_candidate_witness :
  (∃ pre post,
     firstOccurrence DecisionSherlock.marker pre post
       (DecisionSherlock.marker ++ fencedScenarioPayload)
     ∧ findJsonCandidate (DecisionSherlock.marker ++ fencedScenarioPayload)
       = Some (stripFences post))
  ∧ stripFences fencedScenarioPayload = json "{'analysis':[]}"
  ∧ processText (H := RefHost.host) (str "no braces here")
    = inl NoJsonFound.
Proof.
  destruct (C4_json_candidate (H := RefHost.host)
              (DecisionSherlock.marker ++ fencedScenarioPayload))
    as (Hm & Hf & _ & _).
  destruct (C4_json_candidate (H := RefHost.host) (str "no braces here"))
    as (_ & _ & _ & Hn).
  split; [|split].
  - destruct Hm as (pre & post & Hfirst & Ec & _).
    { exists [], fencedScenarioPayload. reflexivity. }
    exists pre, post. split; assumption.
  - apply (Hf [10%N] (str "JSON") [10%N] (json "{'analysis':[]}")
             [10%N] [10%N]); try reflexivity.
    + right. split; reflexivity.
    + exists (json "'analysis':[]"). reflexivity.
  - apply Hn. left. reflexivity.
Defined.

(** The testable properties of the specification on the fenced text. *)
Example fenced_equals_unfenced :
  findJsonCandidate (DecisionSherlock.marker ++ fencedScenarioPayload)
  = findJsonCandidate (DecisionSherlock.marker ++ json "{'analysis':[]}").
Proof. vm_compute. reflexivity. Qed.

(** C4 as stated fails twice: a fence with another language tag keeps its
    tag in the candidate, and [geminiService.ts], given the marker and nothing
    after it, has an empty candidate and fails with the invalid-JSON error,
    not with the no-JSON one. *)
Lemma C4_counterexample :
  findJsonCandidate jsFencedText = Some (str "js" ++ [10%N] ++ str "{}")
  ∧ GeminiService.cleanedJson markerOnlyText = inr []
  ∧ GeminiService.parseModelText (H := RefHost.host) markerOnlyText
    = inl GeminiService.InvalidJson
  ∧ GeminiService.InvalidJson ≠ GeminiService.MarkerMissing
  ∧ processText (H := RefHost.host) markerOnlyText = inl NoJsonFound.
Proof.
  split; [vm_compute; reflexivity|].
  split; [vm_compute; reflexivity|].
  split; [vm_compute; reflexivity|].
  split; [discriminate|]. vm_compute. reflexivity.
Qed.

(** ** The exceptions of the normalizer *)

Lemma JSValue_induction (P : JSValue → Prop) :
  P JUndefined → P JNull → (∀ b, P (JBool b)) → (∀ n, P (JNum n)) →
  (∀ s, P (JStr s)) →
  (∀ items, Forall P items → P (JArr items)) →
  (∀ props, Forall (λ kv, P kv.2) props → P (JObj props)) →
  ∀ v, P v.
Proof.
  intros Hu Hn Hb Hnum Hs Ha Ho. fix IH 1.
  intros [| |b|n|s|items|props];
    [exact Hu|exact Hn|apply Hb|apply Hnum|apply Hs| |].
  - apply Ha. induction items as [|x t IHt]; constructor; [apply IH|exact IHt].
  - apply Ho. induction props as [|[k x] t IHt]; constructor;
      [apply IH|exact IHt].
Qed.

Lemma mapArray_inl {A B} (f : A → Result B) (l : list A) (e : Exn) :
  mapArray f l = inl e → ∃ x, x ∈ l ∧ f x = inl e.
Proof.
  induction l as [|x t IH]; cbn [mapArray]; [discriminate|].
  intros E. apply bind_inl in E as [E|(y & _ & E)].
  - exists x. split; [left|exact E].
  - apply bind_inl in E as [E|(r & _ & E)]; [|discriminate].
    destruct (IH E) as (x' & Hin & Ex'). exists x'. split; [right|]; assumption.
Qed.

Create HintDb type_error.

Ltac inv_err :=
  repeat match goal with
         | E : _ ≫= _ = inl _ |- _ =>
             let a := fresh "a" in
             apply bind_inl in E as [E|(a & _ & E)]
         | E : mret _ = inl _ |- _ => discriminate E
         | E : throw _ = inl _ |- _ => injection E as <-
         end.

Section Errors.
Context `{Host}.

Lemma getProp_error v k e : getProp v k = inl e → e = TypeError.
Proof. destruct v; cbn; intros E; try discriminate; injection E as <-; reflexivity. Qed.

Lemma objectToPrimitive_error props e :
objectToPrimitive props = inl e → e = TypeError.
Proof.
unfold objectToPrimitive. destruct (lookupProp _ props); intros E;
  [injection E as <-; reflexivity|discriminate].
Qed.

Lemma ToString_JArr (items : list JSValue) :
ToString (JArr items) = joinArray (str ",") items.
Proof.
unfold joinArray. cbn [ToString]. f_equal.
induction items as [|x t IH]; [reflexivity|].
cbn [mapArray]. rewrite <- IH. reflexivity.
Qed.

Lemma ToString_error v : ∀ e, ToString v = inl e → e = TypeError.
Proof.
induction v as [| | | | |items IH|props _] using JSValue_induction;
  intros e E; try discriminate.
- rewrite ToString_JArr in E. unfold joinArray in E. inv_err.
  apply mapArray_inl in E as (x & Hin & E).
  rewrite Forall_forall in IH.
  destruct (nullish x); [discriminate|]. exact (IH x Hin e E).
- exact (objectToPrimitive_error props e E).
Qed.

Lemma ToNumber_error v e : ToNumber v = inl e → e = TypeError.
Proof.
destruct v as [| |[]|n|s|items|props]; cbn [ToNumber]; intros E;
  try discriminate; inv_err.
- exact (ToString_error _ _ E).
- exact (objectToPrimitive_error _ _ E).
Qed.

Lemma clampScore_error n e : clampScore n = inl e → e = TypeError.
Proof.
unfold clampScore. intros E. inv_err. exact (ToNumber_error _ _ E).
Qed.

Lemma mapArray_error {A B} (f : A → Result B) (l : list A) e :
(∀ x e, f x = inl e → e = TypeError) → mapArray f l = inl e → e = TypeError.
Proof.
intros Hf E. apply mapArray_inl in E as (x & _ & E). exact (Hf x e E).
Qed.

#[local] Hint Resolve getProp_error ToString_error ToNumber_error clampScore_error
objectToPrimitive_error : type_error.

Ltac solve_err :=
  repeat first
    [ progress inv_err
    | match goal with
      | E : match ?x with _ => _ end = inl _ |- _ => destruct x
      | E : (if ?b then _ else _) = inl _ |- _ => destruct b
      end ];
  try discriminate; eauto using mapArray_error with type_error.

Lemma normalizeCriterion_error ca e :
  normalizeCriterion ca = inl e → e = TypeError.
Proof. unfold normalizeCriterion. intros E. solve_err. Qed.

Lemma stringList_error a k alt e : stringList a k alt = inl e → e = TypeError.
Proof. unfold stringList. intros E. solve_err. Qed.

Lemma normalizeOption_error a e : normalizeOption a = inl e → e = TypeError.
Proof.
  unfold normalizeOption. intros E. inv_err;
    eauto using mapArray_error, normalizeCriterion_error, stringList_error
      with type_error.
Qed.

Lemma renormalizeCriterion_error ca e :
  renormalizeCriterion ca = inl e → e = TypeError.
Proof. unfold renormalizeCriterion. intros E. solve_err. Qed.

Lemma renormalizeOption_error opt e :
  renormalizeOption opt = inl e → e = TypeError.
Proof.
  unfold renormalizeOption. intros E.
  inv_err; eauto using mapArray_error, renormalizeCriterion_error.
Qed.

Lemma ensureAnalysisArray_error c e :
  ensureAnalysisArray c = inl e → e = TypeError.
Proof. unfold ensureAnalysisArray. intros E. solve_err. Qed.

Lemma normalize_error parsedRaw e : normalize parsedRaw = inl e → e = TypeError.
Proof.
  unfold normalize. intros E.
  inv_err; eauto using mapArray_error, normalizeOption_error,
             renormalizeOption_error, ensureAnalysisArray_error
             with type_error.
Qed.

End Errors.

(** ** C5: the lenient parser *)

Lemma replaceComma_plain (close : N) (a rest : jsstring) :
  ch "," ∉ a →
  replaceCommaBefore close None (a ++ rest)
  = a ++ replaceCommaBefore close None rest.
Proof.
  induction a as [|c a IH]; intros Ha; [reflexivity|].
  apply not_elem_of_cons in Ha as [Hc Ha].
  cbn [app replaceCommaBefore].
  destruct (N.eqb_spec c (ch ",")) as [->|_]; [congruence|].
  rewrite IH by exact Ha. reflexivity.
Qed.

Lemma replaceComma_pending (close : N) (buf ws rest : jsstring) :
  isWhiteSpace close = false → allWhiteSpace ws →
  replaceCommaBefore close (Some buf) (ws ++ close :: rest)
  = close :: replaceCommaBefore close None rest.
Proof.
  unfold allWhiteSpace. intros Hclose Hws. revert buf.
  induction ws as [|c ws IH]; intros buf.
  - cbn [app replaceCommaBefore]. rewrite N.eqb_refl. reflexivity.
  - cbn in Hws. apply andb_true_iff in Hws as [Hc Hws].
    cbn [app replaceCommaBefore].
    destruct (N.eqb_spec c close) as [->|_]; [congruence|].
    rewrite Hc. apply IH. exact Hws.
Qed.

(** A comma, white space and the closing character become the closing
    character. *)
Lemma replaceComma_trailing (close : N) (a ws rest : jsstring) :
  isWhiteSpace close = false → ch "," ∉ a → allWhiteSpace ws →
  replaceCommaBefore close None (a ++ ch "," :: ws ++ close :: rest)
  = a ++ close :: replaceCommaBefore close None rest.
Proof.
  intros Hclose Ha Hws. rewrite replaceComma_plain by exact Ha.
  f_equal. cbn [replaceCommaBefore]. rewrite N.eqb_refl.
  apply replaceComma_pending; assumption.
Qed.

Lemma replaceComma_none (close : N) (s : jsstring) :
  ch "," ∉ s → replaceCommaBefore close None s = s.
Proof.
  intros Hs. rewrite <- (app_nil_r s) at 1.
  rewrite replaceComma_plain by exact Hs. cbn. apply app_nil_r.
Qed.

(** The scan up to a comma: what was pending is kept, and the comma becomes
    the pending one. *)
Lemma replaceComma_at_comma (close : N) (pending : option jsstring)
    (a rest : jsstring) :
  close ≠ ch "," →
  replaceCommaBefore close pending (a ++ ch "," :: rest)
  = replaceCommaBefore close pending a
    ++ replaceCommaBefore close (Some [ch ","]) rest.
Proof.
  intros Hclose. revert pending.
  induction a as [|c a IH]; intros [buf|]; cbn [app replaceCommaBefore].
  - destruct (N.eqb_spec (ch ",") close) as [E|_]; [congruence|].
    reflexivity.
  - reflexivity.
  - destruct (N.eqb c close); [rewrite IH; reflexivity|].
    destruct (isWhiteSpace c); [apply IH|].
    destruct (N.eqb c (ch ",")); rewrite IH, <- ?app_assoc; reflexivity.
  - destruct (N.eqb c (ch ",")); rewrite IH; reflexivity.
Qed.

(** A character that is neither the closing one, nor a comma, nor white
    space ends every pending match. *)
Lemma replaceComma_at_other (close c : N) (pending : option jsstring)
    (a rest : jsstring) :
  c ≠ close → c ≠ ch "," → isWhiteSpace c = false →
  replaceCommaBefore close pending (a ++ c :: rest)
  = replaceCommaBefore close pending a
    ++ c :: replaceCommaBefore close None rest.
Proof.
  intros Hclose Hcomma Hws. revert pending.
  induction a as [|x a IH]; intros [buf|]; cbn [app replaceCommaBefore].
  - destruct (N.eqb_spec c close) as [E|_]; [congruence|]. rewrite Hws.
    destruct (N.eqb_spec c (ch ",")) as [E|_]; [congruence|]. reflexivity.
  - destruct (N.eqb_spec c (ch ",")) as [E|_]; [congruence|]. reflexivity.
  - destruct (N.eqb x close); [rewrite IH; reflexivity|].
    destruct (isWhiteSpace x); [apply IH|].
    destruct (N.eqb x (ch ",")); rewrite IH, <- ?app_assoc; reflexivity.
  - destruct (N.eqb x (ch ",")); rewrite IH; reflexivity.
Qed.

(** White space after a pending comma stays pending, and is kept when the text
    ends. *)
Lemma replaceComma_white (close : N) (buf ws : jsstring) :
  isWhiteSpace close = false → allWhiteSpace ws →
  replaceCommaBefore close (Some buf) ws = buf ++ ws.
Proof.
  unfold allWhiteSpace. intros Hclose Hws. revert buf.
  induction ws as [|c ws IH]; intros buf.
  - cbn. rewrite app_nil_r. reflexivity.
  - cbn in Hws. apply andb_true_iff in Hws as [Hc Hws].
    cbn [replaceCommaBefore].
    destruct (N.eqb_spec c close) as [->|_]; [congruence|].
    rewrite Hc, IH by exact Hws. rewrite <- app_assoc. reflexivity.
Qed.

(** One replacement, whatever stands before the comma: every match of
    [/,\s*X/] loses its comma and white space, and the text before and after
    it is cleaned on its own. *)
Lemma replaceComma_match (close : N) (a ws rest : jsstring) :
  close ≠ ch "," → isWhiteSpace close = false → allWhiteSpace ws →
  replaceCommaBefore close None (a ++ ch "," :: ws ++ close :: rest)
  = replaceCommaBefore close None a
    ++ close :: replaceCommaBefore close None rest.
Proof.
  intros Hcomma Hclose Hws.
  rewrite replaceComma_at_comma by exact Hcomma. f_equal.
  apply replaceComma_pending; assumption.
Qed.

Lemma hasTrailingComma_app (close : N) (pre s : jsstring) :
  hasTrailingComma close s → hasTrailingComma close (pre ++ s).
Proof.
  intros (a & ws & rest & Hws & ->). exists (pre ++ a), ws, rest.
  split; [exact Hws|]. rewrite <- app_assoc. reflexivity.
Qed.

(** A text without a match is left as it is, also while a comma is pending. *)
Lemma replaceComma_unmatched (close : N) (s : jsstring) :
  (¬ hasTrailingComma close s → replaceCommaBefore close None s = s)
  ∧ (∀ ws, allWhiteSpace ws →
           ¬ hasTrailingComma close (ch "," :: ws ++ s) →
           replaceCommaBefore close (Some (ch "," :: ws)) s
           = ch "," :: ws ++ s).
Proof.
  induction s as [|c s [IHn IHp]]; split.
  - reflexivity.
  - intros ws _ _. cbn. rewrite app_nil_r. reflexivity.
  - intros Hno. cbn [replaceCommaBefore].
    destruct (N.eqb_spec c (ch ",")) as [->|_].
    + apply (IHp [] eq_refl). exact Hno.
    + f_equal. apply IHn. intros Hm. apply Hno.
      apply (hasTrailingComma_app close [c]). exact Hm.
  - intros ws Hws Hno. cbn [replaceCommaBefore].
    destruct (N.eqb_spec c close) as [->|_].
    { exfalso. apply Hno. exists [], ws, s. split; [exact Hws|reflexivity]. }
    destruct (isWhiteSpace c) eqn:Hc.
    { cbn [app]. rewrite (IHp (ws ++ [c])).
      - rewrite <- app_assoc. reflexivity.
      - unfold allWhiteSpace. rewrite forallb_app, Hws. cbn. rewrite Hc.
        reflexivity.
      - rewrite <- app_assoc. exact Hno. }
    assert (Htail : ¬ hasTrailingComma close s).
    { intros Hm. apply Hno.
      apply (hasTrailingComma_app close (ch "," :: ws ++ [c])) in Hm.
      cbn [app] in Hm. rewrite <- app_assoc in Hm. exact Hm. }
    destruct (N.eqb_spec c (ch ",")) as [->|_].
    + rewrite (IHp [] eq_refl).
      * reflexivity.
      * intros Hm. apply Hno.
        apply (hasTrailingComma_app close (ch "," :: ws)) in Hm.
        exact Hm.
    + rewrite IHn by exact Htail. reflexivity.
Qed.

(** The two replacements together: a comma before a closing brace or bracket
    goes, with the white space between them, whatever stands before it. *)
Lemma cleanTrailingCommas_match (close : N) (a ws rest : jsstring) :
  close = ch "}" ∨ close = ch "]" → allWhiteSpace ws →
  cleanTrailingCommas (a ++ ch "," :: ws ++ close :: rest)
  = cleanTrailingCommas a ++ close :: cleanTrailingCommas rest.
Proof.
  intros [-> | ->] Hws; unfold cleanTrailingCommas.
  - rewrite (replaceComma_match (ch "}")) by (done || exact Hws).
    apply replaceComma_at_other; done.
  - change (a ++ ch "," :: ws ++ ch "]" :: rest)
      with (a ++ (ch "," :: ws) ++ ch "]" :: rest).
    rewrite app_assoc.
    rewrite (replaceComma_at_other (ch "}") (ch "]")) by done.
    rewrite (replaceComma_at_comma (ch "}")) by done.
    rewrite (replaceComma_white (ch "}")) by (done || exact Hws).
    rewrite <- !app_assoc. cbn [app].
    apply (replaceComma_match (ch "]")); done || exact Hws.
Qed.

Lemma cleanTrailingCommas_unmatched (text : jsstring) :
  ¬ hasTrailingComma (ch "}") text → ¬ hasTrailingComma (ch "]") text →
  cleanTrailingCommas text = text.
Proof.
  intros Hbrace Hbracket. unfold cleanTrailingCommas.
  rewrite (proj1 (replaceComma_unmatched (ch "}") text) Hbrace).
  apply (proj1 (replaceComma_unmatched (ch "]") text) Hbracket).
Qed.


Section Lenient.
Context `{Host}.

Lemma safeParseJSON_outcome (candidate : jsstring) :
(∃ v, safeParseJSON candidate = inr v) ∨ allAttemptsFail candidate.
Proof.
unfold safeParseJSON, allAttemptsFail.
destruct (JSON_parse candidate) as [v|]; [left; eauto|].
destruct (JSON_parse (cleanTrailingCommas candidate)) as [v|]; [left; eauto|].
destruct (matchBraceBlock (cleanTrailingCommas candidate)) as [block|].
- destruct (JSON_parse block) as [v|] eqn:Eb; [left; eauto|].
  right. repeat split. intros b [= <-]. exact Eb.
- right. repeat split. discriminate.
Qed.

Lemma safeParseJSON_fails (candidate : jsstring) :
allAttemptsFail candidate → ∃ e, safeParseJSON candidate = inl e.
Proof.
unfold safeParseJSON. intros (E1 & E2 & E3). rewrite E1, E2.
destruct (matchBraceBlock (cleanTrailingCommas candidate)) as [block|].
- rewrite (E3 block eq_refl). eauto.
- eauto.
Qed.

Lemma parseCandidate_invalid (candidate : jsstring) :
parseCandidate candidate = inl InvalidJson ↔ allAttemptsFail candidate.
Proof.
unfold parseCandidate. split.
- intros E. destruct (safeParseJSON_outcome candidate) as [[v Ev]|Hf];
    [|exact Hf].
  rewrite Ev in E. discriminate.
- intros Hf. destruct (safeParseJSON_fails candidate Hf) as [e ->].
  reflexivity.
Qed.

Lemma parseCandidate_error (candidate : jsstring) (e : Exn) :
parseCandidate candidate = inl e → e = InvalidJson.
Proof.
unfold parseCandidate, try_catch, throw.
  destruct (safeParseJSON candidate); congruence.
Qed.

Lemma processText_invalid (rawText candidate : jsstring) :
findJsonCandidate rawText = Some candidate → candidate ≠ [] →
(processText rawText = inl InvalidJson ↔ allAttemptsFail candidate).
Proof.
intros Ec Hne. unfold processText. rewrite Ec.
assert (Er : requireCandidate (Some candidate) = inr candidate)
  by (destruct candidate; [congruence|reflexivity]).
rewrite Er. cbn [mbind Result_bind].
rewrite <- parseCandidate_invalid. split.
- intros E. destruct (parseCandidate candidate) as [e|parsed] eqn:Ep.
  + cbn in E. congruence.
  + cbn [mbind Result_bind] in E.
    destruct (normalize parsed) as [e|final] eqn:En; [|discriminate].
    apply normalize_error in En. subst e. discriminate.
- intros ->. reflexivity.
Qed.

(** The no-JSON error is raised for a missing or empty candidate only. *)
Lemma processText_NoJsonFound_iff (rawText : jsstring) :
  processText rawText = inl NoJsonFound
  ↔ findJsonCandidate rawText = None ∨ findJsonCandidate rawText = Some [].
Proof.
  split; [|apply processText_no_candidate].
  unfold processText.
  destruct (findJsonCandidate rawText) as [[|c candidate]|]; auto.
  cbn [requireCandidate mbind Result_bind mret Result_ret].
  intros E. exfalso.
  destruct (parseCandidate (c :: candidate)) as [e|parsed] eqn:Ep.
  - apply parseCandidate_error in Ep. subst e. discriminate E.
  - cbn [mbind Result_bind] in E.
    destruct (normalize parsed) as [e|final] eqn:En; [|discriminate E].
    apply normalize_error in En. subst e. discriminate E.
Qed.

(** C5.  The lenient parser returns the strict parse of the candidate when
  it succeeds; failing that, the parse of the candidate with every comma
  that stands, possibly after white space, before a closing brace (and then
  before a closing bracket) removed; failing that, the parse of the
  first-brace-to-last-brace block of that cleaned text.  The parse step
  fails with the invalid-JSON error exactly when all three attempts fail,
  and with no other error; and so does the pipeline on a text with a
  non-empty candidate.

  The cleaning is stated for every text: a comma before a closing brace or
  bracket goes, with the white space between them, whatever stands before
  it, commas included, and the text on either side is cleaned on its own; a
  text without such a comma is left as it is.  The block is stated for every
  text: it runs from the first opening brace to the last closing brace, and
  there is none exactly when no closing brace follows an opening one; the
  third attempt and its two error messages are stated on that block. *)
Theorem C5_lenient_parser (candidate : jsstring) :
(∀ v, JSON_parse candidate = Some v → safeParseJSON candidate = inr v)
∧ (JSON_parse candidate = None →
     ∀ v, JSON_parse (cleanTrailingCommas candidate) = Some v →
          safeParseJSON candidate = inr v)
∧ (JSON_parse candidate = None →
     JSON_parse (cleanTrailingCommas candidate) = None →
     ∀ block v,
       matchBraceBlock (cleanTrailingCommas candidate) = Some block →
       JSON_parse block = Some v → safeParseJSON candidate = inr v)
∧ (parseCandidate candidate = inl InvalidJson ↔ allAttemptsFail candidate)
∧ (∀ e, parseCandidate candidate = inl e → e = InvalidJson)
∧ (∀ rawText,
     findJsonCandidate rawText = Some candidate → candidate ≠ [] →
     (processText rawText = inl InvalidJson ↔ allAttemptsFail candidate))
∧ cleanTrailingCommas candidate
  = replaceCommaBefore (ch "]") None
      (replaceCommaBefore (ch "}") None candidate)
∧ (∀ close a ws rest,
     close = ch "}" ∨ close = ch "]" → ch "," ∉ a → allWhiteSpace ws →
     replaceCommaBefore close None (a ++ ch "," :: ws ++ close :: rest)
     = a ++ close :: replaceCommaBefore close None rest)
∧ (ch "," ∉ candidate → cleanTrailingCommas candidate = candidate)
∧ (∀ close a ws rest,
     close = ch "}" ∨ close = ch "]" → allWhiteSpace ws →
     cleanTrailingCommas (a ++ ch "," :: ws ++ close :: rest)
     = cleanTrailingCommas a ++ close :: cleanTrailingCommas rest)
∧ (∀ close a ws rest,
     close = ch "}" ∨ close = ch "]" → allWhiteSpace ws →
     replaceCommaBefore close None (a ++ ch "," :: ws ++ close :: rest)
     = replaceCommaBefore close None a
       ++ close :: replaceCommaBefore close None rest)
∧ (∀ text,
     ¬ hasTrailingComma (ch "}") text → ¬ hasTrailingComma (ch "]") text →
     cleanTrailingCommas text = text)
∧ (∀ a m z,
     ch "{" ∉ a → ch "}" ∉ z →
     matchBraceBlock (a ++ ch "{" :: m ++ ch "}" :: z)
     = Some (ch "{" :: m ++ [ch "}"]))
∧ (∀ text, ¬ hasBraceBlock text → matchBraceBlock text = None)
∧ (JSON_parse candidate = None →
     JSON_parse (cleanTrailingCommas candidate) = None →
     ∀ a m z,
       cleanTrailingCommas candidate = a ++ ch "{" :: m ++ ch "}" :: z →
       ch "{" ∉ a → ch "}" ∉ z →
       safeParseJSON candidate
       = match JSON_parse (ch "{" :: m ++ [ch "}"]) with
         | Some v => inr v
         | None =>
             inl (Error "Safe parse failed: JSON invalid after cleaning.")
         end)
∧ (JSON_parse candidate = None →
     JSON_parse (cleanTrailingCommas candidate) = None →
     ¬ hasBraceBlock (cleanTrailingCommas candidate) →
     safeParseJSON candidate = inl (Error "Safe parse failed: Not valid JSON."))
∧ (allAttemptsFail candidate
   ↔ JSON_parse candidate = None
     ∧ JSON_parse (cleanTrailingCommas candidate) = None
     ∧ ∀ a m z,
         cleanTrailingCommas candidate = a ++ ch "{" :: m ++ ch "}" :: z →
         ch "{" ∉ a → ch "}" ∉ z →
         JSON_parse (ch "{" :: m ++ [ch "}"]) = None).
Proof.
assert (Hnone : ∀ text, ¬ hasBraceBlock text → matchBraceBlock text = None).
{ intros text Hno.
  destruct (matchBraceBlock_spec text)
    as [[E _]|(a & m & z & E & _)]; [exact E|].
  exfalso. apply Hno. exists a, m, z. exact E. }
repeat match goal with |- _ ∧ _ => split end.
- intros v E. unfold safeParseJSON. rewrite E. reflexivity.
- intros E1 v E2. unfold safeParseJSON. rewrite E1, E2. reflexivity.
- intros E1 E2 block v E3 E4. unfold safeParseJSON.
  rewrite E1, E2, E3, E4. reflexivity.
- apply parseCandidate_invalid.
- apply parseCandidate_error.
- intros rawText. apply processText_invalid.
- reflexivity.
- intros close a ws rest Hclose Ha Hws.
  apply replaceComma_trailing; [|assumption|assumption].
  destruct Hclose as [->| ->]; reflexivity.
- intros Hc. unfold cleanTrailingCommas.
  rewrite (replaceComma_none (ch "}") candidate Hc).
  apply (replaceComma_none (ch "]") candidate Hc).
- apply cleanTrailingCommas_match.
- intros close a ws rest Hclose Hws.
  apply replaceComma_match; [| |exact Hws];
    destruct Hclose as [->| ->]; done.
- apply cleanTrailingCommas_unmatched.
- apply matchBraceBlock_found.
- exact Hnone.
- intros E1 E2 a m z Ec Ha Hz. unfold safeParseJSON.
  rewrite E1, E2, Ec, (matchBraceBlock_found a m z Ha Hz).
  destruct (JSON_parse (ch "{" :: m ++ [ch "}"])); reflexivity.
- intros E1 E2 Hno. unfold safeParseJSON.
  rewrite E1, E2, (Hnone _ Hno). reflexivity.
- unfold allAttemptsFail. split.
  + intros (E1 & E2 & E3). split; [exact E1|]. split; [exact E2|].
    intros a m z Ec Ha Hz. apply E3.
    rewrite Ec. apply matchBraceBlock_found; assumption.
  + intros (E1 & E2 & E3). split; [exact E1|]. split; [exact E2|].
    intros block Eb.
    destruct (matchBraceBlock_spec (cleanTrailingCommas candidate))
      as [[En _]|(a & m & z & Ec & Ha & Hz & Em)]; [congruence|].
    rewrite Em in Eb. injection Eb as <-.
    apply (E3 a m z Ec Ha Hz).
Qed.

End Lenient.

(** A character is none of the characters of a given text. *)
Ltac not_among :=
  let Hin := fresh "Hin" in
  intros Hin; vm_compute in Hin;
  repeat (apply elem_of_cons in Hin as [Hin|Hin]; [discriminate Hin|]);
  inversion Hin.

Lemma C5_lenient_parser_witness :
  safeParseJSON (H := RefHost.host) trailingCommaText
  = inr (JObj [(str "a", JArr [JNum (Fin 1); JNum (Fin 2)])])
  ∧ parseCandidate (H := RefHost.host) brokenText = inl InvalidJson
  ∧ processText (H := RefHost.host) brokenText = inl InvalidJson
  ∧ cleanTrailingCommas twoPropertyText = json "{'a':1,'b':2}"
  ∧ safeParseJSON (H := RefHost.host) twoPropertyText
    = inr (JObj [(str "a", JNum (Fin 1)); (str "b", JNum (Fin 2))])
  ∧ matchBraceBlock proseText = Some twoPropertyText
  ∧ safeParseJSON (H := RefHost.host) proseText
    = inr (JObj [(str "a", JNum (Fin 1)); (str "b", JNum (Fin 2))])
  ∧ safeParseJSON (H := RefHost.host) (json "no block here")
    = inl (Error "Safe parse failed: Not valid JSON.").
Proof.
  assert (Hfail : allAttemptsFail (H := RefHost.host) (json "{oops}")).
  { split; [reflexivity|]. split; [reflexivity|].
    intros block E. vm_compute in E. injection E as <-. reflexivity. }
  assert (Hfail' : allAttemptsFail (H := RefHost.host) brokenText).
  { split; [reflexivity|]. split; [reflexivity|].
    intros block E. vm_compute in E. injection E as <-. reflexivity. }
  repeat match goal with |- _ ∧ _ => split end.
  - apply (C5_lenient_parser (H := RefHost.host) trailingCommaText);
      vm_compute; reflexivity.
  - apply (C5_lenient_parser (H := RefHost.host) brokenText). exact Hfail'.
  - destruct (C5_lenient_parser (H := RefHost.host) (json "{oops}"))
      as (_ & _ & _ & _ & _ & Hpipe & _).
    apply (Hpipe brokenText); [vm_compute; reflexivity|discriminate|].
    exact Hfail.
  - destruct (C5_lenient_parser (H := RefHost.host) twoPropertyText)
      as (_ & _ & _ & _ & _ & _ & _ & _ & _ & Hclean & _).
    exact (Hclean (ch "}") (json "{'a':1,'b':2") [] []
             (or_introl eq_refl) eq_refl).
  - apply (C5_lenient_parser (H := RefHost.host) twoPropertyText);
      vm_compute; reflexivity.
  - destruct (C5_lenient_parser (H := RefHost.host) proseText)
      as (_ & _ & _ & _ & _ & _ & _ & _ & _ & _ & _ & _ & Hblock & _).
    apply (Hblock (json "so: ") (json "'a':1,'b':2,") (json " ok?")).
    + not_among.
    + not_among.
  - destruct (C5_lenient_parser (H := RefHost.host) proseText)
      as (_ & _ & _ & _ & _ & _ & _ & _ & _ & _ & _ & _ & _ & _ & Hthird & _).
    apply (Hthird eq_refl eq_refl (json "so: ") (json "'a':1,'b':2")
             (json " ok?") eq_refl).
    + not_among.
    + not_among.
  - destruct (C5_lenient_parser (H := RefHost.host) (json "no block here"))
      as (_ & _ & _ & _ & _ & _ & _ & _ & _ & _ & _ & _ & _ & _ & _ & Hnob & _).
    apply (Hnob eq_refl eq_refl).
    intros (a & m & z & E).
    assert (Hin : ch "{" ∈ a ++ ch "{" :: m ++ ch "}" :: z)
      by (apply elem_of_app; right; left).
    rewrite <- E in Hin. revert Hin. not_among.
Defined.

(** ** C6: text extraction *)

Section Extraction.
Context `{Host}.

Lemma JSON_stringify_cases (v : JSValue) :
(v = JUndefined ∧ JSON_stringify v = None)
∨ (∃ q, v = JNum (Fin q) ∧ JSON_stringify v = Some (NumberToString q))
∨ (∃ c s, JSON_stringify v = Some (c :: s)).
Proof.
destruct v as [| |[]|[| | |q]|s|items|props]; cbn [JSON_stringify];
  try (right; right; eexists _, _; reflexivity).
- left. split; reflexivity.
- right. left. eexists. split; reflexivity.
Qed.

(** When serialization gives no text either, the last resort gives the empty
  string. *)
Lemma last_resort (r : Response) :
GeminiService.viaStringify r = None →
ToString (responseData r ?? JStr []) = inr [].
Proof.
unfold GeminiService.viaStringify.
destruct (JSON_stringify_cases (responseData r))
  as [[-> E]|[(q & -> & E)|(c & s & E)]]; rewrite E.
- reflexivity.
- cbn [coalesce nullish ToString primToString].
  destruct (NumberToString q); [reflexivity|discriminate].
- discriminate.
Qed.

Lemma extractRawText_first (r : Response) :
GeminiService.extractRawText r = inr (default [] (firstSome strategies r)).
Proof.
unfold GeminiService.extractRawText, strategies. cbn [firstSome].
destruct (GeminiService.viaTextCall r); [reflexivity|].
destruct (GeminiService.viaTextField r); [reflexivity|].
destruct (GeminiService.viaOutputText r); [reflexivity|].
destruct (GeminiService.viaOutputs r); [reflexivity|].
destruct (GeminiService.viaStringify r) eqn:E; [reflexivity|].
apply last_resort. exact E.
Qed.

(** The inline extraction of [decisionSherlock.ts] turns every exception
  into its own error. *)
Lemma extractInline_error (r : Response) (e : Exn) :
extractInline r = inl e → e = ExtractFailed.
Proof.
unfold extractInline, try_catch, throw.
match goal with |- match ?m with _ => _ end = _ → _ => destruct m end;
  congruence.
Qed.

Lemma extractInline_throwing (e : Exn) (props : list (jsstring * JSValue)) :
truthy (default JUndefined (lookupProp (str "value") props)) = false →
extractInline (RWithText (inl e) props) = inl ExtractFailed.
Proof. intros E. unfold extractInline. rewrite E. reflexivity. Qed.


End Extraction.



(** ** C8: a conforming payload *)

Lemma floor_half (z : Z) : Qfloor (inject_Z z + (1 # 2)) = z.
Proof.
  unfold Qfloor, Qplus, inject_Z. cbn [Qnum Qden].
  replace (z * Z.pos 2 + 1 * Z.pos 1)%Z with (1 + z * 2)%Z by lia.
  rewrite Z.div_add by lia. reflexivity.
Qed.

Lemma map_eq_Forall2 {A B C} (f : A → C) (g : B → C)
    (l : list A) (l' : list B) :
  map f l = map g l' → Forall2 (λ a b, f a = g b) l l'.
Proof.
  revert l'. induction l as [|a l IH]; intros [|b l'] E;
    try discriminate; constructor.
  - cbn [map] in E. injection E as E _. exact E.
  - cbn [map] in E. injection E as _ E. apply IH. exact E.
Qed.

Lemma Forall2_right_and {A B} (R : A → B → Prop) (P : B → Prop)
    (l : list A) (l' : list B) :
  Forall2 R l l' → Forall P l' → Forall2 (λ a b, R a b ∧ P b) l l'.
Proof.
  induction 1 as [|a b l l' Hab _ IH]; intros HP; constructor.
  - split; [exact Hab|]. inversion HP; assumption.
  - apply IH. inversion HP; assumption.
Qed.

Section RoundTrip.
Context `{Host}.

Lemma clampNumber_score (q : Q) (z : Z) :
q == inject_Z z → (0 ≤ z ≤ 100)%Z → clampNumber (Fin q) = Fin (inject_Z z).
Proof.
intros Eq Hz. rewrite (clampNumber_comp q (inject_Z z) Eq).
unfold clampNumber. cbn [isNaN num_lt Math_round].
assert (H0 : Qltb (inject_Z z) 0 = false).
{ apply Qltb_ge. change 0%Q with (inject_Z 0). rewrite <- Zle_Qle. lia. }
assert (H1 : Qltb 100 (inject_Z z) = false).
{ apply Qltb_ge. change 100%Q with (inject_Z 100). rewrite <- Zle_Qle. lia. }
rewrite H0, H1, floor_half. reflexivity.
Qed.

Lemma clampScore_score (q : Q) (z : Z) :
q == inject_Z z → (0 ≤ z ≤ 100)%Z →
clampScore (JNum (Fin q)) = inr (Fin (inject_Z z)).
Proof.
intros Eq Hz. rewrite clampScore_number.
rewrite (clampNumber_score q z Eq Hz). reflexivity.
Qed.

Lemma clampScore_JNum_total (n : JSNum) : ∃ r, clampScore (JNum n) = inr r.
Proof.
rewrite clampScore_unfold. unfold or_else.
destruct (truthy (JNum n)); cbn; eauto.
Qed.

Lemma getProp_object (props : list (jsstring * JSValue)) (k : string) :
getProp (JObj props) k = inr (default JUndefined (lookupProp (str k) props)).
Proof. reflexivity. Qed.

Lemma normalizeCriterion_conforming (ca : JSValue) (shape : CriterionShape) :
conformsCriterion ca shape →
∃ c, normalizeCriterion ca = inr c
     ∧ criterionShape c = expectedCriterion shape.
Proof.
intros (props & q & r & -> & Eid & Esc & Eq & Hz & Er & Econf).
unfold normalizeCriterion. rewrite !getProp_object.
cbn [mbind Result_bind]. rewrite Eid, Esc, Er.
cbn [default from_option id coalesce nullish].
rewrite (clampScore_score q shape.2 Eq Hz).
cbn [mbind Result_bind ToString primToString mret Result_ret].
destruct Econf as [->|[n ->]]; cbn [default from_option id].
- eexists. split; reflexivity.
- destruct (clampScore_JNum_total n) as [c ->].
  eexists. split; reflexivity.
Qed.

Lemma renormalizeCriterion_shape (c : ParsedCriteriaAnalysis)
  (shape : CriterionShape) :
criterionShape c = expectedCriterion shape → (0 ≤ shape.2 ≤ 100)%Z →
∃ c', renormalizeCriterion c = inr c'
      ∧ criterionShape c' = expectedCriterion shape.
Proof.
unfold criterionShape, expectedCriterion. intros [= Eid Esc] Hz.
unfold renormalizeCriterion. rewrite Esc, Eid.
rewrite (clampScore_score (inject_Z shape.2) shape.2 (Qeq_refl _) Hz).
cbn [mbind Result_bind].
destruct (confidence c) as [n|].
- destruct (clampScore_JNum_total n) as [n' ->].
  eexists. split; reflexivity.
- eexists. split; reflexivity.
Qed.

Lemma mapArray_strings (items : list JSValue) :
allStrings items → ∃ l, mapArray ToString items = inr l.
Proof.
intros Hs. apply mapArray_total.
eapply Forall_impl; [exact Hs|]. cbn. intros x [s ->]. eexists. reflexivity.
Qed.

Lemma mapArray_shapes {A B S T} (f : A → Result B) (R : A → S → Prop)
  (proj : B → T) (expected : S → T) (l : list A) (shapes : list S) :
(∀ x s, R x s → ∃ y, f x = inr y ∧ proj y = expected s) →
Forall2 R l shapes →
∃ r, mapArray f l = inr r ∧ map proj r = map expected shapes.
Proof.
intros Hf. induction 1 as [|x s l shapes Hx _ (r & Er & Em)].
- exists []. split; reflexivity.
- destruct (Hf x s Hx) as (y & Ey & Ep).
  exists (y :: r). cbn [mapArray]. rewrite Ey, Er. cbn.
  split; [reflexivity|]. rewrite Ep, Em. reflexivity.
Qed.

Lemma normalizeOption_conforming (a : JSValue) (shape : OptionShape) :
conformsOption a shape →
∃ o, normalizeOption a = inr o ∧ optionShape o = expectedOption shape.
Proof.
intros (props & cas & ps & cs & -> & Eid & Eca & Hcas & Eps & Hps & Ecs & Hcs).
destruct (mapArray_shapes normalizeCriterion conformsCriterion
            criterionShape expectedCriterion cas shape.2
            normalizeCriterion_conforming Hcas) as (ncas & Encas & Emap).
destruct (mapArray_strings ps Hps) as (lps & Elps).
destruct (mapArray_strings cs Hcs) as (lcs & Elcs).
unfold normalizeOption, stringList. rewrite !getProp_object.
cbn [mbind Result_bind]. rewrite Eid, Eca, Eps, Ecs.
cbn [default from_option id coalesce nullish]. rewrite Encas. cbn [mbind Result_bind].
rewrite Elps, Elcs. cbn [mbind Result_bind ToString primToString].
eexists. split; [reflexivity|].
unfold optionShape, expectedOption. cbn. rewrite Emap. reflexivity.
Qed.

Lemma criterion_in_range_of_conforming (cas : list JSValue)
  (shapes : list CriterionShape) :
Forall2 conformsCriterion cas shapes →
Forall (λ s, (0 ≤ s.2 ≤ 100)%Z) shapes.
Proof.
induction 1 as [|x s l shapes Hx _ IH]; constructor; [|exact IH].
destruct Hx as (props & q & r & _ & _ & _ & _ & Hz & _). exact Hz.
Qed.

Lemma renormalizeOption_shape (o : ParsedOptionAnalysis) (shape : OptionShape) :
optionShape o = expectedOption shape →
Forall (λ s, (0 ≤ s.2 ≤ 100)%Z) shape.2 →
∃ o', renormalizeOption o = inr o' ∧ optionShape o' = expectedOption shape.
Proof.
unfold optionShape, expectedOption. intros [= Eid Ecas] Hrange.
assert (Hrel : Forall2 (λ c s, criterionShape c = expectedCriterion s
                               ∧ (0 ≤ s.2 ≤ 100)%Z)
                 (criteriaAnalysis o) shape.2).
{ apply map_eq_Forall2 in Ecas. apply Forall2_right_and; assumption. }
destruct (mapArray_shapes renormalizeCriterion
            (λ c s, criterionShape c = expectedCriterion s
                    ∧ (0 ≤ s.2 ≤ 100)%Z)
            criterionShape expectedCriterion (criteriaAnalysis o) shape.2)
  as (cas' & Ecas' & Emap); [|exact Hrel|].
{ intros c s [Hc Hs]. apply renormalizeCriterion_shape; assumption. }
unfold renormalizeOption. rewrite Ecas'. cbn [mbind Result_bind].
eexists. split; [reflexivity|]. cbn. rewrite Eid, Emap. reflexivity.
Qed.

Lemma normalize_conforming (parsedRaw : JSValue) (shape : list OptionShape) :
conformsResult parsedRaw shape →
∃ r, normalize parsedRaw = inr r
     ∧ map optionShape (analysis r) = map expectedOption shape.
Proof.
intros (props & opts & vd & w & rc & -> & Ea & Hopts & Ev & Ew & Er).
destruct (mapArray_shapes normalizeOption conformsOption optionShape
            expectedOption opts shape normalizeOption_conforming Hopts)
  as (l1 & El1 & Em1).
assert (Hrel : Forall2 (λ o s, optionShape o = expectedOption s
                               ∧ Forall (λ c, (0 ≤ c.2 ≤ 100)%Z) s.2)
                 l1 shape).
{ apply mapArray_inr in El1. clear Em1 Ea.
  revert l1 El1. induction Hopts as [|a s opts shape Ha _ IH];
    intros l1 El1; inversion El1; subst; constructor.
  - destruct (normalizeOption_conforming a s Ha) as (o & Eo & Hs).
    split.
    + match goal with
      | E : normalizeOption a = inr ?y |- _ =>
          rewrite Eo in E; injection E as <-
      end. exact Hs.
    + destruct Ha as (? & cas & ? & ? & _ & _ & _ & Hcas & _).
      eapply criterion_in_range_of_conforming. exact Hcas.
  - apply IH. assumption. }
destruct (mapArray_shapes renormalizeOption
            (λ o s, optionShape o = expectedOption s
                    ∧ Forall (λ c, (0 ≤ c.2 ≤ 100)%Z) s.2)
            optionShape expectedOption l1 shape)
  as (l2 & El2 & Em2); [|exact Hrel|].
{ intros o s [Ho Hs]. apply renormalizeOption_shape; assumption. }
unfold normalize. rewrite !getProp_object. cbn [mbind Result_bind].
rewrite Ea. cbn [default from_option id coalesce nullish].
unfold ensureAnalysisArray. cbn [truthy negb].
cbn [mbind Result_bind mret Result_ret].
rewrite El1. cbn [mbind Result_bind]. rewrite El2.
cbn [mbind Result_bind].
eexists. split; [reflexivity|]. exact Em2.
Qed.

(** C8.  A payload after the first marker that is the text of an object,
  possibly with white space around it, and that parses to a value of the
  advertised schema is normalized to a result of the same shape: as many
  option analyses, with the same option identifiers, criterion identifiers
  and scores, in the same order. *)
Theorem C8_round_trip (rawText pre ws1 text ws2 : jsstring)
  (parsed : JSValue) (shape : list OptionShape) :
firstOccurrence DecisionSherlock.marker pre (ws1 ++ text ++ ws2) rawText →
allWhiteSpace ws1 → allWhiteSpace ws2 → isObjectText text →
JSON_parse text = Some parsed →
conformsResult parsed shape →
∃ r, processText rawText = inr r
     ∧ length (analysis r) = length shape
     ∧ map optionShape (analysis r) = map expectedOption shape.
Proof.
intros Hfirst H1 H2 Htext Eparse Hconf.
destruct (findJsonCandidate_marker _ _ _ Hfirst) as [Ec _].
rewrite (stripFences_plain ws1 text ws2 H1 H2 Htext) in Ec.
destruct (normalize_conforming parsed shape Hconf) as (r & Er & Em).
exists (inferWinner r). unfold processText. rewrite Ec.
assert (Ereq : requireCandidate (Some text) = inr text)
  by (destruct Htext as (mid & ->); reflexivity).
rewrite Ereq. cbn [mbind Result_bind].
unfold parseCandidate, safeParseJSON. rewrite Eparse.
cbn [try_catch mret Result_ret mbind Result_bind]. rewrite Er.
cbn [mbind Result_bind]. split; [reflexivity|].
rewrite inferWinner_analysis. split; [|exact Em].
rewrite <- (length_map optionShape), Em, length_map. reflexivity.
Qed.

End RoundTrip.

Lemma conformingParsed_conforms : conformsResult conformingParsed conformingShape.
Proof.
  unfold conformsResult, conformingParsed.
  eexists _, _, _, _, _. split; [reflexivity|].
  split; [reflexivity|]. split; [|repeat split; reflexivity].
  constructor; [|constructor; [|constructor]].
  - eexists _, _, _, _. split; [reflexivity|].
    split; [reflexivity|]. split; [reflexivity|].
    split; [|repeat split; try reflexivity; repeat constructor; eexists; reflexivity].
    constructor; [|constructor; [|constructor]].
    + eexists _, _, _. split; [reflexivity|].
      repeat split; try reflexivity; try (cbn; lia). left. reflexivity.
    + eexists _, _, _. split; [reflexivity|].
      repeat split; try reflexivity; try (cbn; lia).
      right. eexists. reflexivity.
  - eexists _, _, _, _. split; [reflexivity|].
    repeat split; try reflexivity; constructor.
Qed.

Lemma C8_round_trip_witness :
  ∃ r, processText (H := RefHost.host)
         (DecisionSherlock.marker ++ [10%N] ++ conformingText ++ [10%N; 32%N])
       = inr r
       ∧ length (analysis r) = length conformingShape
       ∧ map optionShape (analysis r) = map expectedOption conformingShape.
Proof.
  apply (C8_round_trip (H := RefHost.host) _ [] [10%N] conformingText
           [10%N; 32%N] conformingParsed conformingShape).
  - split; [reflexivity|]. intros j Hj. cbn in Hj. lia.
  - reflexivity.
  - reflexivity.
  - exists conformingInner. reflexivity.
  - vm_compute. reflexivity.
  - exact conformingParsed_conforms.
Defined.

(** The scenario of the specification round-trips but for the score of 150,
    which is outside the schema and comes out as 100. *)
Example scenario_is_clamped :
  processText (H := RefHost.host) scenarioText = inr scenarioFinal
  ∧ map optionShape (analysis scenarioFinal)
    = [(str "o1", [(JStr (str "c1"), Fin 100)])].
Proof. split; vm_compute; reflexivity. Qed.

(** ** Where the normalizer does absorb *)

Section Totality.
Context `{Host}.

Lemma absorbable_items (items : list JSValue) :
absorbable (JArr items) = true →
Forall (λ x, nullish x = false ∧ absorbable x = true) items.
Proof.
cbn [absorbable]. induction items as [|x t IH]; intros E; constructor.
- apply andb_true_iff in E as [E _]. apply andb_true_iff in E as [E1 E2].
  apply negb_true_iff in E1. split; assumption.
- apply IH. apply andb_true_iff in E as [_ E]. exact E.
Qed.

Lemma absorbable_prop (v : JSValue) (k : string) :
absorbable v = true → absorbable (propOf v k) = true.
Proof.
destruct v as [| | | | | |props]; try reflexivity.
cbn [absorbable propOf]. destruct (lookupProp (str "toString") props);
  [discriminate|].
generalize (str k). intros key.
induction props as [|[k' x] t IH]; intros E; [reflexivity|].
apply andb_true_iff in E as [Ex Et]. cbn [lookupProp].
destruct (jsstring_eqb k' key); [exact Ex|]. exact (IH Et).
Qed.

Lemma getProp_total (v : JSValue) (k : string) :
nullish v = false → getProp v k = inr (propOf v k).
Proof. destruct v; (discriminate || reflexivity). Qed.

Lemma absorbable_coalesce (a b : JSValue) :
absorbable a = true → absorbable b = true → absorbable (a ?? b) = true.
Proof. unfold coalesce. destruct (nullish a); auto. Qed.

Lemma ToString_total (v : JSValue) :
absorbable v = true → ∃ s, ToString v = inr s.
Proof.
induction v as [| | | | |items IH|props _] using JSValue_induction;
  intros Hv; try (eexists; reflexivity).
- rewrite ToString_JArr. unfold joinArray.
  apply absorbable_items in Hv.
  destruct (mapArray_total (λ e, if nullish e then mret [] else ToString e)
              items) as [parts ->]; [|eexists; reflexivity].
  rewrite Forall_forall in IH, Hv. apply Forall_forall. intros x Hx.
  destruct (Hv x Hx) as [-> Hax]. exact (IH x Hx Hax).
- cbn [absorbable] in Hv. cbn [ToString]. unfold objectToPrimitive.
  destruct (lookupProp (str "toString") props); [discriminate|].
  eexists. reflexivity.
Qed.

Lemma ToNumber_total (v : JSValue) :
absorbable v = true → ∃ n, ToNumber v = inr n.
Proof.
intros Hv. destruct v as [| |[]|n|s|items|props];
  try (eexists; reflexivity).
- cbn [ToNumber]. destruct (ToString_total _ Hv) as [s ->].
  eexists. reflexivity.
- cbn [absorbable] in Hv. cbn [ToNumber]. unfold objectToPrimitive.
  destruct (lookupProp (str "toString") props); [discriminate|].
  eexists. reflexivity.
Qed.

Lemma clampScore_total (v : JSValue) :
absorbable v = true → ∃ n, clampScore v = inr n.
Proof.
intros Hv. rewrite clampScore_unfold.
destruct (ToNumber_total (or_else v (JNum (Fin 0)))) as [n ->].
- unfold or_else. destruct (truthy v); [exact Hv|reflexivity].
- eexists. reflexivity.
Qed.

Lemma normalizeCriterion_total (ca : JSValue) :
nullish ca = false → absorbable ca = true →
∃ c, normalizeCriterion ca = inr c.
Proof.
intros Hn Ha. unfold normalizeCriterion.
rewrite !(getProp_total ca) by exact Hn. cbn [mbind Result_bind].
destruct (clampScore_total
            (propOf ca "score" ?? propOf ca "sc" ?? propOf ca "value" ?? ca))
  as [sc ->].
{ repeat apply absorbable_coalesce; try apply absorbable_prop; exact Ha. }
cbn [mbind Result_bind].
destruct (ToString_total
            (propOf ca "reasoning" ?? propOf ca "reason"
             ?? propOf ca "notes" ?? JStr [])) as [rs ->].
{ repeat apply absorbable_coalesce; try apply absorbable_prop;
    (exact Ha || reflexivity). }
cbn [mbind Result_bind].
destruct (clampScore_total (propOf ca "confidence")) as [cf Ecf];
  [apply absorbable_prop; exact Ha|].
destruct (propOf ca "confidence"); try rewrite Ecf;
  cbn [mbind Result_bind]; eexists; reflexivity.
Qed.

Lemma mapArray_total_on {A B} (P : A → Prop) (f : A → Result B)
  (l : list A) :
(∀ x, P x → ∃ y, f x = inr y) → Forall P l → ∃ r, mapArray f l = inr r.
Proof.
intros Hf Hl. apply mapArray_total.
eapply Forall_impl; [exact Hl|]. exact Hf.
Qed.

Lemma stringList_total (a : JSValue) (k alt : string) :
nullish a = false → absorbable a = true →
∃ l, stringList a k alt = inr l.
Proof.
intros Hn Ha. unfold stringList.
rewrite !(getProp_total a) by exact Hn. cbn [mbind Result_bind].
pose proof (absorbable_prop a k Ha) as Hk.
pose proof (absorbable_prop a alt Ha) as Halt.
assert (Harr : ∀ items, absorbable (JArr items) = true →
                        ∃ l, mapArray ToString items = inr l).
{ intros items Hi. apply absorbable_items in Hi.
  apply (mapArray_total_on (λ x, nullish x = false ∧ absorbable x = true));
    [|exact Hi].
  intros x [_ Hx]. apply ToString_total. exact Hx. }
destruct (propOf a k) as [| | | | |items|props]; auto;
  destruct (propOf a alt) as [| | | | |items'|props']; auto;
  eexists; reflexivity.
Qed.

Lemma normalizeOption_total (a : JSValue) :
nullish a = false → absorbable a = true → ∃ o, normalizeOption a = inr o.
Proof.
intros Hn Ha. unfold normalizeOption.
rewrite !(getProp_total a) by exact Hn. cbn [mbind Result_bind].
set (rawCA := propOf a "criteriaAnalysis" ?? propOf a "criteria_analysis"
              ?? propOf a "criteria" ?? JArr []).
assert (Hraw : absorbable rawCA = true).
{ subst rawCA. repeat apply absorbable_coalesce;
    try apply absorbable_prop; (exact Ha || reflexivity). }
destruct (mapArray_total_on
            (λ x, nullish x = false ∧ absorbable x = true)
            normalizeCriterion
            (match rawCA with JArr items => items | _ => [] end))
  as [ncas ->].
{ intros x [Hx1 Hx2]. apply normalizeCriterion_total; assumption. }
{ destruct rawCA; try constructor. apply absorbable_items. exact Hraw. }
cbn [mbind Result_bind].
destruct (stringList_total a "pros" "positives" Hn Ha) as [ps ->].
destruct (stringList_total a "cons" "negatives" Hn Ha) as [cs ->].
cbn [mbind Result_bind].
destruct (ToString_total
            (propOf a "optionId" ?? propOf a "option_id"
             ?? propOf a "opt_id" ?? propOf a "id" ?? JStr (str "unknown")))
  as [oid ->].
{ repeat apply absorbable_coalesce; try apply absorbable_prop;
    (exact Ha || reflexivity). }
eexists. reflexivity.
Qed.

Lemma renormalizeOption_total (o : ParsedOptionAnalysis) :
∃ o', renormalizeOption o = inr o'.
Proof.
unfold renormalizeOption.
destruct (mapArray_total_on (λ _, True) renormalizeCriterion
            (criteriaAnalysis o)) as [cas ->].
- intros c _. unfold renormalizeCriterion.
  destruct (clampScore_JNum_total (score c)) as [sc ->].
  cbn [mbind Result_bind].
  destruct (confidence c) as [n|].
  + destruct (clampScore_JNum_total n) as [n' ->]. eexists. reflexivity.
  + eexists. reflexivity.
- apply Forall_forall. auto.
- eexists. reflexivity.
Qed.

Lemma ensureAnalysisArray_total (c : JSValue) :
  absorbable c = true →
  ∃ l, ensureAnalysisArray c = inr l
       ∧ Forall (λ x, nullish x = false ∧ absorbable x = true) l.
Proof.
  intros Hc. unfold ensureAnalysisArray.
  destruct (truthy c) eqn:Ht; cbn [negb]; [|exists []; split; constructor].
  assert (Hn : nullish c = false) by (destruct c; (discriminate || reflexivity)).
  destruct c as [| |b|n|s|items|props]; try discriminate.
  - exists []. split; [reflexivity|constructor].
  - exists []. split; [reflexivity|constructor].
  - exists []. split; [reflexivity|constructor].
  - exists items. split; [reflexivity|]. apply absorbable_items. exact Hc.
  - rewrite !getProp_total by exact Hn. cbn [mbind Result_bind].
    pose proof (absorbable_prop (JObj props) "analysis" Hc) as Ha.
    assert (Hself : ∃ l,
              (if (truthy (propOf (JObj props) "optionId")
                   && truthy (propOf (JObj props) "criteriaAnalysis"))%bool
               then mret [JObj props] else mret []) = (inr l : Result (list JSValue))
              ∧ Forall (λ x, nullish x = false ∧ absorbable x = true) l).
    { destruct (truthy (propOf (JObj props) "optionId")
                && truthy (propOf (JObj props) "criteriaAnalysis"))%bool.
      - exists [JObj props]. split; [reflexivity|].
        constructor; [split; [reflexivity|exact Hc]|constructor].
      - exists []. split; [reflexivity|constructor]. }
    destruct (propOf (JObj props) "analysis") as [| | | | |items|props'];
      try exact Hself.
    exists items. split; [reflexivity|]. apply absorbable_items. exact Ha.
Qed.

(** The normalizer returns a result for every parsed value other than
  [null] in which no array has a [null] entry and no object an own
  [toString] property. *)
Lemma normalize_total (parsedRaw : JSValue) :
nullish parsedRaw = false → absorbable parsedRaw = true →
∃ r, normalize parsedRaw = inr r.
Proof.
intros Hn Ha. unfold normalize.
rewrite !(getProp_total parsedRaw) by exact Hn. cbn [mbind Result_bind].
destruct (ensureAnalysisArray_total
            (propOf parsedRaw "analysis" ?? propOf parsedRaw "analysis"
             ?? parsedRaw)) as (raw & -> & Hraw).
{ repeat apply absorbable_coalesce; try apply absorbable_prop; exact Ha. }
cbn [mbind Result_bind].
destruct (mapArray_total_on
            (λ x, nullish x = false ∧ absorbable x = true)
            normalizeOption raw) as [opts ->]; [|exact Hraw|].
{ intros x [Hx1 Hx2]. apply normalizeOption_total; assumption. }
cbn [mbind Result_bind].
destruct (mapArray_total_on (λ _, True) renormalizeOption opts)
  as [opts' ->].
- intros o _. apply renormalizeOption_total.
- apply Forall_forall. auto.
- eexists. reflexivity.
Qed.

End Totality.

Example normalize_primitive :
  ∃ r, normalize (H := RefHost.host) (JNum (Fin 5)) = inr r ∧ analysis r = [].
Proof. eexists. split; reflexivity. Qed.

(** C7.  The normalizer raises on [null]: as the parsed value itself, as an
    entry of [analysis], and as an entry of [criteriaAnalysis]. *)
Theorem C7_normalizer_raises `{Host} :
  normalize JNull = inl TypeError
  ∧ normalize (JObj [(str "analysis", JArr [JNull])]) = inl TypeError
  ∧ normalize (JObj [(str "analysis", JArr [
        JObj [(str "optionId", JStr (str "o1"));
              (str "criteriaAnalysis", JArr [JNull])]])]) = inl TypeError
  ∧ processText (H := RefHost.host) (str "###RESULT_JSON###null")
    = inl TypeError.
Proof. repeat split; vm_compute; reflexivity. Qed.

(** ** The winner is copied, not validated *)

Section Winner.
Context `{Host}.

(** The winner of a normalized result is the first of [winnerId],
  [winner_id] and [winner] that the parsed object has, whatever the analysis
  holds. *)
Lemma normalize_winner_copied (parsedRaw : JSValue) (final : SherlockResult) :
normalize parsedRaw = inr final →
winnerId final
= propOf parsedRaw "winnerId" ?? propOf parsedRaw "winner_id"
  ?? propOf parsedRaw "winner" ?? JStr [].
Proof.
intros E.
assert (Hn : nullish parsedRaw = false).
{ destruct parsedRaw; try reflexivity; discriminate E. }
unfold normalize in E. rewrite !(getProp_total parsedRaw) in E by exact Hn.
cbn [mbind Result_bind] in E. inv_binds. subst final. reflexivity.
Qed.

(** A truthy winner survives the last step unchanged. *)
Lemma processText_winner_kept (rawText candidate : jsstring)
  (parsedRaw : JSValue) (final : SherlockResult) :
findJsonCandidate rawText = Some candidate → candidate ≠ [] →
parseCandidate candidate = inr parsedRaw →
normalize parsedRaw = inr final →
truthy (winnerId final) = true →
processText rawText = inr final.
Proof.
intros Ec Hne Ep En Ht. unfold processText. rewrite Ec.
assert (Er : requireCandidate (Some candidate) = inr candidate)
  by (destruct candidate; [congruence|reflexivity]).
rewrite Er. cbn [mbind Result_bind]. rewrite Ep. cbn [mbind Result_bind].
rewrite En. cbn [mbind Result_bind].
rewrite inferWinner_skipped by (left; exact Ht). reflexivity.
Qed.

End Winner.

(** C2.  A winner that names no option is returned as it came: the result
    of the text below has the single option [o1] and the winner [o9]. *)
Theorem C2_dangling_winner :
  processText (H := RefHost.host) danglingWinnerText = inr danglingWinnerFinal
  ∧ map optionId (analysis danglingWinnerFinal) = [str "o1"]
  ∧ winnerId danglingWinnerFinal = JStr (str "o9")
  ∧ ¬ winnerRefersToOption danglingWinnerFinal.
Proof.
  split; [vm_compute; reflexivity|].
  split; [reflexivity|]. split; [reflexivity|].
  intros [E|(opt & Hin & E)]; [discriminate|].
  destruct Hin as [<-|[]]. discriminate.
Qed.

(** ** Further examples from the specification *)

(** Without marker, the one object of the text is the candidate. *)
Example fallback_finds_object :
  findJsonCandidate (json "Here you go: {'analysis':[]} Hope it helps.")
  = Some (json "{'analysis':[]}").
Proof. vm_compute. reflexivity. Qed.

(** A single option object in place of the array is wrapped. *)
Example single_object_is_wrapped :
  ∃ r, normalize (H := RefHost.host) singleObjectAnalysis = inr r
       ∧ map optionId (analysis r) = [str "o1"].
Proof. eexists. split; vm_compute; reflexivity. Qed.

(** Alternate field names are accepted and a missing identifier becomes
    [unknown]. *)
Example field_name_fallback :
  ∃ r, processText (H := RefHost.host)
         (json "{'analysis':[{'criteria':[{'id':'c','sc':'41.5'}]}],'winner':'w','advice':'a'}")
       = inr r
       ∧ map optionShape (analysis r)
         = [(str "unknown", [(JStr (str "c"), Fin 42)])]
       ∧ winnerId r = JStr (str "w")
       ∧ recommendation r = JStr (str "a").
Proof. eexists. repeat split; vm_compute; reflexivity. Qed.
(** ** Share links: base64 and percent-encoding *)

Ltac divmod x k q r :=
  let Hq := fresh "Hq" in
  let Hr := fresh "Hr" in
  pose proof (N.div_mod' x k) as Hq;
  pose proof (N.mod_lt x k ltac:(discriminate)) as Hr;
  set (q := (x / k)%N) in *; set (r := (x mod k)%N) in *;
  clearbody q r.

Lemma below_forallb (P : N → bool) (n : nat) :
  forallb P (map N.of_nat (seq 0 n)) = true →
  ∀ i, (i < N.of_nat n)%N → P i = true.
Proof.
  intros Hall i Hi. rewrite forallb_forall in Hall. apply Hall.
  apply in_map_iff. exists (N.to_nat i). split; [lia|].
  apply in_seq. lia.
Qed.

Lemma base64Index_Char (i : N) :
  (i < 64)%N → base64Index (base64Char i) = Some i.
Proof.
  intros Hi.
  pose proof (below_forallb
    (λ i, bool_decide (base64Index (base64Char i) = Some i)) 64) as Hall.
  specialize (Hall eq_refl i Hi). apply bool_decide_eq_true in Hall.
  exact Hall.
Qed.

Lemma base64Char_alphabet (i : N) :
  (i < 64)%N → isBase64Char (base64Char i) = true.
Proof.
  intros Hi.
  exact (below_forallb (λ i, isBase64Char (base64Char i)) 64 eq_refl i Hi).
Qed.

Lemma list_ind3 {A} (P : list A → Prop) :
  P [] → (∀ a, P [a]) → (∀ a b, P [a; b]) →
  (∀ a b c t, P t → P (a :: b :: c :: t)) →
  ∀ l, P l.
Proof.
  intros H0 H1 H2 H3.
  assert (H : ∀ l, P l ∧ (∀ a, P (a :: l)) ∧ (∀ a b, P (a :: b :: l))).
  { induction l as [|x l (IH0 & IH1 & IH2)]; [auto|].
    repeat split; auto. }
  intros l. apply H.
Qed.

Lemma byte_groups (a b c : N) :
  (a <= 255)%N → (b <= 255)%N → (c <= 255)%N →
  ((a / 4) * 4 + ((a mod 4) * 16 + b / 16) / 16 = a
   ∧ (((a mod 4) * 16 + b / 16) mod 16) * 16 + ((b mod 16) * 4 + c / 64) / 4
     = b
   ∧ (((b mod 16) * 4 + c / 64) mod 4) * 64 + c mod 64 = c
   ∧ a / 4 < 64 ∧ (a mod 4) * 16 + b / 16 < 64
   ∧ (b mod 16) * 4 + c / 64 < 64 ∧ c mod 64 < 64)%N.
Proof.
  intros Ha Hb Hc.
  divmod a 4%N qa ra. divmod b 16%N qb rb. divmod c 64%N qc rc.
  divmod (ra * 16 + qb)%N 16%N q1 r1. divmod (rb * 4 + qc)%N 4%N q2 r2.
  lia.
Qed.

Lemma isLatin1_cons (c : N) (s : jsstring) :
  isLatin1 (c :: s) = true ↔ (c <= 255)%N ∧ isLatin1 s = true.
Proof.
  unfold isLatin1. cbn [forallb]. rewrite andb_true_iff, N.leb_le. tauto.
Qed.

Lemma base64Encode_split (s : list N) :
  base64Encode s = map base64Char (sextets s) ++ padding s.
Proof.
  induction s as [| | |a b c t IH] using list_ind3; try reflexivity.
  cbn [base64Encode sextets padding map app]. rewrite IH. reflexivity.
Qed.

Lemma sextets_bound (s : list N) :
  isLatin1 s = true → Forall (λ v, (v < 64)%N) (sextets s).
Proof.
  induction s as [|a|a b|a b c t IH] using list_ind3;
    rewrite ?isLatin1_cons; intros H.
  - constructor.
  - destruct H as (Ha & _).
    destruct (byte_groups a 0 0) as (_ & _ & _ & H1 & H2 & _); [lia..|].
    cbn [sextets]. change (0 / 16)%N with 0%N in H2. rewrite N.add_0_r in H2.
    repeat constructor; assumption.
  - destruct H as (Ha & Hb & _).
    destruct (byte_groups a b 0) as (_ & _ & _ & H1 & H2 & H3 & _); [lia..|].
    cbn [sextets]. change (0 / 64)%N with 0%N in H3. rewrite N.add_0_r in H3.
    repeat constructor; assumption.
  - destruct H as (Ha & Hb & Hc & Ht).
    destruct (byte_groups a b c) as (_ & _ & _ & H1 & H2 & H3 & H4); [lia..|].
    cbn [sextets]. repeat constructor; auto.
Qed.

Lemma base64Decode_sextets (s : list N) :
  isLatin1 s = true → base64Decode (sextets s) = s.
Proof.
  induction s as [|a|a b|a b c t IH] using list_ind3;
    rewrite ?isLatin1_cons; intros H.
  - reflexivity.
  - destruct H as (Ha & _).
    destruct (byte_groups a 0 0) as (E1 & _); [lia..|].
    cbn [sextets base64Decode].
    change (0 / 16)%N with 0%N in E1. rewrite N.add_0_r in E1.
    rewrite E1. reflexivity.
  - destruct H as (Ha & Hb & _).
    destruct (byte_groups a b 0) as (E1 & E2 & _); [lia..|].
    cbn [sextets base64Decode].
    change (0 / 64)%N with 0%N in E2. rewrite N.add_0_r in E2.
    rewrite E1, E2. reflexivity.
  - destruct H as (Ha & Hb & Hc & Ht).
    destruct (byte_groups a b c) as (E1 & E2 & E3 & _); [lia..|].
    cbn [sextets base64Decode]. rewrite E1, E2, E3, (IH Ht). reflexivity.
Qed.

Lemma sextets_length (s : list N) :
  length (sextets s) mod 4 ≠ 1
  ∧ (length (sextets s) + length (padding s)) mod 4 = 0.
Proof.
  induction s as [| | |a b c t IH] using list_ind3;
    try (split; [discriminate|reflexivity]).
  cbn [sextets padding length].
  replace (S (S (S (S (length (sextets t))))))
    with (length (sextets t) + 1 * 4) by lia.
  replace (length (sextets t) + 1 * 4 + length (padding t))
    with (length (sextets t) + length (padding t) + 1 * 4) by lia.
  rewrite !Nat.Div0.mod_add. exact IH.
Qed.

Lemma padding_cases (s : list N) :
  padding s = [] ∨ padding s = [61%N] ∨ padding s = [61%N; 61%N].
Proof.
  induction s as [| | |a b c t IH] using list_ind3; cbn [padding]; auto.
Qed.

Lemma base64Char_not_pad (i : N) : (i < 64)%N → base64Char i ≠ 61%N.
Proof.
  intros Hi E.
  pose proof (below_forallb (λ i, negb (N.eqb (base64Char i) 61)) 64
                eq_refl i Hi) as Hne.
  cbv beta in Hne. rewrite E in Hne. discriminate.
Qed.

Lemma base64Char_not_space (i : N) :
  (i < 64)%N → isAsciiWhitespace (base64Char i) = false.
Proof.
  intros Hi.
  pose proof (below_forallb (λ i, negb (isAsciiWhitespace (base64Char i)))
                64 eq_refl i Hi) as Hne.
  cbv beta in Hne. apply negb_true_iff in Hne. exact Hne.
Qed.

Lemma removePadding_none (l : jsstring) :
  Forall (λ c, c ≠ 61%N) l → removePadding l = l.
Proof.
  intros Hl. unfold removePadding.
  destruct (Nat.eqb _ 0); [|reflexivity].
  destruct (rev l) as [|c1 [|c2 r]] eqn:E; try reflexivity.
  assert (Hin : c1 ∈ l).
  { apply list_elem_of_In, in_rev. rewrite E. left. reflexivity. }
  rewrite Forall_forall in Hl. specialize (Hl c1 Hin).
  apply N.eqb_neq in Hl. rewrite Hl. reflexivity.
Qed.

Lemma removePadding_one (l : jsstring) :
  Forall (λ c, c ≠ 61%N) l → length (l ++ [61%N]) mod 4 = 0 →
  removePadding (l ++ [61%N]) = l.
Proof.
  intros Hl Hlen. unfold removePadding. rewrite Hlen. cbn [Nat.eqb].
  rewrite rev_app_distr. cbn [rev app].
  destruct (rev l) as [|c2 r] eqn:E.
  - apply (f_equal (@rev N)) in E. rewrite rev_involutive in E. subst l.
    discriminate Hlen.
  - cbn [N.eqb Pos.eqb].
    assert (Hin : c2 ∈ l).
    { apply list_elem_of_In, in_rev. rewrite E. left. reflexivity. }
    rewrite Forall_forall in Hl. specialize (Hl c2 Hin).
    apply N.eqb_neq in Hl. rewrite Hl.
    change (rev r ++ [c2]) with (rev (c2 :: r)).
    rewrite <- E. apply rev_involutive.
Qed.

Lemma removePadding_two (l : jsstring) :
  length (l ++ [61%N; 61%N]) mod 4 = 0 →
  removePadding (l ++ [61%N; 61%N]) = l.
Proof.
  intros Hlen. unfold removePadding. rewrite Hlen. cbn [Nat.eqb].
  rewrite rev_app_distr. cbn [rev app N.eqb Pos.eqb].
  apply rev_involutive.
Qed.

Lemma mapM_base64Index (vs : list N) :
  Forall (λ v, (v < 64)%N) vs →
  mapM base64Index (map base64Char vs) = Some vs.
Proof.
  induction 1 as [|v vs Hv _ IH]; [reflexivity|].
  cbn [map mapM]. rewrite (base64Index_Char v Hv). cbn. rewrite IH.
  reflexivity.
Qed.

Lemma filter_keeps_all {A} (p : A → bool) (l : list A) :
  Forall (λ x, p x = true) l → List.filter p l = l.
Proof.
  induction 1 as [|x l Hx _ IH]; [reflexivity|].
  cbn [List.filter]. rewrite Hx, IH. reflexivity.
Qed.

(** [atob] undoes [btoa]. *)
Lemma atob_base64Encode (s : jsstring) :
  isLatin1 s = true → atob (base64Encode s) = Some s.
Proof.
  intros Hs. pose proof (sextets_bound s Hs) as Hb.
  pose proof (sextets_length s) as (Hl1 & Hl0).
  assert (Hchars : Forall (λ c, c ≠ 61%N) (map base64Char (sextets s))).
  { apply Forall_map. eapply Forall_impl; [exact Hb|].
    intros v Hv. apply base64Char_not_pad. exact Hv. }
  unfold atob. rewrite filter_keeps_all.
  2:{ rewrite base64Encode_split. apply Forall_app. split.
      - apply Forall_map. eapply Forall_impl; [exact Hb|].
        intros v Hv. cbn. rewrite base64Char_not_space by exact Hv.
        reflexivity.
      - destruct (padding_cases s) as [E|[E|E]]; rewrite E;
          repeat constructor. }
  assert (Ed : removePadding (base64Encode s)
               = map base64Char (sextets s)).
  { rewrite base64Encode_split.
    destruct (padding_cases s) as [E|[E|E]]; rewrite E in *.
    - rewrite app_nil_r. apply removePadding_none. exact Hchars.
    - apply removePadding_one; [exact Hchars|].
      rewrite length_app, length_map. exact Hl0.
    - apply removePadding_two.
      rewrite length_app, length_map. exact Hl0. }
  rewrite Ed, length_map.
  destruct (Nat.eqb_spec (length (sextets s) mod 4) 1) as [E|_];
    [contradiction|].
  rewrite mapM_base64Index by exact Hb. cbn.
  rewrite base64Decode_sextets by exact Hs. reflexivity.
Qed.

Lemma base64Encode_text (s : jsstring) :
  isLatin1 s = true → isBase64Text (base64Encode s).
Proof.
  intros Hs. rewrite base64Encode_split. apply Forall_app. split.
  - apply Forall_map. eapply Forall_impl; [exact (sextets_bound s Hs)|].
    intros v Hv. left. apply base64Char_alphabet. exact Hv.
  - destruct (padding_cases s) as [E|[E|E]]; rewrite E;
      repeat constructor; right; reflexivity.
Qed.

Lemma base64Encode_nonempty (s : jsstring) : s ≠ [] → base64Encode s ≠ [].
Proof.
  destruct s as [|a [|b [|c t]]]; [congruence|discriminate..].
Qed.

Lemma alnum_unescaped (c : N) :
  isAlnum c = true → uriUnescaped c = true ∧ N.eqb c 37 = false.
Proof.
  intros Hc. split.
  - unfold uriUnescaped. rewrite Hc. reflexivity.
  - destruct (N.eqb_spec c 37) as [->|_]; [discriminate Hc|reflexivity].
Qed.

Lemma base64_char_cases (c : N) :
  isBase64Char c = true ∨ c = 61%N →
  isAlnum c = true ∨ c = 43%N ∨ c = 47%N ∨ c = 61%N.
Proof.
  intros [Hc| ->]; [|auto]. unfold isBase64Char in Hc.
  apply orb_true_iff in Hc as [Hc|Hc]; [|apply N.eqb_eq in Hc; auto].
  apply orb_true_iff in Hc as [Hc|Hc]; [auto|apply N.eqb_eq in Hc; auto].
Qed.

(** On base64 text [decodeURIComponent] undoes [encodeURIComponent], which
    does not throw. *)
Lemma decode_encode_base64 (l : jsstring) :
  isBase64Text l →
  ∃ e, encodeURIComponent l = Some e ∧ decodeURIComponent e = Some l
       ∧ (l ≠ [] → e ≠ []).
Proof.
  unfold decodeURIComponent.
  induction 1 as [|c l Hc _ (e & Ee & Ed & _)].
  - exists []. repeat split; congruence.
  - apply base64_char_cases in Hc as [Hc|[->|[->| ->]]].
    + destruct (alnum_unescaped c Hc) as [Hu Hp].
      exists (c :: e). cbn [encodeURIComponent decodeFrom].
      rewrite Hu, Ee, Hp, Ed.
      repeat split; first [reflexivity | intros _; discriminate].
    + exists (str "%2B" ++ e). cbn [encodeURIComponent]. rewrite Ee.
      split; [reflexivity|]. split; [|discriminate].
      change (decodeFrom 0 0 0 (str "%2B" ++ e))
        with ((λ t, 43%N :: t) <$> decodeFrom 0 0 0 e).
      rewrite Ed. reflexivity.
    + exists (str "%2F" ++ e). cbn [encodeURIComponent]. rewrite Ee.
      split; [reflexivity|]. split; [|discriminate].
      change (decodeFrom 0 0 0 (str "%2F" ++ e))
        with ((λ t, 47%N :: t) <$> decodeFrom 0 0 0 e).
      rewrite Ed. reflexivity.
    + exists (str "%3D" ++ e). cbn [encodeURIComponent]. rewrite Ee.
      split; [reflexivity|]. split; [|discriminate].
      change (decodeFrom 0 0 0 (str "%3D" ++ e))
        with ((λ t, 61%N :: t) <$> decodeFrom 0 0 0 e).
      rewrite Ed. reflexivity.
Qed.

(** Base64 text has no escape to resolve. *)
Lemma decode_base64_plain (l : jsstring) :
  isBase64Text l → decodeURIComponent l = Some l.
Proof.
  unfold decodeURIComponent.
  induction 1 as [|c l Hc _ IH]; [reflexivity|].
  assert (Hp : N.eqb c 37 = false).
  { apply base64_char_cases in Hc as [Hc|[->|[->| ->]]];
      [apply alnum_unescaped; exact Hc|reflexivity..]. }
  cbn [decodeFrom]. rewrite Hp, IH. reflexivity.
Qed.

Section Share.
Context `{Host}.

Lemma encodeStateToUrl_latin1 (loc : Location) (state : JSValue) :
  isLatin1 (jsonText state) = true →
  ∃ payload,
    encodeURIComponent (base64Encode (jsonText state)) = Some payload
    ∧ decodeURIComponent payload = Some (base64Encode (jsonText state))
    ∧ (jsonText state ≠ [] → payload ≠ [])
    ∧ encodeStateToUrl loc state
      = inr (origin loc ++ pathname loc ++ str "?share=" ++ payload).
Proof.
  intros Hl.
  destruct (decode_encode_base64 _ (base64Encode_text _ Hl))
    as (payload & Ee & Ed & Hne).
  exists payload. repeat split; try assumption.
  - intros Ht. apply Hne, base64Encode_nonempty, Ht.
  - unfold encodeStateToUrl. fold (jsonText state).
    unfold btoa. rewrite Hl, Ee. reflexivity.
Qed.

Lemma decodeStateFromUrl_token (loc : Location) (raw b64 text : jsstring) :
  raw ≠ [] → decodeURIComponent raw = Some b64 → atob b64 = Some text →
  decodeStateFromUrl loc (Some raw) = default JNull (JSON_parse text).
Proof.
  intros Hne Ed Ea. unfold decodeStateFromUrl.
  destruct raw as [|c raw]; [congruence|]. rewrite Ed, Ea. reflexivity.
Qed.

Lemma decodeStateFromUrl_param (loc : Location) (raw b64 text : jsstring) :
  shareParam loc = Some raw →
  raw ≠ [] → decodeURIComponent raw = Some b64 → atob b64 = Some text →
  decodeStateFromUrl loc None = default JNull (JSON_parse text).
Proof.
  intros Ep Hne Ed Ea. unfold decodeStateFromUrl. rewrite Ep.
  cbn [default from_option id].
  destruct raw as [|c raw]; [congruence|]. rewrite Ed, Ea. reflexivity.
Qed.

(** X1.  A state whose JSON text has only code units up to 255 (and is not
    empty, as no engine prints it) is encoded by [encodeStateToUrl] into the
    page address followed by [?share=] and a payload, and
    [decodeStateFromUrl] reads the state back from that payload: it returns
    what [JSON.parse] makes of the JSON text of the state, whether it is
    given the payload as its token or finds the payload, its escapes resolved
    by the address parser, as the [share] parameter of the address. *)
Theorem share_link_round_trip (loc : Location) (state : JSValue) :
  isLatin1 (jsonText state) = true →
  jsonText state ≠ [] →
  ∃ payload,
    encodeStateToUrl loc state
    = inr (origin loc ++ pathname loc ++ str "?share=" ++ payload)
    ∧ decodeURIComponent payload = btoa (jsonText state)
    ∧ (∀ loc', decodeStateFromUrl loc' (Some payload)
               = default JNull (JSON_parse (jsonText state)))
    ∧ (∀ loc', shareParam loc' = btoa (jsonText state) →
               decodeStateFromUrl loc' None
               = default JNull (JSON_parse (jsonText state)))
    ∧ (∀ loc', JSON_parse (jsonText state) = Some state →
               decodeStateFromUrl loc' (Some payload) = state).
Proof.
  intros Hl Hne.
  destruct (encodeStateToUrl_latin1 loc state Hl)
    as (payload & Ee & Ed & Hp & Eu).
  pose proof (atob_base64Encode _ Hl) as Ea.
  assert (Eb : btoa (jsonText state) = Some (base64Encode (jsonText state))).
  { unfold btoa. rewrite Hl. reflexivity. }
  exists payload. split; [exact Eu|]. split; [congruence|].
  assert (Htok : ∀ loc', decodeStateFromUrl loc' (Some payload)
                         = default JNull (JSON_parse (jsonText state))).
  { intros loc'. eapply decodeStateFromUrl_token; eauto. }
  split; [exact Htok|]. split.
  - intros loc' Ep. rewrite Eb in Ep.
    eapply decodeStateFromUrl_param; [exact Ep| | |exact Ea].
    + apply base64Encode_nonempty, Hne.
    + apply decode_base64_plain, base64Encode_text, Hl.
  - intros loc' Er. rewrite Htok, Er. reflexivity.
Qed.

(** X2.  [encodeStateToUrl] throws exactly when the JSON text of the state
    has a code unit above 255, and what it throws then is the
    [InvalidCharacterError] of [btoa]; [encodeURIComponent] never fails on
    what [btoa] returns. *)
Theorem share_link_needs_latin1 (loc : Location) (state : JSValue) :
  (isLatin1 (jsonText state) = false ↔
     encodeStateToUrl loc state = inl InvalidCharacterError)
  ∧ (isLatin1 (jsonText state) = true ↔
       ∃ url, encodeStateToUrl loc state = inr url)
  ∧ encodeStateToUrl loc state ≠ inl URIError
  ∧ (∀ c, c ∈ jsonText state → (255 < c)%N →
       encodeStateToUrl loc state = inl InvalidCharacterError).
Proof.
  assert (Hno : isLatin1 (jsonText state) = false →
                encodeStateToUrl loc state = inl InvalidCharacterError).
  { intros Hl. unfold encodeStateToUrl. fold (jsonText state).
    unfold btoa. rewrite Hl. reflexivity. }
  assert (Hyes : isLatin1 (jsonText state) = true →
                 ∃ url, encodeStateToUrl loc state = inr url).
  { intros Hl.
    destruct (encodeStateToUrl_latin1 loc state Hl) as (p & _ & _ & _ & E).
    eexists. exact E. }
  repeat split.
  - exact Hno.
  - intros E. destruct (isLatin1 (jsonText state)) eqn:Hl; [|reflexivity].
    destruct (Hyes eq_refl) as (url & Eu). congruence.
  - exact Hyes.
  - intros (url & Eu). destruct (isLatin1 (jsonText state)) eqn:Hl;
      [reflexivity|]. rewrite (Hno eq_refl) in Eu. discriminate.
  - destruct (isLatin1 (jsonText state)) eqn:Hl.
    + destruct (Hyes eq_refl) as (url & Eu). congruence.
    + rewrite (Hno eq_refl). discriminate.
  - intros c Hc Hgt. apply Hno.
    destruct (isLatin1 (jsonText state)) eqn:Hl; [|reflexivity].
    unfold isLatin1 in Hl. rewrite forallb_forall in Hl.
    apply list_elem_of_In in Hc. specialize (Hl c Hc).
    apply N.leb_le in Hl. lia.
Qed.

End Share.

Lemma share_link_round_trip_witness :
  ∃ payload,
    encodeStateToUrl (H := RefHost.host) pageLocation sharedState
    = inr (origin pageLocation ++ pathname pageLocation ++ str "?share="
           ++ payload)
    ∧ decodeURIComponent payload
      = btoa (jsonText (H := RefHost.host) sharedState)
    ∧ (∀ loc', decodeStateFromUrl (H := RefHost.host) loc' (Some payload)
               = default JNull
                   (RefHost.parse (jsonText (H := RefHost.host) sharedState)))
    ∧ (∀ loc', shareParam loc'
               = btoa (jsonText (H := RefHost.host) sharedState) →
               decodeStateFromUrl (H := RefHost.host) loc' None
               = default JNull
                   (RefHost.parse (jsonText (H := RefHost.host) sharedState)))
    ∧ (∀ loc', RefHost.parse (jsonText (H := RefHost.host) sharedState)
               = Some sharedState →
               decodeStateFromUrl (H := RefHost.host) loc' (Some payload)
               = sharedState).
Proof.
  apply (share_link_round_trip (H := RefHost.host) pageLocation sharedState).
  - vm_compute. reflexivity.
  - vm_compute. discriminate.
Defined.

(** The link of the example state, and the state read back from what follows
    [?share=]. *)
Example shared_state_comes_back :
  sharedUrl
  = str "https://sherlock.example/app?share=" ++ drop 35 sharedUrl
  ∧ decodeStateFromUrl (H := RefHost.host) pageLocation
      (Some (drop 35 sharedUrl))
    = sharedState.
Proof. split; vm_compute; reflexivity. Qed.

Lemma share_link_needs_latin1_witness :
  encodeStateToUrl (H := RefHost.host) pageLocation euroState
  = inl InvalidCharacterError
  ∧ ∃ url, encodeStateToUrl (H := RefHost.host) pageLocation sharedState
           = inr url.
Proof.
  split.
  - apply (share_link_needs_latin1 (H := RefHost.host) pageLocation euroState)
      with (c := 8364%N); [|reflexivity].
    apply list_elem_of_In. vm_compute. tauto.
  - apply (share_link_needs_latin1 (H := RefHost.host) pageLocation
             sharedState).
    vm_compute. reflexivity.
Defined.

(** ** Copying the share link *)

Section Copy.
Context `{Host} `{Clipboard}.

(** X13.  [copyShareUrlToClipboard] returns the link that
    [encodeStateToUrl] builds whether or not the clipboard takes it: the
    clipboard then holds the link, or what it held before when the write
    failed; the payload of the returned link is one from which
    [decodeStateFromUrl] reads the state back.  When [encodeStateToUrl]
    throws, so does [copyShareUrlToClipboard], and the clipboard is not
    touched. *)
Theorem copied_link_reads_back (loc : Location) (state : JSValue)
    (clipboard : option jsstring) :
  (isLatin1 (jsonText state) = true →
   jsonText state ≠ [] →
   ∃ payload,
     let url := origin loc ++ pathname loc ++ str "?share=" ++ payload in
     copyShareUrlToClipboard loc state clipboard
     = (if writeText url then Some url else clipboard, inr url)
     ∧ encodeStateToUrl loc state = inr url
     ∧ ∀ loc', decodeStateFromUrl loc' (Some payload)
               = default JNull (JSON_parse (jsonText state)))
  ∧ (isLatin1 (jsonText state) = false →
     copyShareUrlToClipboard loc state clipboard
     = (clipboard, inl InvalidCharacterError)).
Proof.
  split.
  - intros Hl Hne.
    destruct (encodeStateToUrl_latin1 loc state Hl)
      as (payload & Ee & Ed & Hp & Eu).
    exists payload. cbn zeta. unfold copyShareUrlToClipboard. rewrite Eu.
    split; [reflexivity|]. split; [reflexivity|].
    intros loc'. eapply decodeStateFromUrl_token; eauto.
    apply atob_base64Encode. exact Hl.
  - intros Hl. unfold copyShareUrlToClipboard, encodeStateToUrl.
    fold (jsonText state). unfold btoa. rewrite Hl. reflexivity.
Qed.

End Copy.

Lemma copied_link_reads_back_witness :
  ∃ payload,
    let url := origin pageLocation ++ pathname pageLocation
               ++ str "?share=" ++ payload in
    copyShareUrlToClipboard (H := RefHost.host) (H0 := λ _, false)
      pageLocation sharedState (Some (str "kept"))
    = (Some (str "kept"), inr url)
    ∧ encodeStateToUrl (H := RefHost.host) pageLocation sharedState
      = inr url
    ∧ ∀ loc', decodeStateFromUrl (H := RefHost.host) loc' (Some payload)
              = default JNull
                  (RefHost.parse (jsonText (H := RefHost.host) sharedState)).
Proof.
  apply (copied_link_reads_back (H := RefHost.host) (H0 := λ _, false)
           pageLocation sharedState (Some (str "kept"))).
  - vm_compute. reflexivity.
  - vm_compute. discriminate.
Defined.

(** ** Saved cases *)

Section Saved.
Context `{Host}.

Lemma jsonText_array (cases : list JSValue) :
  ∃ s, jsonText (JArr cases) = 91%N :: s.
Proof. unfold jsonText. cbn [JSON_stringify]. eexists. reflexivity. Qed.

Lemma savedText_insert (st : Storage) (cases : list JSValue) hr :
  savedText
    {| items := <[STORAGE_KEY := jsonText (JArr cases)]> (items st);
       hasRoom := hr |}
  = jsonText (JArr cases).
Proof.
  unfold savedText. cbn [items]. rewrite lookup_insert_eq.
  destruct (jsonText_array cases) as (s & ->). reflexivity.
Qed.

Lemma saveCase_success (clock : Clock) (caseName : jsstring)
    (state : JSValue) (st st' : Storage) (entry : JSValue) :
  saveCase clock caseName state st = (st', inr entry) →
  ∃ cases name,
    JSON_parse (savedText st) = Some (JArr cases)
    ∧ caseNameOf clock caseName state = inr name
    ∧ entry = caseEntry clock name state
    ∧ hasRoom st STORAGE_KEY (jsonText (JArr (entry :: cases))) = true
    ∧ st' = {| items := <[STORAGE_KEY := jsonText (JArr (entry :: cases))]>
                          (items st);
               hasRoom := hasRoom st |}.
Proof.
  unfold saveCase. intros E.
  destruct (JSON_parse (savedText st)) as [saved|]; [|discriminate].
  destruct (caseNameOf clock caseName state) as [e|name]; [discriminate|].
  destruct saved as [| | | | |cases|]; try discriminate.
  fold (jsonText (JArr (caseEntry clock name state :: cases))) in E.
  destruct (hasRoom st STORAGE_KEY _) eqn:Hroom; [|discriminate].
  injection E as <- <-. exists cases, name. auto.
Qed.

Lemma saveCase_failure_cases (clock : Clock) (caseName : jsstring)
    (state : JSValue) (st st' : Storage) (e : SaveExn) :
  saveCase clock caseName state st = (st', inl e) → st' = st.
Proof.
  unfold saveCase. intros E.
  destruct (JSON_parse (savedText st)) as [saved|]; [|congruence].
  destruct (caseNameOf clock caseName state) as [?|name]; [congruence|].
  destruct saved; try congruence.
  destruct (hasRoom st STORAGE_KEY _); congruence.
Qed.

(** X3.  When [saveCase] returns, it returns the new entry, which holds the
    state (and the given name, if one was given); under the storage key it
    has written the JSON text of the list of cases with the new entry put
    first, and it has touched no other key.  If that text reads back as the
    list it was printed from, [loadSavedCases] then returns the new entry
    followed by the cases it returned before. *)
Theorem saved_case_is_listed_first (clock : Clock) (caseName : jsstring)
    (state : JSValue) (st st' : Storage) (entry : JSValue)
    (cases : list JSValue) :
  saveCase clock caseName state st = (st', inr entry) →
  loadSavedCases st = JArr cases →
  savedText st' = jsonText (JArr (entry :: cases))
  ∧ (∀ k, k ≠ STORAGE_KEY → items st' !! k = items st !! k)
  ∧ propOf entry "state" = state
  ∧ (caseName ≠ [] → propOf entry "name" = JStr caseName)
  ∧ (JSON_parse (jsonText (JArr (entry :: cases)))
     = Some (JArr (entry :: cases)) →
     loadSavedCases st' = JArr (entry :: cases)).
Proof.
  intros Hsave Hload.
  destruct (saveCase_success _ _ _ _ _ _ Hsave)
    as (cases' & name & Ep & En & -> & Hroom & ->).
  unfold loadSavedCases in Hload. rewrite Ep in Hload.
  injection Hload as ->.
  split; [apply savedText_insert|].
  split; [intros k Hk; cbn [items]; apply lookup_insert_ne; congruence|].
  split; [reflexivity|].
  split.
  - intros Hn. destruct caseName as [|c s]; [congruence|].
    injection En as <-. reflexivity.
  - intros Eback. unfold loadSavedCases.
    rewrite savedText_insert, Eback. reflexivity.
Qed.

Lemma saveAll_cons (clock : Clock) (caseName : jsstring) (state : JSValue)
    (rest : list (Clock * jsstring * JSValue)) (st : Storage) :
  saveAll ((clock, caseName, state) :: rest) st
  = ((saveAll rest (saveCase clock caseName state st).1).1,
     (saveCase clock caseName state st).2
     :: (saveAll rest (saveCase clock caseName state st).1).2).
Proof. reflexivity. Qed.

(** As long as the stored text is not the text of an array, every save
    fails and the storage stays. *)
Lemma saveAll_damaged (saves : list (Clock * jsstring * JSValue))
    (st : Storage) (e : SaveExn) :
  (∀ clock caseName state,
     saveCase clock caseName state st = (st, inl e)) →
  saveAll saves st = (st, map (λ _, inl e) saves).
Proof.
  intros Hfail. induction saves as [|[[clock caseName] state] rest IH].
  - reflexivity.
  - rewrite saveAll_cons, Hfail. cbn [fst snd map]. rewrite IH. reflexivity.
Qed.

Lemma returnedEntries_failures {A} (e : SaveExn) (saves : list A) :
  returnedEntries (map (λ _, inl e) saves) = [].
Proof. induction saves as [|s rest IH]; [reflexivity|exact IH]. Qed.

(** A run of saves touches the storage key only. *)
Lemma saveAll_other_keys (saves : list (Clock * jsstring * JSValue)) :
  ∀ (st : Storage) (k : string),
    k ≠ STORAGE_KEY → items (saveAll saves st).1 !! k = items st !! k.
Proof.
  induction saves as [|[[clock caseName] state] rest IH]; intros st k Hk.
  - reflexivity.
  - rewrite saveAll_cons. cbn [fst snd]. rewrite (IH _ k Hk).
    destruct (saveCase clock caseName state st) as [st1 [e|entry]] eqn:Es;
      cbn [fst].
    + apply saveCase_failure_cases in Es. subst st1. reflexivity.
    + destruct (saveCase_success _ _ _ _ _ _ Es)
        as (cases & name & _ & _ & _ & _ & ->).
      cbn [items]. apply lookup_insert_ne. congruence.
Qed.

(** The storage after a run of saves lists the returned entries, the latest
    first, before the cases that were there. *)
Lemma saveAll_listed (saves : list (Clock * jsstring * JSValue)) :
  ∀ (st : Storage) (cases : list JSValue),
    JSON_parse (savedText st) = Some (JArr cases) →
    let entries := returnedEntries (saveAll saves st).2 in
    (∀ k, k < length entries →
          readsBack (JArr (drop k (rev entries) ++ cases))) →
    JSON_parse (savedText (saveAll saves st).1)
    = Some (JArr (rev entries ++ cases)).
Proof.
  induction saves as [|[[clock caseName] state] rest IH];
    intros st cases Ep entries Hback.
  - exact Ep.
  - subst entries. rewrite saveAll_cons in *. cbn [fst snd] in *.
    destruct (saveCase clock caseName state st) as [st1 [e|entry]] eqn:Es;
      cbn [fst snd returnedEntries] in *.
    + apply saveCase_failure_cases in Es. subst st1.
      apply (IH st cases Ep). exact Hback.
    + set (entries := returnedEntries (saveAll rest st1).2) in *.
      destruct (saveCase_success _ _ _ _ _ _ Es)
        as (cases' & name & Ep' & _ & _ & _ & Est).
      rewrite Ep in Ep'. injection Ep' as <-.
      assert (Hlen : length (rev entries) = length entries)
        by apply length_rev.
      assert (Ep1 : JSON_parse (savedText st1)
                    = Some (JArr (entry :: cases))).
      { rewrite Est, savedText_insert.
        specialize (Hback (length entries)). cbn [rev length] in Hback.
        rewrite drop_app_length' in Hback by (symmetry; exact Hlen).
        apply Hback. lia. }
      cbn [rev]. rewrite <- app_assoc. apply (IH st1 (entry :: cases) Ep1).
      intros k Hlt. fold entries in Hlt.
      specialize (Hback k). cbn [rev length] in Hback.
      rewrite drop_app_le in Hback by lia.
      rewrite <- app_assoc in Hback. apply Hback. lia.
Qed.

Lemma saveAll_states (saves : list (Clock * jsstring * JSValue)) :
  ∀ st : Storage,
    Forall2 (λ save r, ∀ entry, r = inr entry →
                                propOf entry "state" = save.2)
      saves (saveAll saves st).2.
Proof.
  induction saves as [|[[clock caseName] state] rest IH]; intros st.
  - constructor.
  - rewrite saveAll_cons. cbn [fst snd]. constructor; [|apply IH].
    intros entry E.
    destruct (saveCase clock caseName state st) as [st1 r] eqn:Es.
    cbn [snd] in E. subst r.
    destruct (saveCase_success _ _ _ _ _ _ Es)
      as (cases & name & _ & _ & -> & _). reflexivity.
Qed.

(** X4.  Saves in a row.  After any number of calls of [saveCase], of which
    some may have failed, [loadSavedCases] returns the entries that the
    calls returned, the latest first, followed by the cases it returned
    before the first call, provided each list that was written reads back
    as the list it was printed from; each returned entry holds the state of
    its call, and no other key of the storage is touched.  A stored text
    that is not the JSON text of an array is never repaired: every later
    [saveCase] fails, with the [SyntaxError] of [JSON.parse] when the text
    is not JSON and with a [TypeError] when it is JSON but not an array, and
    the storage stays as it was, so that [loadSavedCases] keeps answering
    with the empty list, or with the stored value. *)
Theorem saves_in_a_row (saves : list (Clock * jsstring * JSValue))
    (st : Storage) :
  let st' := (saveAll saves st).1 in
  let results := (saveAll saves st).2 in
  let entries := returnedEntries results in
  (∀ cases,
     loadSavedCases st = JArr cases →
     (∀ k, k < length entries →
           readsBack (JArr (drop k (rev entries) ++ cases))) →
     loadSavedCases st' = JArr (rev entries ++ cases))
  ∧ Forall2 (λ save r, ∀ entry, r = inr entry →
                                propOf entry "state" = save.2)
      saves results
  ∧ (∀ k, k ≠ STORAGE_KEY → items st' !! k = items st !! k)
  ∧ (JSON_parse (savedText st) = None →
       st' = st ∧ results = map (λ _, inl SyntaxError) saves
       ∧ loadSavedCases st' = JArr [])
  ∧ (∀ v, JSON_parse (savedText st) = Some v → (∀ cases, v ≠ JArr cases) →
       st' = st ∧ results = map (λ _, inl SaveTypeError) saves
       ∧ loadSavedCases st' = v).
Proof.
  intros st' results entries. subst st' results entries.
  assert (Hsyntax : JSON_parse (savedText st) = None →
            saveAll saves st = (st, map (λ _, inl SyntaxError) saves)).
  { intros Ep. apply saveAll_damaged. intros clock caseName state.
    unfold saveCase. rewrite Ep. reflexivity. }
  assert (Htype : ∀ v, JSON_parse (savedText st) = Some v →
            (∀ cases, v ≠ JArr cases) →
            saveAll saves st = (st, map (λ _, inl SaveTypeError) saves)).
  { intros v Ep Hv. apply saveAll_damaged. intros clock caseName state.
    unfold saveCase. rewrite Ep.
    destruct (caseNameOf clock caseName state); [reflexivity|].
    destruct v; try reflexivity. exfalso. eapply Hv. reflexivity. }
  repeat match goal with |- _ ∧ _ => split end.
  - intros cases Hload Hback. unfold loadSavedCases in *.
    destruct (JSON_parse (savedText st)) as [v|] eqn:Ep.
    + change (v = JArr cases) in Hload. subst v.
      rewrite (saveAll_listed saves st cases Ep Hback). reflexivity.
    + change (JArr [] = JArr cases) in Hload. injection Hload as <-.
      rewrite (Hsyntax eq_refl). cbn [fst snd]. rewrite Ep, returnedEntries_failures.
      reflexivity.
  - apply saveAll_states.
  - apply saveAll_other_keys.
  - intros Ep. rewrite (Hsyntax Ep). cbn [fst snd].
    unfold loadSavedCases. rewrite Ep. auto.
  - intros v Ep Hv. rewrite (Htype v Ep Hv). cbn [fst snd].
    unfold loadSavedCases. rewrite Ep. auto.
Qed.

End Saved.

Lemma saved_case_is_listed_first_witness :
  ∃ st',
    saveCase (H := RefHost.host) laterClock (str "Second") sharedState
      oneCaseStorage = (st', inr laterCase)
    ∧ loadSavedCases (H := RefHost.host) oneCaseStorage = JArr [earlierCase]
    ∧ loadSavedCases (H := RefHost.host) st'
      = JArr [laterCase; earlierCase].
Proof.
  set (st' := {| items := <[STORAGE_KEY :=
                   jsonText (H := RefHost.host)
                     (JArr [laterCase; earlierCase])]> (items oneCaseStorage);
                 hasRoom := hasRoom oneCaseStorage |}).
  assert (Hsave : saveCase (H := RefHost.host) laterClock (str "Second")
                    sharedState oneCaseStorage = (st', inr laterCase)).
  { vm_compute. reflexivity. }
  assert (Hload : loadSavedCases (H := RefHost.host) oneCaseStorage
                  = JArr [earlierCase]).
  { vm_compute. reflexivity. }
  exists st'. split; [exact Hsave|]. split; [exact Hload|].
  apply (saved_case_is_listed_first (H := RefHost.host) laterClock
           (str "Second") sharedState oneCaseStorage st' laterCase
           [earlierCase] Hsave Hload).
  vm_compute. reflexivity.
Defined.

Lemma saves_in_a_row_witness :
  (saveAll (H := RefHost.host) threeSaves oneCaseStorage).2
  = [inr laterCase; inl SaveTypeError; inr lastCase]
  ∧ loadSavedCases (H := RefHost.host)
      (saveAll (H := RefHost.host) threeSaves oneCaseStorage).1
    = JArr [lastCase; laterCase; earlierCase]
  ∧ (saveAll (H := RefHost.host) threeSaves corruptStorage).1
    = corruptStorage
  ∧ (saveAll (H := RefHost.host) threeSaves corruptStorage).2
    = [inl SyntaxError; inl SyntaxError; inl SyntaxError]
  ∧ (saveAll (H := RefHost.host) threeSaves objectStorage).2
    = [inl SaveTypeError; inl SaveTypeError; inl SaveTypeError]
  ∧ loadSavedCases (H := RefHost.host)
      (saveAll (H := RefHost.host) threeSaves objectStorage).1
    = JObj [].
Proof.
  pose proof (saves_in_a_row (H := RefHost.host) threeSaves oneCaseStorage)
    as Hone.
  pose proof (saves_in_a_row (H := RefHost.host) threeSaves corruptStorage)
    as Hcorrupt.
  pose proof (saves_in_a_row (H := RefHost.host) threeSaves objectStorage)
    as Hobject.
  cbv zeta in Hone, Hcorrupt, Hobject.
  destruct Hone as (Hlisted & _).
  destruct Hcorrupt as (_ & _ & _ & Hsyntax & _).
  destruct Hobject as (_ & _ & _ & _ & Htype).
  destruct (Hsyntax eq_refl) as (E1 & E2 & _).
  destruct (Htype (JObj []) eq_refl) as (_ & E3 & E4); [discriminate|].
  split; [vm_compute; reflexivity|].
  split; [|auto].
  apply (Hlisted [earlierCase]); [vm_compute; reflexivity|].
  intros k Hk. change (k < 2) in Hk.
  destruct k as [|[|k]]; [vm_compute; reflexivity..|lia].
Defined.

(** With nothing stored yet, the list of cases is empty, and the first save,
    given no name, stores a list of one case named after the title of the
    state. *)
Example first_saved_case :
  let entry := caseEntry (H := RefHost.host) laterClock
                 (JStr (str "Flat A vs flat B?")) sharedState in
  let st' := roomyStorage
               (Some (jsonText (H := RefHost.host) (JArr [entry]))) in
  loadSavedCases (H := RefHost.host) (roomyStorage None) = JArr []
  ∧ saveCase (H := RefHost.host) laterClock [] sharedState
      (roomyStorage None) = (st', inr entry)
  ∧ propOf entry "id" = JStr (str "case_1700000360000")
  ∧ loadSavedCases (H := RefHost.host) st' = JArr [entry].
Proof. repeat split; vm_compute; reflexivity. Qed.

(** ** The service of [geminiService.ts] *)

Lemma lookupProp_assign_eq (k : jsstring) (v : JSValue)
    (props : list (jsstring * JSValue)) :
  lookupProp k (assignProp k v props) = Some v.
Proof.
  induction props as [|[k' v'] rest IH]; cbn [assignProp lookupProp].
  - unfold jsstring_eqb. rewrite bool_decide_eq_true_2 by reflexivity.
    reflexivity.
  - destruct (jsstring_eqb k' k) eqn:E; cbn [lookupProp]; rewrite E; auto.
Qed.

Lemma lookupProp_assign_ne (k k' : jsstring) (v : JSValue)
    (props : list (jsstring * JSValue)) :
  k' ≠ k → lookupProp k' (assignProp k v props) = lookupProp k' props.
Proof.
  intros Hne.
  induction props as [|[k0 v0] rest IH]; cbn [assignProp lookupProp].
  - unfold jsstring_eqb. rewrite bool_decide_eq_false_2 by congruence.
    reflexivity.
  - destruct (jsstring_eqb k0 k) eqn:E; cbn [lookupProp].
    + apply bool_decide_eq_true in E. subst k0.
      unfold jsstring_eqb. rewrite bool_decide_eq_false_2 by congruence.
      reflexivity.
    + rewrite IH. reflexivity.
Qed.

Section Gemini.
Context `{Host}.

Lemma gemini_extract_total (response : Response) :
  ∃ rawText, GeminiService.extractRawText response = inr rawText.
Proof. eexists. apply extractRawText_first. Qed.

Lemma parseModelText_error (rawText : jsstring) (e : Exn) :
  GeminiService.parseModelText rawText = inl e →
  e = GeminiService.MarkerMissing ∨ e = GeminiService.InvalidJson.
Proof.
  unfold GeminiService.parseModelText, GeminiService.cleanedJson.
  destruct (indexOf _ _); [|destruct (matchBraceBlock _)];
    cbn; try destruct (JSON_parse _); intros E;
    first [discriminate | injection E as <-; auto].
Qed.

Lemma ensureAnalysis_error (parsed : JSValue) (e : Exn) :
  GeminiService.ensureAnalysis parsed = inl e →
  e = TypeError ∧ isObject parsed = false.
Proof.
  destruct parsed as [| | | | | |props]; cbn;
    try (intros E; injection E as <-; auto; fail);
    try discriminate.
  destruct (lookupProp _ props) as [[]|]; discriminate.
Qed.

Lemma ensureAnalysis_object (props : list (jsstring * JSValue)) :
  ∃ props',
    GeminiService.ensureAnalysis (JObj props)
    = inr (GeminiService.Parsed (JObj props'))
    ∧ (∃ a, lookupProp (str "analysis") props' = Some (JArr a))
    ∧ (∀ k, k ≠ str "analysis" → lookupProp k props' = lookupProp k props)
    ∧ (∀ a, lookupProp (str "analysis") props = Some (JArr a) →
         props' = props)
    ∧ ((∀ a, lookupProp (str "analysis") props ≠ Some (JArr a)) →
         lookupProp (str "analysis") props' = Some (JArr [])).
Proof.
  cbn [GeminiService.ensureAnalysis].
  destruct (lookupProp (str "analysis") props) as [v|] eqn:E.
  2:{ eexists. split; [reflexivity|].
      rewrite lookupProp_assign_eq.
      repeat split; eauto using lookupProp_assign_ne; discriminate. }
  destruct v as [| | | | |a|];
    try (eexists; split; [reflexivity|];
         rewrite lookupProp_assign_eq;
         repeat split; eauto using lookupProp_assign_ne; discriminate).
  exists props. split; [reflexivity|]. rewrite E.
  repeat split; eauto. intros Hno. exfalso. eapply Hno. reflexivity.
Qed.

(** X5.  Whatever the service of [geminiService.ts] returns has an array as
    its [analysis]: the parsed value was an array, which is returned with an
    empty [analysis] set on it, or an object, which is returned with every
    other property as parsed and with [analysis] as parsed when that was an
    array, the empty array otherwise; nothing else is normalized. *)
Theorem gemini_result_has_analysis (response : Response)
    (r : GeminiService.Returned) :
  GeminiService.processResponse response = inr r →
  ∃ rawText parsed,
    GeminiService.extractRawText response = inr rawText
    ∧ GeminiService.parseModelText rawText = inr parsed
    ∧ guardedAnalysis parsed r.
Proof.
  unfold GeminiService.processResponse. intros E.
  destruct (gemini_extract_total response) as (rawText & Er).
  rewrite Er in E. cbn in E.
  destruct (GeminiService.parseModelText rawText) as [e|parsed] eqn:Ep;
    [discriminate|]. cbn in E.
  exists rawText, parsed. split; [exact Er|]. split; [exact Ep|].
  destruct parsed as [| | | | |items|props]; try discriminate.
  - left. exists items. cbn in E. injection E as <-. auto.
  - right. destruct (ensureAnalysis_object props) as (props' & Ee & Hrest).
    rewrite Ee in E. injection E as <-. exists props, props'. auto.
Qed.

(** X6.  The processing of a response by the service of [geminiService.ts]
    fails in three ways only: with the marker-missing error, when the text
    has neither the marker nor a brace block; with the invalid-JSON error,
    when the text found does not parse; and with a [TypeError], when it
    parses to [null], a number, a string or a boolean. *)
Theorem gemini_processing_errors (response : Response) (e : Exn) :
  GeminiService.processResponse response = inl e →
  ∃ rawText,
    GeminiService.extractRawText response = inr rawText
    ∧ ((e = GeminiService.MarkerMissing
        ∧ GeminiService.parseModelText rawText = inl e
        ∧ indexOf GeminiService.marker rawText = None
        ∧ matchBraceBlock rawText = None)
       ∨ (e = GeminiService.InvalidJson
          ∧ GeminiService.parseModelText rawText = inl e
          ∧ ∃ cleaned, GeminiService.cleanedJson rawText = inr cleaned
                       ∧ JSON_parse cleaned = None)
       ∨ (e = TypeError
          ∧ ∃ parsed, GeminiService.parseModelText rawText = inr parsed
                      ∧ isObject parsed = false)).
Proof.
  unfold GeminiService.processResponse. intros E.
  destruct (gemini_extract_total response) as (rawText & Er).
  rewrite Er in E. cbn in E. exists rawText. split; [exact Er|].
  destruct (GeminiService.parseModelText rawText) as [e'|parsed] eqn:Ep.
  - cbn in E. injection E as <-.
    unfold GeminiService.parseModelText in Ep.
    destruct (GeminiService.cleanedJson rawText) as [e1|cleaned] eqn:Ec.
    + cbn in Ep. injection Ep as <-. left.
      unfold GeminiService.cleanedJson in Ec.
      destruct (indexOf _ _); [discriminate|].
      destruct (matchBraceBlock _); [discriminate|].
      injection Ec as <-. auto.
    + cbn in Ep. destruct (JSON_parse cleaned) eqn:Ej; [discriminate|].
      injection Ep as <-. right. left. eauto.
  - cbn in E. apply ensureAnalysis_error in E as [-> Hobj].
    right. right. eauto.
Qed.

End Gemini.

Lemma gemini_result_has_analysis_witness :
  ∃ rawText parsed,
    GeminiService.extractRawText (H := RefHost.host)
      (textResponse verdictOnlyText) = inr rawText
    ∧ GeminiService.parseModelText (H := RefHost.host) rawText = inr parsed
    ∧ guardedAnalysis parsed
        (GeminiService.Parsed
           (JObj [(str "verdict", JStr (str "v"));
                  (str "winnerId", JStr (str "o1"));
                  (str "analysis", JArr [])])).
Proof.
  apply (gemini_result_has_analysis (H := RefHost.host)
           (textResponse verdictOnlyText)).
  vm_compute. reflexivity.
Defined.

Lemma gemini_processing_errors_witness :
  ∃ rawText parsed,
    GeminiService.extractRawText (H := RefHost.host) (textResponse nullText)
    = inr rawText
    ∧ GeminiService.parseModelText (H := RefHost.host) rawText = inr parsed
    ∧ isObject parsed = false.
Proof.
  destruct (gemini_processing_errors (H := RefHost.host)
              (textResponse nullText) TypeError)
    as (rawText & Er & [(Hm & _)|[(Hi & _)|(_ & parsed & Ep & Ho)]]);
    [vm_compute; reflexivity|discriminate..|].
  exists rawText, parsed. auto.
Defined.

(** ** The messages, the errors and the passes of [decisionSherlock.ts] *)

Lemma attachmentContents_map (opt : OptionItem) :
  concat (map inlineDataOf (attachmentContents opt))
  = map (λ att, (att_mimeType att, att_data att))
      (default [] (opt_attachments opt))
  ∧ length (attachmentContents opt)
    = length (default [] (opt_attachments opt)).
Proof.
  unfold attachmentContents.
  destruct (opt_attachments opt) as [atts|]; [|split; reflexivity].
  cbn [default from_option id]. split; [|apply length_map].
  induction atts as [|att atts IH]; [reflexivity|].
  cbn [map concat]. rewrite IH. reflexivity.
Qed.

Lemma gemini_attachmentContents_map (opt : OptionItem) :
  concat (map geminiInlineDataOf (GeminiService.attachmentContents opt))
  = map (λ att, (att_mimeType att, att_data att))
      (default [] (opt_attachments opt))
  ∧ length (GeminiService.attachmentContents opt)
    = length (default [] (opt_attachments opt)).
Proof.
  unfold GeminiService.attachmentContents.
  destruct (opt_attachments opt) as [atts|]; [|split; reflexivity].
  cbn [default from_option id]. split; [|apply length_map].
  induction atts as [|att atts IH]; [reflexivity|].
  cbn [map concat]. rewrite IH. reflexivity.
Qed.

Lemma concat_map_app {A B} (f : A → list B) (l1 l2 : list A) :
  concat (map f (l1 ++ l2)) = concat (map f l1) ++ concat (map f l2).
Proof. rewrite map_app, concat_app. reflexivity. Qed.

Lemma concat_concat_map {A B C} (f : A → list B) (g : B → list C)
    (h : A → list C) (l : list A) :
  (∀ x, concat (map g (f x)) = h x) →
  concat (map g (concat (map f l))) = concat (map h l).
Proof.
  intros Hx. induction l as [|x l IH]; [reflexivity|].
  cbn [map concat]. rewrite concat_map_app, Hx, IH. reflexivity.
Qed.

Lemma length_concat_map {A B C} (f : A → list B) (h : A → list C)
    (l : list A) :
  (∀ x, length (f x) = length (h x)) →
  length (concat (map f l)) = length (concat (map h l)).
Proof.
  intros Hx. induction l as [|x l IH]; [reflexivity|].
  cbn [map concat]. rewrite !length_app, Hx, IH. reflexivity.
Qed.

Lemma concat_map_map {A B C} (f : A → list B) (g : B → C) (l : list A) :
  concat (map (λ x, map g (f x)) l) = map g (concat (map f l)).
Proof.
  induction l as [|x l IH]; [reflexivity|].
  cbn [map concat]. rewrite map_app, IH. reflexivity.
Qed.

(** X8.  Both services send, between the system message with the user
    message and the final instruction, one message for each attachment of
    each option, in the order of the options and of their attachments, and
    nothing else: the messages are three more than the attachments, and the
    inline data they carry are the media types and data of the attachments,
    each once. *)
Theorem contents_carry_every_attachment (data : DecisionState) :
  let sent := map (λ att, (att_mimeType att, att_data att))
                (attachmentsOf data) in
  length (buildContents data) = 3 + length (attachmentsOf data)
  ∧ length (GeminiService.buildContents data)
    = 3 + length (attachmentsOf data)
  ∧ concat (map inlineDataOf (buildContents data)) = sent
  ∧ concat (map geminiInlineDataOf (GeminiService.buildContents data)) = sent
  ∧ (∃ middle,
       buildContents data
       = {| role := "system"; parts := [PText SystemPrompt] |}
         :: {| role := "user"; parts := [PText (UserPrompt data)] |}
         :: middle
         ++ [{| role := "user"; parts := [PText FinalInstruction] |}])
  ∧ (∃ middle,
       GeminiService.buildContents data
       = GeminiService.Build_Content "system"
           [GeminiService.PText GeminiService.SystemPrompt]
         :: GeminiService.Build_Content "user"
              [GeminiService.PText (GeminiService.UserText data)]
         :: middle
         ++ [GeminiService.Build_Content "user"
               [GeminiService.PText GeminiService.FinalInstruction]]).
Proof.
  intros sent. subst sent.
  unfold buildContents, GeminiService.buildContents, attachmentsOf.
  repeat split.
  - cbn [app length]. rewrite length_app. cbn [length].
    rewrite (length_concat_map attachmentContents
               (λ opt, default [] (opt_attachments opt)));
      [lia|apply attachmentContents_map].
  - cbn [app length]. rewrite length_app. cbn [length].
    rewrite (length_concat_map GeminiService.attachmentContents
               (λ opt, default [] (opt_attachments opt)));
      [lia|apply gemini_attachmentContents_map].
  - cbn [app map concat inlineDataOf parts omap list_omap].
    rewrite concat_map_app. cbn [map concat inlineDataOf parts omap list_omap].
    rewrite app_nil_r.
    rewrite (concat_concat_map attachmentContents inlineDataOf
               (λ opt, map (λ att, (att_mimeType att, att_data att))
                         (default [] (opt_attachments opt))));
      [|apply attachmentContents_map].
    apply concat_map_map.
  - cbn [app map concat geminiInlineDataOf GeminiService.parts omap
         list_omap].
    rewrite concat_map_app.
    cbn [map concat geminiInlineDataOf GeminiService.parts omap list_omap].
    rewrite app_nil_r.
    rewrite (concat_concat_map GeminiService.attachmentContents
               geminiInlineDataOf
               (λ opt, map (λ att, (att_mimeType att, att_data att))
                         (default [] (opt_attachments opt))));
      [|apply gemini_attachmentContents_map].
    apply concat_map_map.
  - eexists. reflexivity.
  - eexists. reflexivity.
Qed.

(** The messages of the example: three and the two attachments, the one
    without a name sent as [attachment] by [decisionSherlock.ts]. *)
Example attached_data_messages :
  length (buildContents attachedData) = 5
  ∧ buildContents attachedData !! 3
    = Some {| role := "user";
              parts := [PInlineData (JStr (str "image/png"))
                          (JStr (str "iVBORw=="))
                          (JStr (str "attachment"));
                        PText (AttachmentNote (JStr (str "o1"))
                                 (JStr (str "attachment")))] |}.
Proof. split; reflexivity. Qed.

(** ** Errors of the pipeline of [decisionSherlock.ts] *)

Section PipelineErrors.
Context `{Host}.

Lemma requireString_inr (v : JSValue) (s : jsstring) :
  requireString v = inr s → v = JStr s.
Proof. destruct v; cbv [requireString mret Result_ret throw]; congruence. Qed.

Lemma requireString_inl (v : JSValue) (e : Exn) :
  requireString v = inl e → e = TypeError ∧ isString v = false.
Proof.
  destruct v; cbv [requireString mret Result_ret throw]; intros E;
    try discriminate; injection E as <-; auto.
Qed.

Lemma requireCandidate_inl (c : option jsstring) (e : Exn) :
  requireCandidate c = inl e → e = NoJsonFound ∧ (c = None ∨ c = Some []).
Proof.
  destruct c as [[|x s]|]; cbv [requireCandidate mret Result_ret throw];
    intros E; try discriminate; injection E as <-; auto.
Qed.

Lemma requireCandidate_inr (c : option jsstring) (text : jsstring) :
  requireCandidate c = inr text → c = Some text.
Proof.
  destruct c as [[|x s]|]; cbv [requireCandidate mret Result_ret throw];
    congruence.
Qed.

(** X9.  After the model has answered, [analyzeDecision] of
    [decisionSherlock.ts] fails in four ways only: with the extraction error,
    when reading the text of the response throws; with a [TypeError], when
    what was read is not a string or when the normalizer throws on the parsed
    value; with the no-JSON error, when the text has no candidate or an empty
    one; with the invalid-JSON error, when all attempts to parse the
    candidate fail. *)
Theorem sherlock_processing_errors (response : Response) (e : Exn) :
  processResponse response = inl e →
  (e = ExtractFailed ∧ extractInline response = inl ExtractFailed)
  ∨ (e = TypeError
     ∧ ∃ raw, extractInline response = inr raw ∧ isString raw = false)
  ∨ ∃ rawText,
      extractInline response = inr (JStr rawText)
      ∧ processText rawText = inl e
      ∧ ((e = NoJsonFound
          ∧ (findJsonCandidate rawText = None
             ∨ findJsonCandidate rawText = Some []))
         ∨ ∃ candidate,
             findJsonCandidate rawText = Some candidate
             ∧ ((e = InvalidJson ∧ allAttemptsFail candidate)
                ∨ (e = TypeError
                   ∧ ∃ parsedRaw,
                       parseCandidate candidate = inr parsedRaw
                       ∧ normalize parsedRaw = inl TypeError))).
Proof.
  unfold processResponse. intros E.
  apply bind_inl in E as [E|(raw & Er & E)].
  { left. pose proof (extractInline_error _ _ E) as ->. auto. }
  apply bind_inl in E as [E|(rawText & Es & E)].
  { right. left. apply requireString_inl in E as [-> Hs]. eauto. }
  apply requireString_inr in Es as ->.
  right. right. exists rawText. split; [exact Er|].
  split; [exact E|].
  apply bind_inl in E as [E|(candidate & Ec & E)].
  { left. apply requireCandidate_inl in E. exact E. }
  apply requireCandidate_inr in Ec.
  right. exists candidate. split; [exact Ec|].
  apply bind_inl in E as [E|(parsedRaw & Ep & E)].
  { left. pose proof (parseCandidate_error _ _ E) as ->.
    split; [reflexivity|]. apply parseCandidate_invalid. exact E. }
  right. apply bind_inl in E as [E|(final & Ef & E)]; [|discriminate].
  pose proof (normalize_error _ _ E) as ->. eauto.
Qed.

End PipelineErrors.

Lemma sherlock_processing_errors_witness :
  (InvalidJson = ExtractFailed
   ∧ extractInline (H := RefHost.host) (textResponse brokenText)
     = inl ExtractFailed)
  ∨ (InvalidJson = TypeError
     ∧ ∃ raw, extractInline (H := RefHost.host) (textResponse brokenText)
              = inr raw ∧ isString raw = false)
  ∨ ∃ rawText,
      extractInline (H := RefHost.host) (textResponse brokenText)
      = inr (JStr rawText)
      ∧ processText (H := RefHost.host) rawText = inl InvalidJson
      ∧ ((InvalidJson = NoJsonFound
          ∧ (findJsonCandidate rawText = None
             ∨ findJsonCandidate rawText = Some []))
         ∨ ∃ candidate,
             findJsonCandidate rawText = Some candidate
             ∧ ((InvalidJson = InvalidJson
                 ∧ allAttemptsFail (H := RefHost.host) candidate)
                ∨ (InvalidJson = TypeError
                   ∧ ∃ parsedRaw,
                       parseCandidate (H := RefHost.host) candidate
                       = inr parsedRaw
                       ∧ normalize (H := RefHost.host) parsedRaw
                         = inl TypeError))).
Proof.
  apply (sherlock_processing_errors (H := RefHost.host)
           (textResponse brokenText) InvalidJson).
  vm_compute. reflexivity.
Defined.

(** ** Calls of [decisionSherlock.ts] in a row *)

Section WithKey.
Context `{Host} `{ModelInvoker}.

Lemma analyzeAll_cons (fallback : JSValue) (data : DecisionState)
    (rest : list (JSValue * DecisionState)) (w : World) :
  analyzeAll ((fallback, data) :: rest) w
  = let r := analyzeDecision data
               {| env := env w; global_API_KEY := fallback;
                  trace := trace w |} in
    ((analyzeAll rest r.1).1, r.2 :: (analyzeAll rest r.1).2).
Proof. reflexivity. Qed.

(** One call in a world with a key in [process.env]. *)
Lemma analyzeDecision_keyed (data : DecisionState) (w : World) :
  truthy (envVar w "API_KEY") = true →
  analyzeDecision data w
  = ({| env := env w; global_API_KEY := global_API_KEY w;
        trace := trace w ++ callEvents (envVar w "API_KEY") data |},
     callOutcome (envVar w "API_KEY") data).
Proof.
  intros Hk. unfold analyzeDecision, callOutcome, callEvents.
  rewrite resolveApiKey_present by exact Hk.
  destruct (generateContent (envVar w "API_KEY") (buildContents data))
    as [err|response]; unfold log; cbn [env trace global_API_KEY];
    rewrite <- !app_assoc; reflexivity.
Qed.

(** One call in a world with a key in [globalThis] only. *)
Lemma analyzeDecision_fallback (data : DecisionState) (w : World) :
  truthy (envVar w "API_KEY") = false →
  truthy (global_API_KEY w) = true →
  analyzeDecision data w
  = ({| env := <["API_KEY" := global_API_KEY w]> (env w);
        global_API_KEY := global_API_KEY w;
        trace := trace w ++ callEvents (global_API_KEY w) data |},
     callOutcome (global_API_KEY w) data).
Proof.
  intros Hk Hg. unfold analyzeDecision, callOutcome, callEvents.
  rewrite resolveApiKey_fallback by assumption.
  assert (Hkey : envVar
            {| env := <["API_KEY" := global_API_KEY w]> (env w);
               global_API_KEY := global_API_KEY w; trace := trace w |}
            "API_KEY" = global_API_KEY w).
  { unfold envVar. cbn [env]. rewrite lookup_insert_eq. reflexivity. }
  rewrite Hkey.
  destruct (generateContent (global_API_KEY w) (buildContents data))
    as [err|response]; unfold log; cbn [env trace global_API_KEY];
    rewrite <- !app_assoc; reflexivity.
Qed.

(** Once [process.env] has a key, every call uses it. *)
Lemma analyzeAll_keyed (requests : list (JSValue * DecisionState)) :
  ∀ w : World,
    truthy (envVar w "API_KEY") = true →
    env (analyzeAll requests w).1 = env w
    ∧ trace (analyzeAll requests w).1
      = trace w
        ++ concat (map (callEvents (envVar w "API_KEY"))
                     (map snd requests))
    ∧ (analyzeAll requests w).2
      = map (callOutcome (envVar w "API_KEY")) (map snd requests).
Proof.
  induction requests as [|[fallback data] rest IH]; intros w Hk.
  - cbn. rewrite app_nil_r. auto.
  - rewrite analyzeAll_cons. cbv zeta.
    rewrite analyzeDecision_keyed by exact Hk.
    cbn [fst snd env trace global_API_KEY].
    change (envVar {| env := env w; global_API_KEY := fallback;
                      trace := trace w |} "API_KEY")
      with (envVar w "API_KEY").
    set (w1 := {| env := env w; global_API_KEY := fallback;
                  trace := trace w ++ callEvents (envVar w "API_KEY") data |}).
    assert (Hk1 : envVar w1 "API_KEY" = envVar w "API_KEY") by reflexivity.
    destruct (IH w1) as (Henv & Htrace & Hres);
      [rewrite Hk1; exact Hk|].
    rewrite Henv, Htrace, Hres, Hk1. subst w1.
    cbn [map concat env trace snd]. rewrite <- !app_assoc. auto.
Qed.

(** X16.  Calls in a row in one process: the key of the first call that
    finds one serves every later call of [analyzeDecision] of
    [decisionSherlock.ts].  If [process.env.API_KEY] is set at the start,
    every call uses it, whatever [globalThis.__API_KEY__] is set to between
    the calls.  If it is not, the calls made while the fallback is unset
    throw the missing-key error and call nothing; the first call that finds
    a fallback copies it into [process.env], and that call and every later
    one invoke the model once each with that key, also when the fallback is
    changed or removed afterwards. *)
Theorem first_key_serves_every_call
    (requests : list (JSValue * DecisionState)) (w : World) :
  (truthy (envVar w "API_KEY") = true →
     let key := envVar w "API_KEY" in
     env (analyzeAll requests w).1 = env w
     ∧ trace (analyzeAll requests w).1
       = trace w ++ concat (map (callEvents key) (map snd requests))
     ∧ (analyzeAll requests w).2
       = map (callOutcome key) (map snd requests))
  ∧ (truthy (envVar w "API_KEY") = false →
     ∀ unserved fallback data rest,
       requests = unserved ++ (fallback, data) :: rest →
       Forall (λ rq, truthy rq.1 = false) unserved →
       truthy fallback = true →
       env (analyzeAll requests w).1 = <["API_KEY" := fallback]> (env w)
       ∧ trace (analyzeAll requests w).1
         = trace w
           ++ concat (map (callEvents fallback) (data :: map snd rest))
       ∧ (analyzeAll requests w).2
         = map (λ _, inl MissingApiKey) unserved
           ++ map (callOutcome fallback) (data :: map snd rest))
  ∧ (truthy (envVar w "API_KEY") = false →
     Forall (λ rq, truthy rq.1 = false) requests →
     env (analyzeAll requests w).1 = env w
     ∧ trace (analyzeAll requests w).1 = trace w
     ∧ (analyzeAll requests w).2 = map (λ _, inl MissingApiKey) requests).
Proof.
  split; [intros Hk; apply analyzeAll_keyed; exact Hk|].
  assert (Hmiss : ∀ fallback data w0,
            truthy (envVar w0 "API_KEY") = false →
            truthy fallback = false →
            analyzeDecision data
              {| env := env w0; global_API_KEY := fallback;
                 trace := trace w0 |}
            = ({| env := env w0; global_API_KEY := fallback;
                  trace := trace w0 |}, inl MissingApiKey)).
  { intros fallback data w0 Hk Hf. unfold analyzeDecision.
    rewrite resolveApiKey_missing; [reflexivity|exact Hk|exact Hf]. }
  split.
  - intros Hk unserved fallback data rest -> Hun Hf. revert w Hk.
    induction Hun as [|[f d] unserved Hfd Hun IH]; intros w Hk.
    + cbn [app]. rewrite analyzeAll_cons. cbv zeta.
      rewrite analyzeDecision_fallback by assumption.
      cbn [fst snd env trace global_API_KEY].
      set (w1 := {| env := <["API_KEY" := fallback]> (env w);
                    global_API_KEY := fallback;
                    trace := trace w ++ callEvents fallback data |}).
      assert (Hk1 : envVar w1 "API_KEY" = fallback).
      { unfold envVar, w1. cbn [env]. rewrite lookup_insert_eq.
        reflexivity. }
      destruct (analyzeAll_keyed rest w1) as (Henv & Htrace & Hres);
        [rewrite Hk1; exact Hf|].
      rewrite Henv, Htrace, Hres, Hk1. subst w1.
      cbn [map concat env trace snd]. rewrite <- ?app_assoc. auto.
    + cbn [app]. rewrite analyzeAll_cons. cbv zeta.
      cbn [fst] in Hfd. rewrite (Hmiss f d w Hk Hfd). cbn [fst snd].
      destruct (IH {| env := env w; global_API_KEY := f;
                      trace := trace w |} Hk)
        as (Henv & Htrace & Hres).
      rewrite Henv, Htrace, Hres. cbn [map env trace app]. auto.
  - intros Hk Hun. revert w Hk.
    induction Hun as [|[f d] rest Hfd Hun IH]; intros w Hk.
    + cbn. auto.
    + rewrite analyzeAll_cons. cbv zeta.
      cbn [fst] in Hfd. rewrite (Hmiss f d w Hk Hfd). cbn [fst snd].
      destruct (IH {| env := env w; global_API_KEY := f;
                      trace := trace w |} Hk)
        as (Henv & Htrace & Hres).
      rewrite Henv, Htrace, Hres. cbn [map env trace]. auto.
Qed.

End WithKey.

Lemma first_key_serves_every_call_witness :
  let model := constantModel (inl (Thrown 3)) in
  let out := analyzeAll (H := RefHost.host) (H0 := model) fourRequests
               (bareWorld JUndefined) in
  envVar out.1 "API_KEY" = JStr (str "dev-key")
  ∧ trace out.1
    = callEvents (JStr (str "dev-key")) noData
      ++ callEvents (JStr (str "dev-key")) noData
      ++ callEvents (JStr (str "dev-key")) noData
  ∧ out.2 = [inl MissingApiKey; inl (Thrown 3); inl (Thrown 3);
             inl (Thrown 3)].
Proof.
  intros model out.
  destruct (first_key_serves_every_call (H := RefHost.host) (H0 := model)
              fourRequests (bareWorld JUndefined)) as (_ & Hfirst & _).
  destruct (Hfirst eq_refl [(JUndefined, noData)] (JStr (str "dev-key"))
              noData
              [(JStr (str "other-key"), noData); (JUndefined, noData)]
              eq_refl)
    as (Henv & Htrace & Hres).
  - repeat constructor.
  - reflexivity.
  - subst out. split; [|split].
    + unfold envVar. rewrite Henv. reflexivity.
    + rewrite Htrace. reflexivity.
    + rewrite Hres. reflexivity.
Defined.

(** ** The second pass over the scores *)

Section SecondPass.
Context `{Host}.

Lemma clampScore_fixed (n : JSNum) :
  isScore n → clampScore (JNum n) = inr n.
Proof.
  intros (z & -> & Hz). apply clampScore_score; [reflexivity|exact Hz].
Qed.

Lemma coalesce_default_fixed (a d : JSValue) :
  nullish d = false → (a ?? d) ?? d = a ?? d.
Proof.
  intros Hd. unfold coalesce. destruct (nullish a) eqn:Ea.
  - rewrite Hd. reflexivity.
  - rewrite Ea. reflexivity.
Qed.

Lemma normalizeCriterion_fixed (ca : JSValue) (c : ParsedCriteriaAnalysis) :
  normalizeCriterion ca = inr c → renormalizeCriterion c = inr c.
Proof.
  unfold normalizeCriterion. intros E. inv_binds. subst c.
  unfold renormalizeCriterion.
  cbn [score confidence criteriaId reasoning].
  match goal with
  | Hs : clampScore _ = inr ?sc |- _ =>
      rewrite (clampScore_fixed sc (clampScore_isScore _ _ Hs))
  end.
  cbn [mbind Result_bind].
  rewrite coalesce_default_fixed by reflexivity.
  match goal with
  | Hc : match ?cf with JUndefined => _ | _ => _ end = inr ?conf |- _ =>
      destruct cf; inv_binds; subst conf;
      try match goal with
          | Hs : clampScore _ = inr ?c' |- _ =>
              rewrite (clampScore_fixed c' (clampScore_isScore _ _ Hs))
          end
  end; reflexivity.
Qed.

Lemma mapArray_fixed {A} (f : A → Result A) (l : list A) :
  Forall (λ x, f x = inr x) l → mapArray f l = inr l.
Proof.
  induction 1 as [|x l Hx _ IH]; [reflexivity|].
  cbn [mapArray]. rewrite Hx. cbn [mbind Result_bind]. rewrite IH.
  reflexivity.
Qed.

Lemma Forall2_Forall_r {A B} (R : A → B → Prop) (P : B → Prop)
    (l : list A) (k : list B) :
  (∀ x y, R x y → P y) → Forall2 R l k → Forall P k.
Proof. intros HR. induction 1; constructor; eauto. Qed.

Lemma normalizeOption_fixed (a : JSValue) (o : ParsedOptionAnalysis) :
  normalizeOption a = inr o → renormalizeOption o = inr o.
Proof.
  unfold normalizeOption. intros E. inv_binds. subst o.
  unfold renormalizeOption. cbn [criteriaAnalysis optionId pros cons].
  rewrite mapArray_fixed; [reflexivity|].
  match goal with
  | Hm : mapArray normalizeCriterion _ = inr _ |- _ =>
      apply mapArray_inr in Hm;
      eapply Forall2_Forall_r; [|exact Hm]
  end.
  intros x y Hxy. eapply normalizeCriterion_fixed. exact Hxy.
Qed.

Lemma normalize_first_pass (parsedRaw : JSValue) (r : SherlockResult) :
  normalize parsedRaw = inr r →
  ∃ a rawAnalysis,
    getProp parsedRaw "analysis" = inr a
    ∧ ensureAnalysisArray (a ?? a ?? parsedRaw) = inr rawAnalysis
    ∧ mapArray normalizeOption rawAnalysis = inr (analysis r).
Proof.
  unfold normalize. intros E.
  apply bind_inr in E as (a & Ea & E).
  apply bind_inr in E as (rawAnalysis & Era & E).
  inv_binds. subst r. cbn [analysis].
  exists a, rawAnalysis. split; [exact Ea|]. split; [exact Era|].
  match goal with
  | H1 : mapArray normalizeOption rawAnalysis = inr ?opts,
    H2 : mapArray renormalizeOption ?opts = inr ?opts' |- _ =>
      rewrite mapArray_fixed in H2;
      [injection H2 as <-; exact H1|]
  end.
  match goal with
  | H1 : mapArray normalizeOption rawAnalysis = inr _ |- _ =>
      apply mapArray_inr in H1;
      eapply Forall2_Forall_r; [|exact H1]
  end.
  intros x y Hxy. eapply normalizeOption_fixed. exact Hxy.
Qed.

(** X10.  The second pass over the result (lines 430-437) changes nothing:
    what the first pass makes of an element of the model's analysis is a
    fixed point of the second, so the analysis of a normalized result is what
    the first pass returned. *)
Theorem second_pass_changes_nothing :
  (∀ a o, normalizeOption a = inr o → renormalizeOption o = inr o)
  ∧ (∀ parsedRaw r,
       normalize parsedRaw = inr r →
       ∃ a rawAnalysis,
         getProp parsedRaw "analysis" = inr a
         ∧ ensureAnalysisArray (a ?? a ?? parsedRaw) = inr rawAnalysis
         ∧ mapArray normalizeOption rawAnalysis = inr (analysis r)).
Proof.
  split; [apply normalizeOption_fixed|apply normalize_first_pass].
Qed.

Lemma getProp_propOf (v : JSValue) (k : string) (x : JSValue) :
  getProp v k = inr x → x = propOf v k.
Proof.
  destruct v; cbv [getProp propOf mret Result_ret throw]; congruence.
Qed.

Lemma normalizeOption_kept (a : JSValue) (o : ParsedOptionAnalysis) :
  normalizeOption a = inr o →
  ToString (rawOptionId a) = inr (optionId o)
  ∧ length (criteriaAnalysis o) = length (rawCriteria a).
Proof.
  unfold normalizeOption. intros E. inv_binds. subst o.
  cbn [optionId criteriaAnalysis]. unfold rawOptionId, rawCriteria.
  repeat match goal with
         | Hg : getProp a _ = inr _ |- _ => apply getProp_propOf in Hg
         end.
  subst. split; [assumption|].
  match goal with
  | Hm : mapArray normalizeCriterion _ = inr _ |- _ =>
      apply mapArray_inr in Hm; apply Forall2_length in Hm
  end.
  congruence.
Qed.

(** X12.  When the model's [analysis] is an array, the normalized result has
    one option analysis for each of its elements, in their order, whatever
    the elements are: its identifier is the string of the first of
    [optionId], [option_id], [opt_id] and [id] that the element has (and
    [unknown] if it has none), and it has one criterion analysis for each
    element of the first of [criteriaAnalysis], [criteria_analysis] and
    [criteria] that the element has.  Winner inference keeps them. *)
Theorem every_option_is_kept (parsedRaw : JSValue) (items : list JSValue)
    (r : SherlockResult) :
  propOf parsedRaw "analysis" = JArr items →
  normalize parsedRaw = inr r →
  length (analysis r) = length items
  ∧ Forall2 (λ a o, ToString (rawOptionId a) = inr (optionId o)
                    ∧ length (criteriaAnalysis o) = length (rawCriteria a))
      items (analysis r)
  ∧ analysis (inferWinner r) = analysis r.
Proof.
  intros Ea Hn.
  destruct (normalize_first_pass _ _ Hn) as (a & rawAnalysis & Eg & Era & Hm).
  apply getProp_propOf in Eg. rewrite Ea in Eg. subst a.
  cbn in Era. injection Era as <-.
  apply mapArray_inr in Hm.
  split; [symmetry; eapply Forall2_length; exact Hm|].
  split; [|apply inferWinner_analysis].
  eapply Forall2_impl; [exact Hm|].
  intros x y Hxy. apply normalizeOption_kept. exact Hxy.
Qed.

End SecondPass.

Example loose_option_first_pass :
  looseOptionFirstPass
  = {| optionId := str "7";
       criteriaAnalysis :=
         [{| criteriaId := JStr (str "c1"); score := Fin 100;
             reasoning := []; confidence := Some (Fin 13) |};
          {| criteriaId := JStr []; score := Fin 4;
             reasoning := []; confidence := None |}];
       pros := [str "near"; str "2"]; cons := [] |}.
Proof. reflexivity. Qed.

Lemma second_pass_changes_nothing_witness :
  renormalizeOption (H := RefHost.host) looseOptionFirstPass
  = inr looseOptionFirstPass.
Proof.
  apply (second_pass_changes_nothing (H := RefHost.host)) with looseOption.
  vm_compute. reflexivity.
Defined.

Lemma every_option_is_kept_witness :
  length (analysis looseResult) = 2
  ∧ Forall2 (λ a o, ToString (H := RefHost.host) (rawOptionId a)
                    = inr (optionId o)
                    ∧ length (criteriaAnalysis o) = length (rawCriteria a))
      [looseOption; JNum (Fin 1)] (analysis looseResult)
  ∧ analysis (inferWinner looseResult) = analysis looseResult.
Proof.
  apply (every_option_is_kept (H := RefHost.host)
           (JObj [(str "analysis", JArr [looseOption; JNum (Fin 1)])])
           [looseOption; JNum (Fin 1)] looseResult).
  - reflexivity.
  - vm_compute. reflexivity.
Defined.

Example loose_result_ids :
  map optionId (analysis looseResult) = [str "7"; str "unknown"].
Proof. reflexivity. Qed.

(** ** The comma cleaning of the lenient parser *)

Lemma filter_solid_separators (buf : jsstring) :
  forallb isSeparator buf = true → List.filter solid buf = [].
Proof.
  induction buf as [|c buf IH]; [reflexivity|].
  cbn [forallb List.filter]. intros Hb.
  apply andb_true_iff in Hb as [Hc Hb]. unfold solid at 1. rewrite Hc.
  cbn [negb]. apply IH. exact Hb.
Qed.

Lemma replaceComma_only_separators (close : N) (s : jsstring) :
  ∀ pending : option jsstring,
    forallb isSeparator (default [] pending) = true →
    replaceCommaBefore close pending s `sublist_of` default [] pending ++ s
    ∧ List.filter solid (replaceCommaBefore close pending s)
      = List.filter solid s.
Proof.
  induction s as [|c t IH]; intros pending Hp.
  - cbn [replaceCommaBefore]. rewrite app_nil_r. split; [reflexivity|].
    apply filter_solid_separators. exact Hp.
  - cbn [replaceCommaBefore]. destruct pending as [buf|].
    + cbn [default from_option id] in *.
      destruct (N.eqb c close) eqn:Eclose.
      { destruct (IH None eq_refl) as [Hs Hf]. split.
        - apply sublist_inserts_l. apply sublist_skip. exact Hs.
        - cbn [List.filter]. rewrite Hf. reflexivity. }
      destruct (isWhiteSpace c) eqn:Ews.
      { destruct (IH (Some (buf ++ [c]))) as [Hs Hf].
        - cbn [default from_option id]. rewrite forallb_app, Hp.
          cbn [forallb]. unfold isSeparator. rewrite Ews, orb_true_r.
          reflexivity.
        - cbn [default from_option id] in Hs. rewrite <- app_assoc in Hs.
          split; [exact Hs|]. rewrite Hf. cbn [List.filter].
          unfold solid at 2, isSeparator. rewrite Ews, orb_true_r.
          reflexivity. }
      destruct (N.eqb c (ch ",")) eqn:Ecomma.
      { destruct (IH (Some [c])) as [Hs Hf].
        - cbn [default from_option id forallb]. unfold isSeparator.
          rewrite Ecomma. reflexivity.
        - cbn [default from_option id] in Hs. split.
          + apply sublist_app; [reflexivity|exact Hs].
          + rewrite List.filter_app, filter_solid_separators by exact Hp.
            rewrite Hf. cbn [List.filter app].
            unfold solid at 2, isSeparator. rewrite Ecomma. reflexivity. }
      destruct (IH None eq_refl) as [Hs Hf]. split.
      * apply sublist_app; [reflexivity|]. apply sublist_skip. exact Hs.
      * rewrite List.filter_app, filter_solid_separators by exact Hp.
        cbn [List.filter app]. rewrite Hf. reflexivity.
    + cbn [default from_option id app] in *.
      destruct (N.eqb c (ch ",")) eqn:Ecomma.
      { destruct (IH (Some [c])) as [Hs Hf].
        - cbn [default from_option id forallb]. unfold isSeparator.
          rewrite Ecomma. reflexivity.
        - cbn [default from_option id app] in Hs. split; [exact Hs|].
          rewrite Hf. cbn [List.filter].
          unfold solid at 2, isSeparator. rewrite Ecomma. reflexivity. }
      destruct (IH None eq_refl) as [Hs Hf]. split.
      * apply sublist_skip. exact Hs.
      * cbn [List.filter]. rewrite Hf. reflexivity.
Qed.

(** X11.  The cleaning that the lenient parser applies before its second
    attempt only deletes commas and white space: the cleaned text is the
    text with some of its characters left out, every character that is
    neither a comma nor white space is still there, in the same order, and a
    text without a comma is not changed at all. *)
Theorem cleaning_deletes_only_separators (text : jsstring) :
  cleanTrailingCommas text `sublist_of` text
  ∧ List.filter solid (cleanTrailingCommas text) = List.filter solid text
  ∧ length (cleanTrailingCommas text) ≤ length text
  ∧ (ch "," ∉ text → cleanTrailingCommas text = text).
Proof.
  unfold cleanTrailingCommas.
  destruct (replaceComma_only_separators (ch "}") text None eq_refl)
    as [Hs1 Hf1].
  destruct (replaceComma_only_separators (ch "]")
              (replaceCommaBefore (ch "}") None text) None eq_refl)
    as [Hs2 Hf2].
  cbn [default from_option id app] in *.
  assert (Hs : replaceCommaBefore (ch "]") None
                 (replaceCommaBefore (ch "}") None text)
               `sublist_of` text) by (etrans; eassumption).
  split; [exact Hs|]. split; [congruence|].
  split; [apply sublist_length; exact Hs|].
  intros Hno. rewrite (replaceComma_none (ch "}") text Hno).
  apply replaceComma_none. exact Hno.
Qed.

Lemma cleaning_deletes_only_separators_witness :
  cleanTrailingCommas (json "no comma here") = json "no comma here".
Proof.
  apply (cleaning_deletes_only_separators (json "no comma here")).
  intros Hin. apply list_elem_of_In in Hin. cbn in Hin.
  intuition discriminate.
Defined.

(** What the cleaning makes of the object with trailing commas, of a run of
    commas and of a comma inside a string. *)
Example cleaning_examples :
  cleanTrailingCommas trailingCommaText = json "{'a':[1,2]}"
  ∧ cleanTrailingCommas (json "[1,,]") = json "[1,]"
  ∧ cleanTrailingCommas (json "{'a':'x, }',}") = json "{'a':'x}'}".
Proof. repeat split; reflexivity. Qed.

(** ** The application *)

Lemma filter_split_length {A} (p : A → bool) (l : list A) :
  length (List.filter p l) + length (List.filter (λ x, negb (p x)) l)
  = length l.
Proof.
  induction l as [|x l IH]; [reflexivity|].
  cbn [List.filter]. destruct (p x); cbn [negb length]; lia.
Qed.

Lemma NoDup_filter_key {A} (f : A → jsstring) (k : jsstring) (l : list A) :
  NoDup (map f l) →
  length (List.filter (λ x, jsstring_eqb (f x) k) l) ≤ 1.
Proof.
  induction l as [|x l IH]; [cbn; lia|].
  cbn [map List.filter]. intros Hnd. apply NoDup_cons in Hnd as [Hx Hnd].
  unfold jsstring_eqb at 1. destruct (bool_decide_reflect (f x = k)) as [E|E].
  - cbn [length].
    assert (Hnone : List.filter (λ y, jsstring_eqb (f y) k) l = []).
    { destruct (List.filter _ l) as [|y ?] eqn:Ef; [reflexivity|].
      exfalso. apply Hx.
      assert (Hy : In y (List.filter (λ y, jsstring_eqb (f y) k) l))
        by (rewrite Ef; left; reflexivity).
      apply filter_In in Hy as [Hy Hk].
      apply bool_decide_eq_true in Hk.
      apply list_elem_of_In, in_map_iff. exists y. split; [congruence|].
      exact Hy. }
    rewrite Hnone. cbn. lia.
  - apply IH. exact Hnd.
Qed.

Lemma NoDup_map_filter {A} (f : A → jsstring) (p : A → bool) (l : list A) :
  NoDup (map f l) → NoDup (map f (List.filter p l)).
Proof.
  induction l as [|x l IH]; [auto|].
  cbn [map List.filter]. intros Hnd. apply NoDup_cons in Hnd as [Hx Hnd].
  destruct (p x); [|auto].
  cbn [map]. apply NoDup_cons. split; [|auto].
  intros Hin. apply Hx.
  apply list_elem_of_In, in_map_iff in Hin as (y & Ey & Hy).
  apply filter_In in Hy as [Hy _].
  apply list_elem_of_In, in_map_iff. eauto.
Qed.

Lemma removed_one {A} (f : A → jsstring) (k : jsstring) (l : list A) :
  NoDup (map f l) →
  length l - 1 ≤ length (List.filter (λ x, negb (jsstring_eqb (f x) k)) l).
Proof.
  intros Hnd. pose proof (NoDup_filter_key f k l Hnd).
  pose proof (filter_split_length (λ x, jsstring_eqb (f x) k) l). lia.
Qed.

Lemma NoDup_map_snoc {A} (f : A → jsstring) (l : list A) (x : A) :
  NoDup (map f l) → (¬ ∃ y, y ∈ l ∧ f y = f x) →
  NoDup (map f (l ++ [x])).
Proof.
  intros Hnd Hfresh. rewrite map_app. cbn [map].
  apply NoDup_app. split; [exact Hnd|]. split.
  - intros k Hk Hk'. apply list_elem_of_singleton in Hk'. subst k.
    apply list_elem_of_In, in_map_iff in Hk as (y & Ey & Hy).
    apply Hfresh. exists y. split; [apply list_elem_of_In; exact Hy|exact Ey].
  - apply NoDup_singleton.
Qed.

Lemma map_id_updated {A} (f : A → jsstring) (g : A → A) (p : A → bool)
    (l : list A) :
  (∀ x, f (g x) = f x) →
  map f (map (λ x, if p x then g x else x) l) = map f l.
Proof.
  intros Hg. rewrite map_map. apply map_ext. intros x.
  destruct (p x); auto.
Qed.

Section Application.
Context `{Host} `{GeminiService.ModelInvoker}.

Lemma wellFormed_initial : wellFormed App.INITIAL_STATE.
Proof.
  unfold wellFormed. cbn.
  repeat split; try lia;
    repeat (apply NoDup_cons; split;
            [intros Hin; apply list_elem_of_In in Hin; cbn in Hin;
             intuition discriminate|]);
    apply NoDup_nil_2.
Qed.

Lemma wellFormed_template (t : App.Template) (ids : list jsstring) :
  t ∈ App.TEMPLATES → length ids = length (App.t_criteria t) → NoDup ids →
  wellFormed (App.applyTemplate t ids).
Proof.
  intros Ht Hlen Hnd.
  assert (H4 : length (App.t_criteria t) = 4).
  { apply list_elem_of_In in Ht. cbn in Ht.
    destruct Ht as [<-|[<-|[<-|[]]]]; reflexivity. }
  destruct wellFormed_initial as (_ & Ho & _ & Hlo).
  unfold wellFormed, App.applyTemplate. cbn [App.criteria App.options].
  assert (Eids : map App.c_id
                   (zip_with (λ id name,
                      {| App.c_id := id; App.c_name := name;
                         App.c_weight := Fin 5;
                         App.c_description := None |})
                      ids (App.t_criteria t)) = ids).
  { clear -Hlen. revert Hlen. generalize (App.t_criteria t).
    induction ids as [|i ids IH]; intros [|n names] Hl;
      try discriminate; [reflexivity|].
    cbn. f_equal. apply IH. cbn in Hl. lia. }
  repeat split; try assumption.
  - rewrite Eids. exact Hnd.
  - rewrite <- (length_map App.c_id), Eids. lia.
Qed.

Lemma wellFormed_criteria (s : App.DecisionState)
    (cs : list App.DecisionCriteria) :
  wellFormed s → NoDup (map App.c_id cs) → 1 ≤ length cs →
  wellFormed
    (App.updateState
       {| App.u_title := None; App.u_description := None;
          App.u_criteria := Some cs; App.u_options := None;
          App.u_result := None |} s).
Proof.
  intros (_ & Ho & _ & Hlo) Hnd Hl. unfold wellFormed. cbn. auto.
Qed.

Lemma wellFormed_options (s : App.DecisionState)
    (os : list App.DecisionOption) :
  wellFormed s → NoDup (map App.o_id os) → 2 ≤ length os →
  wellFormed
    (App.updateState
       {| App.u_title := None; App.u_description := None;
          App.u_criteria := None; App.u_options := Some os;
          App.u_result := None |} s).
Proof.
  intros (Hc & _ & Hlc & _) Hnd Hl. unfold wellFormed. cbn. auto.
Qed.

Lemma updateCriteria_ids (s : App.DecisionState) (id : jsstring)
    (u : App.CriteriaUpdates) :
  App.uc_id u = None →
  ∃ cs, App.updateCriteria s id u
        = {| App.u_title := None; App.u_description := None;
             App.u_criteria := Some cs; App.u_options := None;
             App.u_result := None |}
        ∧ map App.c_id cs = map App.c_id (App.criteria s).
Proof.
  intros Hu. eexists. split; [reflexivity|].
  apply (map_id_updated App.c_id (λ c, App.mergeCriteria c u)).
  intros c. cbn. rewrite Hu. reflexivity.
Qed.

Lemma updateOption_ids (s : App.DecisionState) (id : jsstring)
    (u : App.OptionUpdates) :
  App.uo_id u = None →
  ∃ os, App.updateOption s id u
        = {| App.u_title := None; App.u_description := None;
             App.u_criteria := None; App.u_options := Some os;
             App.u_result := None |}
        ∧ map App.o_id os = map App.o_id (App.options s).
Proof.
  intros Hu. eexists. split; [reflexivity|].
  apply (map_id_updated App.o_id (λ o, App.mergeOption o u)).
  intros o. cbn. rewrite Hu. reflexivity.
Qed.

Lemma wellFormed_same_ids (s : App.DecisionState)
    (cs : list App.DecisionCriteria) :
  wellFormed s → map App.c_id cs = map App.c_id (App.criteria s) →
  wellFormed
    (App.updateState
       {| App.u_title := None; App.u_description := None;
          App.u_criteria := Some cs; App.u_options := None;
          App.u_result := None |} s).
Proof.
  intros Hw E. apply wellFormed_criteria; [exact Hw| |].
  - rewrite E. apply Hw.
  - rewrite <- (length_map App.c_id), E, length_map. apply Hw.
Qed.

(** The options that end an upload come from the render in which the files
    were chosen. *)
Lemma wellFormed_stale_options (s stale : App.DecisionState)
    (os : list App.DecisionOption) :
  wellFormed s → wellFormed stale →
  map App.o_id os = map App.o_id (App.options stale) →
  wellFormed
    (App.updateState
       {| App.u_title := None; App.u_description := None;
          App.u_criteria := None; App.u_options := Some os;
          App.u_result := None |} s).
Proof.
  intros Hw Hs E. apply wellFormed_options; [exact Hw| |].
  - rewrite E. apply Hs.
  - rewrite <- (length_map App.o_id), E, length_map. apply Hs.
Qed.

Lemma handleFileUpload_update (stale : App.DecisionState) (id : jsstring)
    (files : option (list (App.File * jsstring))) (u : App.StateUpdates) :
  (App.handleFileUpload stale id files).2 = Some u →
  ∃ os, u = {| App.u_title := None; App.u_description := None;
               App.u_criteria := None; App.u_options := Some os;
               App.u_result := None |}
        ∧ map App.o_id os = map App.o_id (App.options stale).
Proof.
  unfold App.handleFileUpload. destruct files as [files|]; [|discriminate].
  destruct (App.readFiles files) as [alerts new].
  destruct (List.find _ _) as [option|]; [|discriminate].
  cbn [snd]. intros E. injection E as <-.
  destruct (updateOption_ids stale id
              {| App.uo_id := None; App.uo_name := None;
                 App.uo_description := None;
                 App.uo_attachments :=
                   Some (App.o_attachments option ++ new) |} eq_refl)
    as (os & E & Hids).
  exists os. auto.
Qed.

Lemma wellFormed_ext (s s' : App.DecisionState) :
  App.criteria s' = App.criteria s → App.options s' = App.options s →
  wellFormed s → wellFormed s'.
Proof. unfold wellFormed. intros -> ->. auto. Qed.

Lemma invariant_state (w : GeminiService.World) (c c' : App.Config) :
  invariant w c →
  App.world c' = App.world c → App.uploads c' = App.uploads c →
  wellFormed (App.state (App.app c')) →
  invariant w c'.
Proof.
  intros (_ & Hu & He & Hc) Ew Eu Hs. unfold invariant.
  rewrite Ew, Eu. auto.
Qed.

Lemma analyzeDecision_world (data : DecisionState)
    (w : GeminiService.World) :
  let w' := (GeminiService.analyzeDecision data w).1 in
  GeminiService.env w' = GeminiService.env w
  ∧ (GeminiService.calls w' = GeminiService.calls w
     ∨ GeminiService.calls w'
       = GeminiService.calls w
         ++ [(GeminiService.envVar w "API_KEY",
              GeminiService.buildContents data)]).
Proof.
  unfold GeminiService.analyzeDecision.
  destruct (negb _); [cbn; auto|].
  destruct (GeminiService.generateContent _ _); cbn; auto.
Qed.

Lemma invariant_after (w : GeminiService.World) (c : App.Config)
    (e : App.Event) :
  invariant w c → App.enabled c e → App.freshIds c e →
  invariant w (App.after c e).
Proof.
  intros Hinv Hen Hfresh.
  pose proof Hinv as (Hs & Hu & He & decisions & Hcalls & Hd).
  destruct e; cbn [App.enabled App.freshIds] in Hen, Hfresh;
    cbn [App.after].
  - (* Home *) eapply invariant_state; [exact Hinv|reflexivity|reflexivity|exact Hs].
  - (* ApplyTemplate *)
    destruct Hen as (_ & Ht & Hl).
    eapply invariant_state; [exact Hinv|reflexivity|reflexivity|]. cbn.
    apply wellFormed_template; assumption.
  - (* StartNew *)
    eapply invariant_state; [exact Hinv|reflexivity|reflexivity|].
    apply wellFormed_initial.
  - (* SetTitle *)
    eapply invariant_state; [exact Hinv|reflexivity|reflexivity|].
    eapply wellFormed_ext; [| |exact Hs]; reflexivity.
  - (* SetDescription *)
    eapply invariant_state; [exact Hinv|reflexivity|reflexivity|].
    eapply wellFormed_ext; [| |exact Hs]; reflexivity.
  - (* NextToCriteria *) eapply invariant_state; [exact Hinv|reflexivity|reflexivity|exact Hs].
  - (* SetCriterionName *)
    eapply invariant_state; [exact Hinv|reflexivity|reflexivity|]. cbn.
    destruct (updateCriteria_ids (App.state (App.app c)) id
                (App.namedOnly value) eq_refl) as (cs & -> & E).
    apply wellFormed_same_ids; assumption.
  - (* SetCriterionWeight *)
    eapply invariant_state; [exact Hinv|reflexivity|reflexivity|]. cbn.
    destruct (updateCriteria_ids (App.state (App.app c)) id
                (App.weightOnly value) eq_refl) as (cs & -> & E).
    apply wellFormed_same_ids; assumption.
  - (* RemoveCriterion *)
    destruct Hen as (_ & _ & Hl).
    eapply invariant_state; [exact Hinv|reflexivity|reflexivity|]. cbn.
    apply wellFormed_criteria; [exact Hs| |].
    + apply NoDup_map_filter. apply Hs.
    + pose proof (removed_one App.c_id id
                    (App.criteria (App.state (App.app c)))
                    (proj1 Hs)). lia.
  - (* AddCriterion *)
    eapply invariant_state; [exact Hinv|reflexivity|reflexivity|]. cbn.
    apply wellFormed_criteria; [exact Hs| |].
    + apply NoDup_map_snoc; [apply Hs|]. exact Hfresh.
    + rewrite length_app. cbn. lia.
  - (* BackToCase *) eapply invariant_state; [exact Hinv|reflexivity|reflexivity|exact Hs].
  - (* NextToOptions *) eapply invariant_state; [exact Hinv|reflexivity|reflexivity|exact Hs].
  - (* AddOption *)
    eapply invariant_state; [exact Hinv|reflexivity|reflexivity|]. cbn.
    apply wellFormed_options; [exact Hs| |].
    + apply NoDup_map_snoc; [apply Hs|]. exact Hfresh.
    + destruct Hs as (_ & _ & _ & Hlo). rewrite length_app. cbn. lia.
  - (* SetOptionName *)
    eapply invariant_state; [exact Hinv|reflexivity|reflexivity|]. cbn.
    match goal with
    | |- wellFormed (App.updateState (App.updateOption ?s ?i ?u) _) =>
        destruct (updateOption_ids s i u eq_refl) as (os & -> & E)
    end.
    eapply wellFormed_stale_options; eauto.
  - (* SetOptionDescription *)
    eapply invariant_state; [exact Hinv|reflexivity|reflexivity|]. cbn.
    match goal with
    | |- wellFormed (App.updateState (App.updateOption ?s ?i ?u) _) =>
        destruct (updateOption_ids s i u eq_refl) as (os & -> & E)
    end.
    eapply wellFormed_stale_options; eauto.
  - (* RemoveOption *)
    destruct Hen as (_ & _ & Hl).
    eapply invariant_state; [exact Hinv|reflexivity|reflexivity|]. cbn.
    apply wellFormed_options; [exact Hs| |].
    + apply NoDup_map_filter. apply Hs.
    + pose proof (removed_one App.o_id id
                    (App.options (App.state (App.app c)))
                    (proj1 (proj2 Hs))). lia.
  - (* RemoveAttachment *)
    eapply invariant_state; [exact Hinv|reflexivity|reflexivity|]. cbn.
    match goal with
    | |- wellFormed (App.updateState (App.updateOption ?s ?i ?u) _) =>
        destruct (updateOption_ids s i u eq_refl) as (os & -> & E)
    end.
    eapply wellFormed_stale_options; eauto.
  - (* ChooseFiles *)
    unfold invariant. cbn.
    split; [exact Hs|]. split; [|eauto].
    apply Forall_app. split; [exact Hu|].
    constructor; [exact Hs|constructor].
  - (* BackToCriteria *) eapply invariant_state; [exact Hinv|reflexivity|reflexivity|exact Hs].
  - (* Analyze *)
    destruct Hen as (_ & Hnamed).
    pose proof (analyzeDecision_world
                  (App.serviceData (App.state (App.app c))) (App.world c))
      as (Eenv & Ecalls).
    destruct (GeminiService.analyzeDecision _ (App.world c))
      as [w' outcome].
    cbn [fst] in Eenv, Ecalls. unfold invariant.
    cbn [App.app App.world App.uploads App.state App.setError App.setStep].
    split; [exact Hs|]. split; [exact Hu|]. split; [congruence|].
    destruct Ecalls as [E|E].
    + exists decisions. split; [congruence|exact Hd].
    + exists (decisions ++ [App.state (App.app c)]). split.
      * rewrite E, Hcalls, map_app, <- app_assoc. cbn [map].
        unfold callFor, GeminiService.envVar. rewrite He. reflexivity.
      * apply Forall_app. split; [exact Hd|].
        constructor; [split; assumption|constructor].
  - (* UploadRead *)
    destruct (App.uploads c !! k) as [u|] eqn:Ek; [|exact Hinv].
    unfold invariant. cbn [App.app App.world App.uploads].
    split; [|split; [apply Forall_delete; exact Hu|eauto]].
    destruct (App.handleFileUpload _ _ _).2 as [updates|] eqn:Eh;
      [|exact Hs].
    apply handleFileUpload_update in Eh as (os & -> & Hids).
    cbn [App.state App.setState].
    eapply wellFormed_stale_options; [exact Hs| |exact Hids].
    rewrite Forall_forall in Hu. apply Hu.
    eapply list_elem_of_lookup_2. exact Ek.
  - (* AnalysisDelivered *)
    destruct (App.analyses c !! k) as [outcome|] eqn:Ek; [|exact Hinv].
    eapply invariant_state; [exact Hinv|reflexivity|reflexivity|].
    cbn [App.app]. destruct outcome as [err|r].
    + destruct readable; exact Hs.
    + eapply wellFormed_ext; [| |exact Hs]; reflexivity.
  - (* Reset *)
    eapply invariant_state; [exact Hinv|reflexivity|reflexivity|].
    apply wellFormed_initial.
  - (* BackFromResults *) eapply invariant_state; [exact Hinv|reflexivity|reflexivity|exact Hs].
Qed.

(** X14.  Along every run of the application in which [genId] returns
    identifiers that are not in use, the decision always has at least one
    criterion and at least two options, the criteria and the options each
    with identifiers of their own, and so has the state kept by every upload
    that is still reading; the service leaves [process.env] as it was, and
    every call it has made to the model was made for such a decision, with
    all its options named. *)
Theorem application_keeps_decisions_well_formed (w : GeminiService.World)
    (c : App.Config) :
  App.reachable w c → invariant w c.
Proof.
  induction 1 as [|c e _ IH Hen Hfresh].
  - unfold invariant. cbn.
    split; [apply wellFormed_initial|]. split; [constructor|].
    split; [reflexivity|]. exists []. rewrite app_nil_r. auto.
  - apply invariant_after; assumption.
Qed.

Lemma reachable_run (w : GeminiService.World) (c : App.Config)
    (events : list App.Event) :
  App.reachable w c → canRun c events → App.reachable w (runFrom c events).
Proof.
  revert c. induction events as [|e rest IH]; intros c Hc Hrun; [exact Hc|].
  destruct Hrun as (Hen & Hfresh & Hrest).
  apply (IH (App.after c e)); [|exact Hrest].
  apply App.reachable_after; assumption.
Qed.

End Application.

Lemma session_can_run :
  canRun (H := RefHost.host)
    (H0 := constantGemini (inr (textResponse verdictOnlyText)))
    (firstRender keyedWorld) sessionEvents.
Proof.
  vm_compute.
  repeat match goal with
         | |- _ ∧ _ => split
         | |- True => exact I
         | |- @eq nat _ _ => reflexivity
         | |- _ = _ → False =>
             let E := fresh "E" in intros E; discriminate E
         | |- Forall _ _ => constructor
         | |- (∃ _, _) → False =>
             let o := fresh "o" in
             let Hin := fresh "Hin" in
             let E := fresh "E" in
             intros (o & Hin & E); apply list_elem_of_In in Hin;
             cbn in Hin; intuition (subst; discriminate)
         | |- ∃ o, _ ∧ _ = _ =>
             eexists; split; [apply list_elem_of_In; left; reflexivity|
                              reflexivity]
         | |- ∃ outcome, _ = Some outcome ∧ _ =>
             eexists; split; [reflexivity|discriminate]
         | |- _ < _ => lia
         | |- _ ≤ _ => lia
         end.
Qed.

Lemma application_keeps_decisions_well_formed_witness :
  invariant keyedWorld sessionEnd.
Proof.
  apply (application_keeps_decisions_well_formed (H := RefHost.host)
           (H0 := constantGemini (inr (textResponse verdictOnlyText)))
           keyedWorld sessionEnd).
  apply (reachable_run (H := RefHost.host)
           (H0 := constantGemini (inr (textResponse verdictOnlyText)))
           keyedWorld (firstRender keyedWorld) sessionEvents).
  - apply App.reachable_start.
  - exact session_can_run.
Defined.

(** The end of the session: the results are shown, the first option has its
    new name (given while the file was read) no more, and has the one file
    that fits. *)
Example session_end :
  App.step (App.app sessionEnd) = 5
  ∧ map App.o_name (App.options (App.state (App.app sessionEnd)))
    = [str "Option A"; str "Option B"; str "Option C"]
  ∧ map (λ o, map App.a_name (App.o_attachments o))
      (App.options (App.state (App.app sessionEnd)))
    = [[str "lease.pdf"]; []; []]
  ∧ length (GeminiService.calls (App.world sessionEnd)) = 1.
Proof. repeat split; reflexivity. Qed.

(** *** File upload *)

Lemma readFiles_spec (files : list (App.File * jsstring)) :
  App.readFiles files
  = (map (λ f, App.tooLarge f.1) (List.filter (λ f, negb (fits f)) files),
     map attachmentOf (List.filter fits files)).
Proof.
  induction files as [|[file id] rest IH]; [reflexivity|].
  cbn [App.readFiles List.filter]. rewrite IH.
  change App.MAX_SIZE with 4194304%N.
  rewrite (N.ltb_antisym (App.f_size file) 4194304).
  change (fits (file, id)) with (App.f_size file <=? 4194304)%N.
  destruct (App.f_size file <=? 4194304)%N; reflexivity.
Qed.

Lemma dropWhile_takeWhile_solid (c : N) (pre rest : jsstring) :
  c ∉ pre →
  dropWhile (isNot c) (pre ++ c :: rest) = c :: rest
  ∧ App.takeWhile (isNot c) (pre ++ c :: rest) = pre.
Proof.
  induction pre as [|x pre IH]; intros Hno.
  - cbn. unfold isNot. rewrite N.eqb_refl. auto.
  - apply not_elem_of_cons in Hno as [Hx Hno].
    destruct (IH Hno) as [Ed Et]. cbn [app dropWhile App.takeWhile].
    unfold isNot at 1 3.
    destruct (N.eqb_spec x c) as [->|_]; [congruence|].
    cbn [negb]. rewrite Ed, Et. auto.
Qed.

Lemma takeWhile_all {A} (p : A → bool) (l : list A) :
  Forall (λ x, p x = true) l → App.takeWhile p l = l.
Proof.
  induction 1 as [|x l Hx _ IH]; [reflexivity|].
  cbn. rewrite Hx, IH. reflexivity.
Qed.

(** X15.  Of the files chosen for an option, [handleFileUpload] makes
    attachments of those that are at most 4 MiB (4194304 bytes), in their
    order, and shows one alert for each of the others; the attachments are
    appended to those of the first option with the given identifier, as the
    render in which the files were chosen has them, and every option with
    that identifier gets the resulting list; nothing else of the state is
    updated, and nothing at all when there are no files or no such option.
    The data of an attachment is what follows the first comma of the data
    URL, up to the next comma if there is one. *)
Theorem upload_keeps_the_files_that_fit (state : App.DecisionState)
    (optionId : jsstring) (files : list (App.File * jsstring)) :
  let alerts := map (λ f, App.tooLarge f.1)
                  (List.filter (λ f, negb (fits f)) files) in
  let new := map attachmentOf (List.filter fits files) in
  (∀ option,
     List.find (λ o, jsstring_eqb (App.o_id o) optionId) (App.options state)
     = Some option →
     App.handleFileUpload state optionId (Some files)
     = (alerts,
        Some {| App.u_title := None; App.u_description := None;
                App.u_criteria := None;
                App.u_options :=
                  Some (map (λ o,
                          if jsstring_eqb (App.o_id o) optionId
                          then withAttachments o
                                 (App.o_attachments option ++ new)
                          else o) (App.options state));
                App.u_result := None |}))
  ∧ (List.find (λ o, jsstring_eqb (App.o_id o) optionId) (App.options state)
     = None →
     App.handleFileUpload state optionId (Some files) = (alerts, None))
  ∧ App.handleFileUpload state optionId None = ([], None)
  ∧ (∀ pre data rest,
       ch "," ∉ pre → ch "," ∉ data →
       App.secondPiece (pre ++ ch "," :: data) = Some data
       ∧ App.secondPiece (pre ++ ch "," :: data ++ ch "," :: rest)
         = Some data
       ∧ App.secondPiece pre = None).
Proof.
  intros alerts new. subst alerts new.
  split; [|split; [|split]].
  - intros option Ef. unfold App.handleFileUpload.
    rewrite readFiles_spec, Ef. reflexivity.
  - intros Ef. unfold App.handleFileUpload.
    rewrite readFiles_spec, Ef. reflexivity.
  - reflexivity.
  - intros pre data rest Hpre Hdata. unfold App.secondPiece.
    destruct (dropWhile_takeWhile_solid (ch ",") pre data Hpre) as [Ed _].
    destruct (dropWhile_takeWhile_solid (ch ",") pre
                (data ++ ch "," :: rest) Hpre) as [Ed' _].
    destruct (dropWhile_takeWhile_solid (ch ",") data rest Hdata)
      as [_ Et].
    rewrite Ed, Ed', Et. repeat split.
    + f_equal. apply takeWhile_all.
      rewrite Forall_forall. intros x Hx. unfold isNot.
      destruct (N.eqb_spec x (ch ",")) as [->|_]; [contradiction|].
      reflexivity.
    + rewrite <- (app_nil_r pre), dropWhile_all; [reflexivity|].
      apply forallb_forall. intros x Hx. unfold isNot.
      destruct (N.eqb_spec x (ch ",")) as [->|_]; [|reflexivity].
      exfalso. apply Hpre. apply list_elem_of_In. exact Hx.
Qed.

Lemma upload_keeps_the_files_that_fit_witness :
  App.handleFileUpload App.INITIAL_STATE (str "o2")
    (Some [(hugeFile, str "a1"); (leaseFile, str "a2")])
  = ([str "File scan.png is too large (Max 4MB)."],
     Some {| App.u_title := None; App.u_description := None;
             App.u_criteria := None;
             App.u_options :=
               Some [{| App.o_id := str "o1"; App.o_name := str "Option A";
                        App.o_description := []; App.o_attachments := [] |};
                     {| App.o_id := str "o2"; App.o_name := str "Option B";
                        App.o_description := [];
                        App.o_attachments :=
                          [{| App.a_id := str "a2";
                              App.a_name := str "lease.pdf";
                              App.a_mimeType := str "application/pdf";
                              App.a_data := Some (str "JVBERi0=") |}] |}];
             App.u_result := None |}).
Proof.
  pose proof (upload_keeps_the_files_that_fit App.INITIAL_STATE (str "o2")
                [(hugeFile, str "a1"); (leaseFile, str "a2")]) as Hfit.
  cbv zeta in Hfit. destruct Hfit as (Hfound & _).
  exact (Hfound {| App.o_id := str "o2"; App.o_name := str "Option B";
                   App.o_description := []; App.o_attachments := [] |}
           eq_refl).
Defined.

(** ** Order and bounds of the scores *)

Section Order.
Context `{Host}.

Lemma clampNumber_monotone (q1 q2 : Q) :
  (q1 <= q2)%Q →
  ∃ z1 z2,
    clampNumber (Fin q1) = Fin (inject_Z z1)
    ∧ clampNumber (Fin q2) = Fin (inject_Z z2)
    ∧ (0 ≤ z1 ≤ z2)%Z ∧ (z2 ≤ 100)%Z.
Proof.
  intros Hle. unfold clampNumber. cbn [isNaN num_lt Math_round].
  destruct (Qltb q1 0) eqn:H1n.
  { destruct (clampNumber_isScore (Fin q2)) as (z2 & E2 & Hz2).
    unfold clampNumber in E2. cbn [isNaN num_lt Math_round] in E2.
    exists 0%Z, z2. split; [reflexivity|]. split; [exact E2|]. lia. }
  apply Qltb_ge in H1n.
  assert (H2n : Qltb q2 0 = false).
  { apply Qltb_ge. eapply Qle_trans; eassumption. }
  rewrite H2n.
  destruct (Qltb 100 q1) eqn:H1b.
  { apply Qltb_lt in H1b.
    assert (H2b : Qltb 100 q2 = true).
    { apply Qltb_lt. eapply Qlt_le_trans; eassumption. }
    rewrite H2b. exists 100%Z, 100%Z. repeat split; lia. }
  apply Qltb_ge in H1b.
  pose proof (round_in_range q1 H1n H1b) as Hr1.
  destruct (Qltb 100 q2) eqn:H2b.
  { exists (Qfloor (q1 + (1 # 2))), 100%Z. repeat split; lia. }
  apply Qltb_ge in H2b.
  assert (H2n' : (0 <= q2)%Q) by (eapply Qle_trans; eassumption).
  pose proof (round_in_range q2 H2n' H2b) as Hr2.
  exists (Qfloor (q1 + (1 # 2))), (Qfloor (q2 + (1 # 2))).
  repeat split; try lia.
  apply Qfloor_resp_le. apply Qplus_le_l. exact Hle.
Qed.

(** X17.  The clamp rule keeps the order of numbers: of two numbers the
    smaller never gets the greater score; and it is idempotent: a score it
    has returned is returned as it is. *)
Theorem clamp_keeps_order :
  (∀ q1 q2, (q1 <= q2)%Q →
     ∃ z1 z2,
       clampScore (JNum (Fin q1)) = inr (Fin (inject_Z z1))
       ∧ clampScore (JNum (Fin q2)) = inr (Fin (inject_Z z2))
       ∧ (0 ≤ z1 ≤ z2)%Z ∧ (z2 ≤ 100)%Z)
  ∧ (∀ n r, clampScore n = inr r → clampScore (JNum r) = inr r).
Proof.
  split.
  - intros q1 q2 Hle.
    destruct (clampNumber_monotone q1 q2 Hle) as (z1 & z2 & E1 & E2 & Hz).
    exists z1, z2. rewrite !clampScore_number, E1, E2. auto.
  - intros n r E. apply clampScore_fixed. eapply clampScore_isScore.
    exact E.
Qed.

Lemma sumScores_bounds (cas : list ParsedCriteriaAnalysis) :
  Forall criterionOk cas →
  (0 <= sumScores cas)%Q
  ∧ (sumScores cas <= 100 * inject_Z (Z.of_nat (length cas)))%Q.
Proof.
  induction 1 as [|c cas [(z & Ez & Hz) _] _ [IH0 IH1]].
  - cbn. split; [apply Qle_refl|]. unfold Qle. cbn. lia.
  - cbn [sumScores fold_right length]. fold (sumScores cas).
    rewrite Ez. cbn [numValue].
    rewrite Nat2Z.inj_succ. unfold Z.succ. rewrite inject_Z_plus.
    assert (H0 : (0 <= inject_Z z)%Q)
      by (change 0%Q with (inject_Z 0); rewrite <- Zle_Qle; lia).
    assert (H1 : (inject_Z z <= 100)%Q)
      by (change 100%Q with (inject_Z 100); rewrite <- Zle_Qle; lia).
    split.
    + rewrite <- (Qplus_0_r 0). apply Qplus_le_compat; assumption.
    + assert (E : (100 * (inject_Z (Z.of_nat (length cas)) + inject_Z 1)
                   == 100 + 100 * inject_Z (Z.of_nat (length cas)))%Q)
        by ring.
      rewrite E. apply Qplus_le_compat; assumption.
Qed.

Lemma meanScore_bounds (opt : ParsedOptionAnalysis) :
  Forall criterionOk (criteriaAnalysis opt) →
  (0 <= meanScore opt)%Q ∧ (meanScore opt <= 100)%Q.
Proof.
  intros Hok. pose proof (sumScores_bounds _ Hok) as [H0 H1].
  unfold meanScore. destruct (criteriaAnalysis opt) as [|c t] eqn:Ec.
  - split; [apply Qle_refl|discriminate].
  - assert (Hn : (0 < inject_Z (Z.of_nat (length (c :: t))))%Q).
    { change 0%Q with (inject_Z 0). rewrite <- Zlt_Qlt. cbn [length]. lia. }
    split.
    + apply Qle_shift_div_l; [exact Hn|]. rewrite Qmult_0_l. exact H0.
    + apply Qle_shift_div_r; [exact Hn|]. exact H1.
Qed.

(** X18.  In a normalized result the average that winner inference takes of
    an option is a number between 0 and 100, the arithmetic mean of its
    scores (0 without scores); so the comparator of the sort never returns
    [NaN]: the difference of two averages is a number between -100 and
    100. *)
Theorem averages_are_in_range (parsedRaw : JSValue) (r : SherlockResult) :
  normalize parsedRaw = inr r →
  Forall (λ o, ∃ q, average o = Fin q ∧ q == meanScore o
                    ∧ (0 <= q)%Q ∧ (q <= 100)%Q) (analysis r)
  ∧ (∀ a b, a ∈ analysis r → b ∈ analysis r →
       ∃ d, byAvgDesc (toCandidate a) (toCandidate b) = Fin d
            ∧ (-100 <= d)%Q ∧ (d <= 100)%Q).
Proof.
  intros Hn. pose proof (normalize_scoresOk _ _ Hn) as Hok.
  assert (Havg : Forall (λ o, ∃ q, average o = Fin q ∧ q == meanScore o
                              ∧ (0 <= q)%Q ∧ (q <= 100)%Q) (analysis r)).
  { pose proof (scoresOk_finite r Hok) as Hfin.
    unfold scoresOk in Hok. rewrite Forall_forall in Hok, Hfin.
    apply Forall_forall. intros o Ho.
    destruct (average_mean o (Hfin o Ho)) as (q & Eq & Hq).
    destruct (meanScore_bounds o (Hok o Ho)) as [H0 H1].
    exists q. split; [exact Eq|]. split; [exact Hq|].
    split; rewrite Hq; assumption. }
  split; [exact Havg|].
  intros a b Ha Hb. rewrite Forall_forall in Havg.
  destruct (Havg a Ha) as (qa & Ea & _ & Ha0 & Ha1).
  destruct (Havg b Hb) as (qb & Eb & _ & Hb0 & Hb1).
  exists (qb + - qa)%Q. unfold byAvgDesc, toCandidate. cbn [avg].
  rewrite Ea, Eb. split; [reflexivity|]. split.
  - change (-100)%Q with (0 + Qopp 100)%Q.
    apply Qplus_le_compat; [exact Hb0|]. apply Qopp_le_compat. exact Ha1.
  - change 100%Q with (100 + Qopp 0)%Q.
    apply Qplus_le_compat; [exact Hb1|]. apply Qopp_le_compat. exact Ha0.
Qed.

End Order.

Lemma clamp_keeps_order_witness :
  ∃ z1 z2,
    clampScore (H := RefHost.host) (JNum (Fin (-3))) = inr (Fin (inject_Z z1))
    ∧ clampScore (H := RefHost.host) (JNum (Fin (876 # 10)))
      = inr (Fin (inject_Z z2))
    ∧ (0 ≤ z1 ≤ z2)%Z ∧ (z2 ≤ 100)%Z.
Proof.
  apply (clamp_keeps_order (H := RefHost.host)). discriminate.
Defined.

Lemma averages_are_in_range_witness :
  Forall (λ o, ∃ q, average o = Fin q ∧ q == meanScore o
                    ∧ (0 <= q)%Q ∧ (q <= 100)%Q) (analysis twoOptionsFinal)
  ∧ (∀ a b, a ∈ analysis twoOptionsFinal → b ∈ analysis twoOptionsFinal →
       ∃ d, byAvgDesc (toCandidate a) (toCandidate b) = Fin d
            ∧ (-100 <= d)%Q ∧ (d <= 100)%Q).
Proof.
  apply (averages_are_in_range (H := RefHost.host) twoOptions
           twoOptionsFinal).
  vm_compute. reflexivity.
Defined.
